(** * SoundEngine: a shallow embedding of TD_SOUND (SoundEngine.h, Harmonica.cpp)

    The C++ type [double] is idealised as a real number ([R]): arithmetic is
    exact, [std::sin], [std::asin], [std::floor] and [std::pow] are the
    mathematical functions, and [M_PI] is [PI].  The C++ type [int] is a
    mathematical integer ([Z]); an [int] computation that would leave the
    32-bit range is undefined behaviour and is reported as such.  Exceptions
    ([std::invalid_argument]) are an explicit outcome carrying the message.
    Loops of the source are run with a supply of fuel; for the parser the
    supply is shown to be enough. *)

From Stdlib Require Import Reals Lra Lia ZArith List String Ascii Bool Arith.
From Stdlib Require Import Sorting.Sorted.
Import ListNotations.

Open Scope R_scope.

(** ** Outcomes of fallible code *)

Inductive outcome (A : Type) : Type :=
| Ok (a : A)              (* normal return *)
| Throw (what : string)   (* throw std::invalid_argument(what) *)
| Undefined               (* undefined behaviour of the C++ abstract machine *)
| OutOfFuel.              (* the model's loop bound was reached *)

Arguments Ok {A} a.
Arguments Throw {A} what.
Arguments Undefined {A}.
Arguments OutOfFuel {A}.

Definition bind {A B : Type} (m : outcome A) (k : A -> outcome B) : outcome B :=
  match m with
  | Ok a => k a
  | Throw w => Throw w
  | Undefined => Undefined
  | OutOfFuel => OutOfFuel
  end.

(** ** Constants *)

Definition M_PI : R := PI.
Definition M_PI_2 : R := M_PI * 0.5.
Definition M_TWOPI : R := M_PI * 2.0.

Definition A440 : R := 440.

Definition notesPerOctave : Z := 12.
Definition octavesImplemented : Z := 9.
Definition totalNotes : Z := notesPerOctave * octavesImplemented.

Definition INT_MAX : Z := 2147483647.
Definition SIZE_MAX : Z := 18446744073709551615.

(** ** The pitch table *)

(** [notes[i] = v] on a vector; every index written by the generator is in
    range, and an index past the end leaves the list as it is. *)
Fixpoint assign {A : Type} (l : list A) (i : nat) (v : A) : list A :=
  match l, i with
  | [], _ => []
  | _ :: t, O => v :: t
  | h :: t, S i' => h :: assign t i' v
  end.

(** [std::pow(2, x)] *)
Definition pow2 (x : R) : R := Rpower 2 x.

(** The body of the loop over octaves, for octave [Oct] (the source's [O])
    and running pitch [A]. *)
Definition octaveBody (Oct : nat) (A : R) (notes : list R) : list R :=
  let notes := assign notes (Oct * 12 + 0) (A / pow2 (9 / 12)) in
  let notes := assign notes (Oct * 12 + 1) (A / pow2 (8 / 12)) in
  let notes := assign notes (Oct * 12 + 2) (A / pow2 (7 / 12)) in
  let notes := assign notes (Oct * 12 + 3) (A / pow2 (6 / 12)) in
  let notes := assign notes (Oct * 12 + 4) (A / pow2 (5 / 12)) in
  let notes := assign notes (Oct * 12 + 5) (A / pow2 (4 / 12)) in
  let notes := assign notes (Oct * 12 + 6) (A / pow2 (3 / 12)) in
  let notes := assign notes (Oct * 12 + 7) (A / pow2 (2 / 12)) in
  let notes := assign notes (Oct * 12 + 8) (A / pow2 (1 / 12)) in
  let notes := assign notes (Oct * 12 + 9) A in
  let notes := assign notes (Oct * 12 + 10) (A * pow2 (1 / 12)) in
  let notes := assign notes (Oct * 12 + 11) (A * pow2 (2 / 12)) in
  notes.

(** [for (int O = 0; O < octavesImplemented; ++O) { ...; A *= 2.0; }],
    with [todo] the number of iterations left. *)
Fixpoint octaveLoop (todo Oct : nat) (A : R) (notes : list R) : list R :=
  match todo with
  | O => notes
  | S todo' => octaveLoop todo' (S Oct) (A * 2) (octaveBody Oct A notes)
  end.

Definition generateTwelveToneEqual (AAboveMiddleC : R) : list R :=
  octaveLoop (Z.to_nat octavesImplemented) 0
             (AAboveMiddleC / 16)
             (repeat 0 (Z.to_nat totalNotes)).

Definition getStandardTwelveToneEqualNotes : list R :=
  generateTwelveToneEqual A440.

(** [std::to_string(i)] for the octave numbers 0..8. *)
Definition octaveDigit (i : nat) : string :=
  String (ascii_of_nat (48 + i)) EmptyString.

Definition noteName (letter : string) (i : nat) : string :=
  String.append letter (octaveDigit i).

Fixpoint noteNamesLoop (todo i : nat) (result : list string) : list string :=
  match todo with
  | O => result
  | S todo' =>
      noteNamesLoop todo' (S i)
        (result ++ [ noteName "C" i; noteName "C#" i; noteName "D" i;
                     noteName "D#" i; noteName "E" i; noteName "F" i;
                     noteName "F#" i; noteName "G" i; noteName "G#" i;
                     noteName "A" i; noteName "A#" i; noteName "B" i ])
  end.

Definition generateNoteNames : list string :=
  noteNamesLoop (Z.to_nat octavesImplemented) 0 [].

Definition getNoteNames : list string := generateNoteNames.

(** ** Oscillators (SoundEngine.h) *)

Definition sineWave (frequency time : R) : R :=
  sin (frequency * M_TWOPI * time).

Definition triangularWave (frequency time : R) : R :=
  asin (sin (frequency * M_TWOPI * time)) / M_PI_2.

(** [std::copysign(1.0, x)]: the reals have one zero, which counts as
    positive (as [+0.0] does).  The [-0.0] of the doubles, and the negative
    residue a rounded [sin] leaves near a multiple of pi, for which the code
    returns -1, have no counterpart here. *)
Definition copysign1 (x : R) : R := if Rlt_dec x 0 then -1 else 1.

Definition squareWave (frequency time : R) : R :=
  copysign1 (sin (frequency * M_TWOPI * time)).

(** [std::floor] *)
Definition floor (x : R) : R := IZR (Zfloor x).

Definition sawWave (frequency time : R) : R :=
  let Time := frequency * time in
  2.0 * (Time - floor (Time + 0.5)).

(** A value of type [size_t]: an integer reduced to 64 bits. *)
Definition to_size_t (z : Z) : Z := z mod (SIZE_MAX + 1).

Definition rectangularWave (frequency time duty : R) : R :=
  let Time := frequency * M_TWOPI * time in
  let loc := Time - floor (Time / M_TWOPI) * M_TWOPI in
  if Rle_dec loc (duty * M_TWOPI) then 1.0 else -1.0.

(** [JavidSine] (Harmonica.cpp) *)
Definition JavidSine (val : R) : R :=
  let x := val / M_TWOPI in
  let x := x - floor x in
  20.875 * x * (x - 0.5) * (x - 1.0).

(** [for (int n = 1; n < 100; ++n) sum += JavidSine(n * fundemental) / n;]
    with [todo] the number of iterations left. *)
Fixpoint sawSumLoop (todo : nat) (n : Z) (fundemental sum : R) : R :=
  match todo with
  | O => sum
  | S todo' =>
      sawSumLoop todo' (n + 1) fundemental
                 (sum + JavidSine (IZR n * fundemental) / IZR n)
  end.

(** [OscillatorHolder] (Harmonica.cpp), over the type of oscillators. *)
Record OscillatorHolder (Osc : Type) : Type := mkOscillatorHolder {
  gain : R;
  oscillator : Osc;
  harmonic : R
}.

Arguments mkOscillatorHolder {Osc} gain oscillator harmonic.
Arguments gain {Osc} o.
Arguments oscillator {Osc} o.
Arguments harmonic {Osc} o.

(** The implementations of [OscillatorImpl] in the repository: one
    constructor per class, holding the class's fields. *)
#[warnings="-register-all"]
Inductive Oscillator : Type :=
| SineWaveOscillator
| TriangularWaveOscillator
| SquareWaveOscillator
| SawWaveOscillator
| NoiseOscillator
| RectangularWaveOscillator (duty : R)
| CompoundOscillator (oscillators : list (OscillatorHolder Oscillator))
| SquareWaveWithLowFrequencyOscillations (LFOLoudness LFORate : R)
| SawWaveWithLowFrequencyOscillations (LFOLoudness LFORate : R).

Definition makeSineWaveOscillator : Oscillator := SineWaveOscillator.
Definition makeTriangularWaveOscillator : Oscillator := TriangularWaveOscillator.
Definition makeSquareWaveOscillator : Oscillator := SquareWaveOscillator.
Definition makeSawWaveOscillator : Oscillator := SawWaveOscillator.
Definition makeNoiseOscillator : Oscillator := NoiseOscillator.
Definition makeRectangularWaveOscillator (dutyCycle : R) : Oscillator :=
  RectangularWaveOscillator dutyCycle.

Section Hash.

(** [std::hash<double>] is implementation defined: any function from
    [double] to [size_t]. *)
Variable std_hash : R -> Z.

Definition noise (frequency time : R) : R :=
  1.0 - 2.0 * (IZR (to_size_t (std_hash (frequency * M_TWOPI * time)))
               / IZR SIZE_MAX).

(** [Oscillator::note], dispatching to the implementation's [note]. *)
Fixpoint Oscillator_note (o : Oscillator) (frequency time : R) : R :=
  match o with
  | SineWaveOscillator => sineWave frequency time
  | TriangularWaveOscillator => triangularWave frequency time
  | SquareWaveOscillator => squareWave frequency time
  | SawWaveOscillator => sawWave frequency time
  | NoiseOscillator => noise frequency time
  | RectangularWaveOscillator duty => rectangularWave frequency time duty
  | CompoundOscillator oscillators =>
      (fix loop (l : list (OscillatorHolder Oscillator)) (result : R) : R :=
         match l with
         | [] => result
         | osc :: l' =>
             loop l' (result + gain osc
                               * Oscillator_note (oscillator osc)
                                   (harmonic osc * frequency) time)
         end) oscillators 0.0
  | SquareWaveWithLowFrequencyOscillations LFOLoudness LFORate =>
      copysign1
        (JavidSine (frequency * M_TWOPI * time
                    + LFOLoudness * frequency
                      * JavidSine (LFORate * M_TWOPI * time)))
  | SawWaveWithLowFrequencyOscillations LFOLoudness LFORate =>
      let fundemental :=
        frequency * M_TWOPI * time
        + LFOLoudness * frequency * JavidSine (LFORate * M_TWOPI * time) in
      sawSumLoop 99 1 fundemental 0.0
  end.

End Hash.

(** ** Envelopes *)

Inductive Envelope : Type :=
| AREnvelope (attackPeak attackLength releaseLength : R)
| ADSREnvelope (attackPeak attackLength decayLength sustainLevel
                releaseLength : R).

(** [AREnvelope::AREnvelope()] *)
Definition defaultAREnvelope : Envelope :=
  AREnvelope 1.0 (240.0 / (64 * 256) * 0.1) (240.0 / (64 * 256) * 0.1).

Definition makeDefaultAREnvelope : Envelope := defaultAREnvelope.

(** [ADSREnvelope::ADSREnvelope()] (Harmonica.cpp) *)
Definition defaultADSREnvelope : Envelope := ADSREnvelope 1.0 0.1 0.1 0.2 0.2.

Definition AREnvelope_loud (attackPeak attackLength releaseLength : R)
           (time releaseTime : R) : R :=
  if Req_dec_T (-1.0) releaseTime then
    (* The note hasn't been released yet. *)
    if Rlt_dec time attackLength then (time / attackLength) * attackPeak
    else attackPeak
  else
    let result :=
      if Rlt_dec releaseTime attackLength
      then (time / attackLength) * attackPeak
      else attackPeak in
    result * ((releaseTime + releaseLength - time) / releaseLength).

Definition ADSREnvelope_loud
           (attackPeak attackLength decayLength sustainLevel releaseLength : R)
           (time releaseTime : R) : R :=
  if Req_dec_T (-1.0) releaseTime then
    (* The note hasn't been released yet. *)
    if Rlt_dec time attackLength then (time / attackLength) * attackPeak
    else if Rlt_dec time (attackLength + decayLength)
    then attackPeak
         - ((time - attackLength) / decayLength) * (attackPeak - sustainLevel)
    else sustainLevel
  else
    let result :=
      if Rlt_dec releaseTime attackLength
      then (time / attackLength) * attackPeak
      else if Rlt_dec releaseTime (attackLength + decayLength)
      then attackPeak
           - ((time - attackLength) / decayLength)
             * (attackPeak - sustainLevel)
      else sustainLevel in
    result * ((releaseTime + releaseLength - time) / releaseLength).

(** [Envelope::loud] *)
Definition loud (e : Envelope) (time releaseTime : R) : R :=
  match e with
  | AREnvelope p a r => AREnvelope_loud p a r time releaseTime
  | ADSREnvelope p a d s r => ADSREnvelope_loud p a d s r time releaseTime
  end.

(** [Envelope::release] *)
Definition release (e : Envelope) : R :=
  match e with
  | AREnvelope _ _ r => r
  | ADSREnvelope _ _ _ _ r => r
  end.

(** ** Instruments and notes *)

Record Instrument : Type := mkInstrument {
  inst_oscillator : Oscillator;
  inst_envelope : Envelope
}.

Definition makeSineWaveInstrument : Instrument :=
  mkInstrument makeSineWaveOscillator makeDefaultAREnvelope.
Definition makeTriangularWaveInstrument : Instrument :=
  mkInstrument makeTriangularWaveOscillator makeDefaultAREnvelope.
Definition makeSquareWaveInstrument : Instrument :=
  mkInstrument makeSquareWaveOscillator makeDefaultAREnvelope.
Definition makeSawWaveInstrument : Instrument :=
  mkInstrument makeSawWaveOscillator makeDefaultAREnvelope.
Definition makeNoiseInstrument : Instrument :=
  mkInstrument makeNoiseOscillator makeDefaultAREnvelope.
Definition makeRectangularWaveInstrument (dutyCycle : R) : Instrument :=
  mkInstrument (makeRectangularWaveOscillator dutyCycle) makeDefaultAREnvelope.

Definition Instrument_release (i : Instrument) : R := release (inst_envelope i).

Record Note : Type := mkNote {
  instrument : Instrument;
  frequency : R;
  startTime : R;
  duration : R;
  volume : R
}.

Definition before (n : Note) (time : R) : bool :=
  if Rlt_dec time (startTime n) then true else false.

Definition after (n : Note) (time : R) : bool :=
  if Rlt_dec (startTime n + duration n + Instrument_release (instrument n)) time
  then true else false.

(** ** Voices *)

(** [activeNotes] holds pointers into [notes]; a pointer [&notes[i]] is the
    index [i]. *)
Record Voice : Type := mkVoice {
  notes : list Note;
  index : nat;
  activeNotes : list nat
}.

(** [Voice::Voice(const std::vector<Note> notes)] *)
Definition newVoice (notes : list Note) : Voice := mkVoice notes 0 [].

Definition Voice_finished (v : Voice) : bool :=
  (index v =? List.length (notes v))%nat
  && (0 =? List.length (activeNotes v))%nat.

Definition Voice_loop (v : Voice) : Voice := mkVoice (notes v) 0 [].

(** ** Playback: Voice, Maestro, Venue *)

Section Playback.

Variable std_hash : R -> Z.

(** [Instrument::note] *)
Definition Instrument_note (i : Instrument) (frequency time releaseTime : R)
  : R :=
  loud (inst_envelope i) time releaseTime
  * Oscillator_note std_hash (inst_oscillator i) frequency time.

(** [Note::play] *)
Definition Note_play (n : Note) (time : R) : R :=
  let noteTime := time - startTime n in
  volume n
  * Instrument_note (instrument n) (frequency n) noteTime
      (if Rlt_dec noteTime (duration n) then -1.0 else duration n).

(** [Voice::playActive]: the active pointers all point into [notes]. *)
Definition Voice_playActive (v : Voice) (time : R) : R :=
  fold_left
    (fun sum p =>
       match nth_error (notes v) p with
       | Some note => sum + Note_play note time
       | None => sum
       end)
    (activeNotes v) 0.0.

(** [Voice::endPlay] *)
Definition Voice_endPlay (v : Voice) (time : R) : R * Voice :=
  let result := Voice_playActive v time in
  (result,
   mkVoice (notes v) (index v)
     (filter
        (fun p =>
           match nth_error (notes v) p with
           | Some note => negb (after note time)
           | None => true
           end)
        (activeNotes v))).

(** [while ((index < notes.size()) && notes[index].after(time)) ++index;]
    with [todo] a bound on the iterations left. *)
Fixpoint skipPassed (todo : nat) (notes : list Note) (index : nat) (time : R)
  : nat :=
  match todo with
  | O => index
  | S todo' =>
      match nth_error notes index with
      | Some note =>
          if after note time then skipPassed todo' notes (S index) time
          else index
      | None => index
      end
  end.

(** [while ((index < notes.size()) && !notes[index].before(time))
      { activeNotes.push_back(&notes[index]); ++index; }] *)
Fixpoint activateStarted (todo : nat) (notes : list Note) (index : nat)
         (active : list nat) (time : R) : nat * list nat :=
  match todo with
  | O => (index, active)
  | S todo' =>
      match nth_error notes index with
      | Some note =>
          if before note time then (index, active)
          else activateStarted todo' notes (S index) (active ++ [index]) time
      | None => (index, active)
      end
  end.

(** [Voice::play] *)
Definition Voice_play (v : Voice) (time : R) : R * Voice :=
  let size := List.length (notes v) in
  (* Skip all passed notes. *)
  let index1 := skipPassed size (notes v) (index v) time in
  let v1 := mkVoice (notes v) index1 (activeNotes v) in
  (* Exit if we are done. *)
  if (index1 =? size)%nat then Voice_endPlay v1 time
  else
    (* If this note hasn't started, we are resting. *)
    match nth_error (notes v) index1 with
    | Some note =>
        if before note time then Voice_endPlay v1 time
        else
          (* We must be playing this note right now. *)
          let '(index2, active2) :=
            activateStarted size (notes v) index1 (activeNotes v) time in
          Voice_endPlay (mkVoice (notes v) index2 active2) time
    | None => Voice_endPlay v1 time
    end.

Record Maestro : Type := mkMaestro { choir : list Voice }.

(** The loop of [Maestro::play] over the voices, in order. *)
Fixpoint playChoir (voices : list Voice) (time sample : R)
  : R * list Voice :=
  match voices with
  | [] => (sample, [])
  | voice :: rest =>
      let '(s, voice') := Voice_play voice time in
      let '(sample', rest') := playChoir rest time (sample + s) in
      (sample', voice' :: rest')
  end.

(** [Maestro::play] *)
Definition Maestro_play (m : Maestro) (time : R) : R * Maestro :=
  match choir m with
  | [] => (0.0, m)
  | _ :: _ =>
      let '(sample, voices) := playChoir (choir m) time 0.0 in
      (sample / INR (List.length (choir m)), mkMaestro voices)
  end.

(** [Maestro::finished] *)
Definition Maestro_finished (m : Maestro) : bool :=
  fold_left (fun result voice => result && Voice_finished voice)
            (choir m) true.

(** [Maestro::loop] *)
Definition Maestro_loop (m : Maestro) : Maestro :=
  mkMaestro (map Voice_loop (choir m)).

(** The callbacks that can be installed with [addMusicCallback]. *)
Variable Hollaback : Type.

Record Venue : Type := mkVenue {
  program : list Maestro;
  stopPlaying : bool;
  looping : bool;
  internalTime : R;
  hollaback : option Hollaback
}.

(** What calling a callback does to the Venue (the singleton it can reach
    through [Venue::getInstance]). *)
Variable call : Hollaback -> Venue -> Venue.

(** [Venue::Venue()] *)
Definition newVenue : Venue := mkVenue [] false false (-1.0) None.

Definition queueSong (song : Maestro) (v : Venue) : Venue :=
  mkVenue (program v ++ [song]) (stopPlaying v) (looping v)
          (internalTime v) (hollaback v).

Definition clearQueue (v : Venue) : Venue :=
  mkVenue (program v) true (looping v) (internalTime v) (hollaback v).

Definition toggleLoop (v : Venue) : Venue :=
  mkVenue (program v) (stopPlaying v) (negb (looping v)) (internalTime v)
          (hollaback v).

Definition addMusicCallback (callOnMusicDone : option Hollaback) (v : Venue)
  : Venue :=
  mkVenue (program v) (stopPlaying v) (looping v) (internalTime v)
          callOnMusicDone.

(** [if (nullptr != hollaback) hollaback();] *)
Definition tellSomeone (v : Venue) : Venue :=
  match hollaback v with
  | Some f => call f v
  | None => v
  end.

(** The first block of [getSample]: [if (true == stopPlaying) { ... }]. *)
Definition stopBlock (v : Venue) : Venue :=
  if stopPlaying v then
    tellSomeone (mkVenue [] false (looping v) (-1.0) (hollaback v))
  else v.

(** [getSample] from [if (0U == program.size())] to its end: the logic run
    for every sample of channel 0. *)
Definition playSample (timeDelta : R) (v : Venue) : R * Venue :=
  match program v with
  | [] => (0.0, v)                    (* Is there nothing to play? *)
  | front :: rest =>
      let v :=
        if Maestro_finished front then
          let queue :=
            if looping v then Maestro_loop front :: rest else rest in
          mkVenue queue (stopPlaying v) (looping v) (-1.0) (hollaback v)
        else v in
      let v :=
        match program v, hollaback v with
        | [], Some f => call f v       (* tell someone to fill the queue *)
        | _, _ => v
        end in
      match program v with
      | [] => (0.0, v)                (* Is there NOW nothing to play? *)
      | front :: rest =>
          let time :=
            if Req_dec_T (-1.0) (internalTime v) then 0.0
            else internalTime v + timeDelta in
          let '(sample, front') := Maestro_play front time in
          (sample,
           mkVenue (front' :: rest) (stopPlaying v) (looping v) time
                   (hollaback v))
      end
  end.

(** [Venue::getSample(int unused, double globalTime, double timeDelta)] *)
Definition getSample (unused : Z) (globalTime timeDelta : R) (v : Venue)
  : R * Venue :=
  if negb (0 =? unused)%Z then (0.0, v)    (* the wrong channel *)
  else playSample timeDelta (stopBlock v).

End Playback.

Arguments mkVenue {Hollaback} program stopPlaying looping internalTime hollaback.
Arguments program {Hollaback} v.
Arguments stopPlaying {Hollaback} v.
Arguments looping {Hollaback} v.
Arguments internalTime {Hollaback} v.
Arguments hollaback {Hollaback} v.
Arguments newVenue {Hollaback}.
Arguments queueSong {Hollaback} song v.
Arguments clearQueue {Hollaback} v.
Arguments toggleLoop {Hollaback} v.
Arguments addMusicCallback {Hollaback} callOnMusicDone v.
Arguments tellSomeone {Hollaback} call v.
Arguments stopBlock {Hollaback} call v.
Arguments playSample std_hash {Hollaback} call timeDelta v.
Arguments getSample std_hash {Hollaback} call unused globalTime timeDelta v.

(** ** The instrument map *)

(** [std::map<char, Instrument>]: keys are unique, and [find] returns the
    entry of a key. *)
Definition InstrumentMap : Type := list (ascii * Instrument).

Fixpoint instruments_find (instruments : InstrumentMap) (key : ascii)
  : option Instrument :=
  match instruments with
  | [] => None
  | (k, i) :: rest =>
      if Ascii.eqb k key then Some i else instruments_find rest key
  end.

Definition NUL : ascii := "000"%char.

(** [makeDefaultInstrument] / [getDefaultInstrument] *)
Definition getDefaultInstrument : InstrumentMap :=
  [(NUL, makeSquareWaveInstrument)].

(** [buildInstrument] (Harmonica.cpp) *)
Definition harmonica : Instrument :=
  mkInstrument
    (CompoundOscillator
       [ mkOscillatorHolder (0.3 * 1.0)
           (SawWaveWithLowFrequencyOscillations 0.001 5.0) 0.5;
         mkOscillatorHolder (0.3 * 1.0)
           (SquareWaveWithLowFrequencyOscillations 0.001 5.0) 1.0;
         mkOscillatorHolder (0.3 * 0.5) makeSquareWaveOscillator 2.0;
         mkOscillatorHolder (0.3 * 0.05) makeNoiseOscillator 4.0 ])
    (ADSREnvelope 1.0 0.0 1.0 0.95 0.1).

Definition buildInstrument : InstrumentMap := [(NUL, harmonica)].

(** ** The string processor *)

(** [std::isspace] and [std::toupper] in the "C" locale. *)
Definition isspace (c : ascii) : bool :=
  let n := nat_of_ascii c in
  ((n =? 32) || ((9 <=? n) && (n <=? 13)))%nat.

Definition toupper (c : ascii) : ascii :=
  let n := nat_of_ascii c in
  if ((97 <=? n) && (n <=? 122))%nat then ascii_of_nat (n - 32) else c.

Definition isdigit (c : ascii) : bool :=
  let n := nat_of_ascii c in ((48 <=? n) && (n <=? 57))%nat.

Record StringProcessor : Type := mkStringProcessor {
  input : string;
  location : nat;
  peeked : ascii
}.

(** Code that works on the processor [command]: it returns a value and the
    processor's new state, throws, or goes wrong. *)
Definition M (A : Type) : Type := StringProcessor -> outcome (A * StringProcessor).

Definition ret {A : Type} (a : A) : M A := fun sp => Ok (a, sp).

Definition throw {A : Type} (what : string) : M A := fun _ => Throw what.

Definition undefined {A : Type} : M A := fun _ => Undefined.

Definition outOfFuel {A : Type} : M A := fun _ => OutOfFuel.

Definition mbind {A B : Type} (m : M A) (k : A -> M B) : M B :=
  fun sp =>
    match m sp with
    | Ok (a, sp') => k a sp'
    | Throw w => Throw w
    | Undefined => Undefined
    | OutOfFuel => OutOfFuel
    end.

Declare Scope parser_scope.
Delimit Scope parser_scope with parser.
Notation "x <~ m ;; k" := (mbind m (fun x => k))
  (at level 61, m at next level, right associativity) : parser_scope.
Notation "m ;;; k" := (mbind m (fun _ => k))
  (at level 61, right associativity) : parser_scope.

(** The loop of [getNextChar], from the [location] it starts at. *)
Fixpoint getNextCharLoop (fuel : nat) (input : string) (location : nat)
  : outcome (ascii * nat) :=
  match fuel with
  | O => OutOfFuel
  | S fuel' =>
      let location := S location in
      if (location =? String.length input)%nat then Ok (NUL, location)
      else
        match String.get location input with
        | None => Undefined                       (* a read past the end *)
        | Some c =>
            if isspace c then getNextCharLoop fuel' input location
            else Ok (toupper c, location)
        end
  end.

(** The fuel given to every loop over the input: one more than its length. *)
Definition fuelOf (sp : StringProcessor) : nat := S (String.length (input sp)).

(** [getNextChar] advances [location] and returns the character found. *)
Definition getNextChar : M ascii :=
  fun sp =>
    match getNextCharLoop (fuelOf sp) (input sp) (location sp) with
    | Ok (c, location') =>
        Ok (c, mkStringProcessor (input sp) location' (peeked sp))
    | Throw w => Throw w
    | Undefined => Undefined
    | OutOfFuel => OutOfFuel
    end.

(** [StringProcessor::StringProcessor(const std::string&)] *)
Definition newStringProcessor (input : string)
  : outcome StringProcessor :=
  let sp := mkStringProcessor input 0 NUL in
  match String.get 0 input with
  | None => Ok sp                                 (* 0U == input.length() *)
  | Some c =>
      let peeked := toupper c in
      if isspace peeked then
        match getNextChar sp with
        | Ok (c', sp') =>
            Ok (mkStringProcessor (input) (location sp') c')
        | Throw w => Throw w
        | Undefined => Undefined
        | OutOfFuel => OutOfFuel
        end
      else Ok (mkStringProcessor input 0 peeked)
  end.

Definition done (sp : StringProcessor) : bool :=
  (location sp =? String.length (input sp))%nat.

(** [command.done()] *)
Definition isDone : M bool := fun sp => Ok (done sp, sp).

(** The fuel for a loop that starts here. *)
Definition loopFuel : M nat := fun sp => Ok (fuelOf sp, sp).

Definition peek : M ascii := fun sp => Ok (peeked sp, sp).

(** [consume]: [char result = peeked; peeked = getNextChar(); return result;] *)
Definition consume : M ascii :=
  fun sp =>
    match getNextChar sp with
    | Ok (c, sp') =>
        Ok (peeked sp, mkStringProcessor (input sp') (location sp') c)
    | Throw w => Throw w
    | Undefined => Undefined
    | OutOfFuel => OutOfFuel
    end.

(** An [int] result: leaving the range of [int] is undefined behaviour. *)
Definition int (z : Z) : M Z :=
  if ((- INT_MAX - 1 <=? z) && (z <=? INT_MAX))%Z then ret z else undefined.

Definition charValue (c : ascii) : Z := Z.of_nat (nat_of_ascii c).

Open Scope parser_scope.

(** The loop of [getNumber]. *)
Fixpoint getNumberLoop (fuel : nat) (number : Z) (firstChar : bool) : M Z :=
  match fuel with
  | O => outOfFuel
  | S fuel' =>
      c <~ peek ;;
      if isdigit c then
        d <~ consume ;;
        number' <~ int (number * 10 + (charValue d - charValue "0")) ;;
        getNumberLoop fuel' number' false
      else if firstChar
           then throw "Command requires value, none given."
           else ret number
  end.

Definition getNumber : M Z :=
  fuel <~ loopFuel ;; getNumberLoop fuel 0 true.

(** ** The parser: [buildVoiceFromString] *)

(** The local variables of [buildVoiceFromString].  [curVolume],
    [cursorTime], [emitted] and [currentInstrument] are the source's
    [volume], [time], [notes] and [instrument]. *)
Record PState : Type := mkPState {
  currentOctave : Z;
  currentBeatNote : Z;
  currentTempo : Z;
  articulation : R;
  noteLength : R;
  curVolume : R;
  cursorTime : R;
  emitted : list Note;
  currentInstrument : Instrument
}.

Definition initialPState (instrument : Instrument) : PState :=
  mkPState 4 4 120 (7.0 / 8.0) (240.0 / IZR (4 * 120)) 0.5 0.0 [] instrument.

Definition setOctave (ps : PState) (o : Z) : PState :=
  mkPState o (currentBeatNote ps) (currentTempo ps) (articulation ps)
           (noteLength ps) (curVolume ps) (cursorTime ps) (emitted ps)
           (currentInstrument ps).

Definition setTempo (ps : PState) (t : Z) : PState :=
  mkPState (currentOctave ps) (currentBeatNote ps) t (articulation ps)
           (240.0 / IZR (currentBeatNote ps * t)) (curVolume ps)
           (cursorTime ps) (emitted ps) (currentInstrument ps).

Definition setBeatNote (ps : PState) (b : Z) : PState :=
  mkPState (currentOctave ps) b (currentTempo ps) (articulation ps)
           (240.0 / IZR (b * currentTempo ps)) (curVolume ps)
           (cursorTime ps) (emitted ps) (currentInstrument ps).

Definition setArticulation (ps : PState) (a : R) : PState :=
  mkPState (currentOctave ps) (currentBeatNote ps) (currentTempo ps) a
           (noteLength ps) (curVolume ps) (cursorTime ps) (emitted ps)
           (currentInstrument ps).

Definition setVolume (ps : PState) (v : R) : PState :=
  mkPState (currentOctave ps) (currentBeatNote ps) (currentTempo ps)
           (articulation ps) (noteLength ps) v (cursorTime ps) (emitted ps)
           (currentInstrument ps).

Definition setInstrument (ps : PState) (i : Instrument) : PState :=
  mkPState (currentOctave ps) (currentBeatNote ps) (currentTempo ps)
           (articulation ps) (noteLength ps) (curVolume ps) (cursorTime ps)
           (emitted ps) i.

(** [time += length] *)
Definition advanceTime (ps : PState) (length : R) : PState :=
  mkPState (currentOctave ps) (currentBeatNote ps) (currentTempo ps)
           (articulation ps) (noteLength ps) (curVolume ps)
           (cursorTime ps + length) (emitted ps) (currentInstrument ps).

(** [notes.emplace_back(instrument, pitch, time, duration, volume)] *)
Definition emplaceNote (ps : PState) (pitch duration volume : R) : PState :=
  mkPState (currentOctave ps) (currentBeatNote ps) (currentTempo ps)
           (articulation ps) (noteLength ps) (curVolume ps) (cursorTime ps)
           (emitted ps
            ++ [mkNote (currentInstrument ps) pitch (cursorTime ps) duration
                       volume])
           (currentInstrument ps).

(** [pitches[i]]: an index outside the vector is undefined behaviour. *)
Definition pitchAt (pitches : list R) (i : Z) : M R :=
  if (i <? 0)%Z then undefined
  else match nth_error pitches (Z.to_nat i) with
       | Some f => ret f
       | None => undefined
       end.

(** [static const int map [] = { 9, 11, 0, 2, 4, 5, 7 };] indexed by
    [letter - 'A']. *)
Definition semitone (letter : ascii) : Z :=
  nth (Z.to_nat (charValue letter - charValue "A")) [9; 11; 0; 2; 4; 5; 7]%Z 0%Z.

(** [std::min(a, b)] *)
Definition std_min (a b : R) : R := if Rlt_dec b a then b else a.

(** The variables of one note while its suffixes are read. *)
Record NoteTemp : Type := mkNoteTemp {
  note : Z;
  tempDuration : R;
  tempLength : R;
  tempVolume : R;
  advance : bool;
  nextDot : R
}.

Definition isLetterAG (c : ascii) : bool :=
  let n := nat_of_ascii c in ((65 <=? n) && (n <=? 71))%nat.

Definition isdigit19 (c : ascii) : bool :=
  let n := nat_of_ascii c in ((49 <=? n) && (n <=? 57))%nat.

(** [while (true == modifiers) switch (command.peek()) ...] *)
Fixpoint modifiersLoop (fuel : nat) (currentTempo : Z) (nt : NoteTemp)
  : M NoteTemp :=
  match fuel with
  | O => outOfFuel
  | S fuel' =>
      c <~ peek ;;
      if ((c =? "+") || (c =? "#"))%char then
        consume ;;;
        let note' := (note nt + 1)%Z in
        if (totalNotes =? note')%Z
        then throw "Tried to sharp the highest note."
        else modifiersLoop fuel' currentTempo
               (mkNoteTemp note' (tempDuration nt) (tempLength nt)
                           (tempVolume nt) (advance nt) (nextDot nt))
      else if (c =? "-")%char then
        consume ;;;
        let note' := (note nt - 1)%Z in
        if (-1 =? note')%Z
        then throw "Tried to flat the lowest note."
        else modifiersLoop fuel' currentTempo
               (mkNoteTemp note' (tempDuration nt) (tempLength nt)
                           (tempVolume nt) (advance nt) (nextDot nt))
      else if (c =? ".")%char then
        consume ;;;
        modifiersLoop fuel' currentTempo
          (mkNoteTemp (note nt) (tempDuration nt)
                      (tempLength nt + nextDot nt)
                      (tempVolume nt) (advance nt) (nextDot nt * 0.5))
      else if isdigit19 c then
        (* This modifier/suffix overrides the length of the note. *)
        length <~ getNumber ;;
        if ((length <? 1) || (64 <? length))%Z
        then throw "Invalid note length."
        else
          let tempLength' := 240.0 / IZR (length * currentTempo) in
          modifiersLoop fuel' currentTempo
            (mkNoteTemp (note nt) (tempDuration nt) tempLength'
                        (tempVolume nt) (advance nt) (tempLength' * 0.5))
      else if (c =? "_")%char then
        consume ;;;
        modifiersLoop fuel' currentTempo
          (mkNoteTemp (note nt) 1.0 (tempLength nt) (tempVolume nt)
                      (advance nt) (nextDot nt))
      else if (c =? "'")%char then
        consume ;;;
        modifiersLoop fuel' currentTempo
          (mkNoteTemp (note nt) (3.0 / 4.0) (tempLength nt) (tempVolume nt)
                      (advance nt) (nextDot nt))
      else if (c =? "^")%char then
        consume ;;;
        modifiersLoop fuel' currentTempo
          (mkNoteTemp (note nt) (tempDuration nt) (tempLength nt)
                      (std_min (tempVolume nt + 0.125) 1.0)
                      (advance nt) (nextDot nt))
      else if (c =? ",")%char then
        consume ;;;
        ret (mkNoteTemp (note nt) (tempDuration nt) (tempLength nt)
                        (tempVolume nt) false (nextDot nt))
      else ret nt
  end.

(** [while ('.' == command.peek()) { command.consume();
      tempLength += nextDot; nextDot *= 0.5; }], returning [tempLength]. *)
Fixpoint dotsLoop (fuel : nat) (tempLength nextDot : R) : M R :=
  match fuel with
  | O => outOfFuel
  | S fuel' =>
      c <~ peek ;;
      if (c =? ".")%char then
        consume ;;;
        dotsLoop fuel' (tempLength + nextDot) (nextDot * 0.5)
      else ret tempLength
  end.

(** [if (';' == command.peek()) command.consume();] *)
Definition optionalSemicolon : M unit :=
  c <~ peek ;;
  if (c =? ";")%char then consume ;;; ret tt else ret tt.

Definition unknownCommand (c : ascii) : string :=
  String.append "Did not understand command component '"
                (String c "'.").

Definition unknownMusicCommand (c : ascii) : string :=
  String.append "Did not understand music ('M') command component '"
                (String c "'.").

(** The characters the [switch] of the main loop has a [case] for. *)
Definition isCommand (c : ascii) : bool :=
  isLetterAG c
  || (c =? ">")%char || (c =? "<")%char || (c =? "T")%char
  || (c =? "L")%char || (c =? "O")%char || (c =? "N")%char
  || (c =? "P")%char || (c =? "R")%char || (c =? "M")%char
  || (c =? "I")%char || (c =? "V")%char.

(** [case 'A'] ... [case 'G'] *)
Definition noteCommand (pitches : list R) (ps : PState) : M PState :=
  letter <~ consume ;;
  let i := semitone letter in
  let note0 := (currentOctave ps * notesPerOctave + i)%Z in
  let tempLength0 := noteLength ps in
  fuel <~ loopFuel ;;
  nt <~ modifiersLoop fuel (currentTempo ps)
          (mkNoteTemp note0 (articulation ps) tempLength0 (curVolume ps)
                      true (tempLength0 * 0.5)) ;;
  pitch <~ pitchAt pitches (note nt) ;;
  let ps' := emplaceNote ps pitch (tempLength nt * tempDuration nt)
                         (tempVolume nt) in
  ret (if advance nt then advanceTime ps' (tempLength nt) else ps').

(** [case 'N'] *)
Definition rawNoteCommand (pitches : list R) (ps : PState) : M PState :=
  consume ;;;
  n <~ getNumber ;;
  if (totalNotes <? n)%Z (* We will subtract one from note. *)
  then throw "Invalid note number."
  else if negb (0 =? n)%Z then
    pitch <~ pitchAt pitches (n - 1) ;;
    ret (advanceTime
           (emplaceNote ps pitch (noteLength ps * articulation ps)
                        (curVolume ps))
           (noteLength ps))
  else ret (advanceTime ps (noteLength ps)).

(** [case 'P'], [case 'R'] *)
Definition restCommand (ps : PState) : M PState :=
  consume ;;;
  c <~ peek ;;
  tempLength <~
    (if isdigit c then
       length <~ getNumber ;;
       if ((length <? 1) || (64 <? length))%Z
       then throw "Invalid note length."
       else ret (240.0 / IZR (length * currentTempo ps))
     else ret (noteLength ps)) ;;
  fuel <~ loopFuel ;;
  total <~ dotsLoop fuel tempLength (tempLength * 0.5) ;;
  ret (advanceTime ps total).

(** [case 'M'] *)
Definition musicCommand (ps : PState) : M PState :=
  consume ;;;
  c <~ peek ;;
  if ((c =? "F") || (c =? "B"))%char then
    (* No support for foreground or background music. *)
    consume ;;; ret ps
  else if (c =? "L")%char then consume ;;; ret (setArticulation ps 1.0)
  else if (c =? "N")%char then consume ;;; ret (setArticulation ps (7.0 / 8.0))
  else if (c =? "S")%char then consume ;;; ret (setArticulation ps (3.0 / 4.0))
  else throw (unknownMusicCommand c).

(** [case 'I'] *)
Definition instrumentCommand (instruments : InstrumentMap) (ps : PState)
  : M PState :=
  consume ;;;
  c <~ peek ;;
  if (c =? "Q")%char then
    consume ;;; ret (setInstrument ps makeSquareWaveInstrument)
  else if (c =? "T")%char then
    consume ;;; ret (setInstrument ps makeTriangularWaveInstrument)
  else if (c =? "S")%char then
    consume ;;; ret (setInstrument ps makeSineWaveInstrument)
  else if (c =? "W")%char then
    consume ;;; ret (setInstrument ps makeSawWaveInstrument)
  else if (c =? "N")%char then
    consume ;;; ret (setInstrument ps makeNoiseInstrument)
  else if (c =? "X")%char then
    consume ;;;
    key <~ peek ;;
    match instruments_find instruments key with
    | None => throw "Invalid instrument."
    | Some _ =>
        key' <~ consume ;;
        match instruments_find instruments key' with
        | Some i => ret (setInstrument ps i)
        | None => undefined               (* dereferencing end() *)
        end
    end
  else if (c =? "P")%char then
    consume ;;;
    dutyCycle <~ getNumber ;;
    if ((dutyCycle <? 1) || (99 <? dutyCycle))%Z
    then throw "Invalid duty cycle for a rectangular wave."
    else ret (setInstrument ps
                (makeRectangularWaveInstrument (IZR dutyCycle / 100.0)))
  else throw "Invalid instrument.".

(** [case 'V'] *)
Definition volumeCommand (ps : PState) : M PState :=
  consume ;;;
  c <~ peek ;;
  if isdigit c then
    newVolume <~ getNumber ;;
    if (100 <? newVolume)%Z then throw "Invalid volume."
    else ret (setVolume ps (IZR newVolume / 100.0))
  else if (c =? "P")%char then                     (* piano *)
    consume ;;;
    c1 <~ peek ;;
    ps' <~
      (if (c1 =? "P")%char then                    (* pianissimo *)
         consume ;;;
         c2 <~ peek ;;
         if (c2 =? "P")%char                       (* pianississimo *)
         then consume ;;; ret (setVolume ps 0.125)
         else ret (setVolume ps 0.25)
       else ret (setVolume ps 0.375)) ;;
    optionalSemicolon ;;; ret ps'
  else if (c =? "M")%char then
    consume ;;;
    c1 <~ peek ;;
    ps' <~
      (if (c1 =? "P")%char                         (* mezzo-piano *)
       then consume ;;; ret (setVolume ps 0.5)
       else if (c1 =? "F")%char                    (* mezzo-forte *)
       then consume ;;; ret (setVolume ps 0.625)
       else throw "Invalid volume specification: mezzo-I-don't-know.") ;;
    optionalSemicolon ;;; ret ps'
  else if (c =? "F")%char then
    consume ;;;
    c1 <~ peek ;;
    ps' <~
      (if negb (c1 =? "F")%char                    (* forte *)
       then ret (setVolume ps 0.75)
       else
         consume ;;;
         c2 <~ peek ;;
         if negb (c2 =? "F")%char                  (* fortissimo *)
         then ret (setVolume ps 0.875)
         else consume ;;; ret (setVolume ps 1.0)   (* fortississimo *)) ;;
    optionalSemicolon ;;; ret ps'
  else throw "Invalid volume specification.".

(** The body of the main loop: [switch (command.peek())]. *)
Definition command (instruments : InstrumentMap) (pitches : list R)
           (ps : PState) : M PState :=
  c <~ peek ;;
  if isLetterAG c then noteCommand pitches ps
  else if (c =? ">")%char then
    consume ;;;
    let octave := (currentOctave ps + 1)%Z in
    if (octavesImplemented =? octave)%Z
    then throw "Operation '>' exceeded octave range."
    else ret (setOctave ps octave)
  else if (c =? "<")%char then
    consume ;;;
    let octave := (currentOctave ps - 1)%Z in
    if (-1 =? octave)%Z
    then throw "Operation '<' exceeded octave range."
    else ret (setOctave ps octave)
  else if (c =? "T")%char then
    consume ;;;
    tempo <~ getNumber ;;
    if ((tempo <? 16) || (256 <? tempo))%Z
    then throw "Asked to play music either too slow or too fast."
    else ret (setTempo ps tempo)
  else if (c =? "L")%char then
    consume ;;;
    beatNote <~ getNumber ;;
    if ((beatNote <? 1) || (64 <? beatNote))%Z
    then throw "Invalid note length."
    else ret (setBeatNote ps beatNote)
  else if (c =? "O")%char then
    consume ;;;
    octave <~ getNumber ;;
    if (octavesImplemented <=? octave)%Z
    then throw "Set current octave too high."
    else ret (setOctave ps octave)
  else if (c =? "N")%char then rawNoteCommand pitches ps
  else if ((c =? "P") || (c =? "R"))%char then restCommand ps
  else if (c =? "M")%char then musicCommand ps
  else if (c =? "I")%char then instrumentCommand instruments ps
  else if (c =? "V")%char then volumeCommand ps
  else throw (unknownCommand c).

(** [while (false == command.done()) { switch ... }] *)
Fixpoint commandLoop (fuel : nat) (instruments : InstrumentMap)
         (pitches : list R) (ps : PState) : M PState :=
  match fuel with
  | O => outOfFuel
  | S fuel' =>
      finished <~ isDone ;;
      if finished then ret ps
      else
        ps' <~ command instruments pitches ps ;;
        commandLoop fuel' instruments pitches ps'
  end.

(** [buildVoiceFromString] up to its [return]: the checks, the processor
    and the main loop, giving the final values of the local variables. *)
Definition runParser (input : string) (instruments : InstrumentMap)
           (pitches : list R) : outcome (PState * StringProcessor) :=
  if negb (totalNotes =? Z.of_nat (List.length pitches))%Z
  then Throw "Note array of invalid size."
  else
    match instruments_find instruments NUL with
    | None => Throw "No default instrument in instrument list."
    | Some instrument =>
        bind (newStringProcessor input)
             (fun sp =>
                commandLoop (fuelOf sp) instruments pitches
                            (initialPState instrument) sp)
    end.

Definition buildVoiceFromString (input : string) (instruments : InstrumentMap)
           (pitches : list R) : outcome Voice :=
  bind (runParser input instruments pitches)
       (fun '(ps, _) => Ok (newVoice (emitted ps))).

Close Scope parser_scope.

(** ** Maestro and Venue construction from text *)

(** The loop of [Maestro::Maestro(music, instruments)]: an exception leaves
    the constructor, and no Maestro exists. *)
Fixpoint buildChoir (music : list string) (instruments : InstrumentMap)
         (choir : list Voice) : outcome (list Voice) :=
  match music with
  | [] => Ok choir
  | voice :: rest =>
      bind (buildVoiceFromString voice instruments
                                 getStandardTwelveToneEqualNotes)
           (fun v =>
              (* Throw out empty voices. *)
              buildChoir rest instruments
                (if Voice_finished v then choir else choir ++ [v]))
  end.

Definition newMaestro (music : list string) (instruments : InstrumentMap)
  : outcome Maestro :=
  bind (buildChoir music instruments []) (fun choir => Ok (mkMaestro choir)).

(** [Venue::queueMusic(music, instruments)]:
    [program.emplace_back(music, instruments)].  When the constructor throws
    the list is as it was, and the exception reaches the caller. *)
Definition queueMusic {Hollaback : Type} (music : list string)
           (instruments : InstrumentMap) (v : Venue Hollaback)
  : outcome unit * Venue Hollaback :=
  match newMaestro music instruments with
  | Ok song => (Ok tt, queueSong song v)
  | Throw w => (Throw w, v)
  | Undefined => (Undefined, v)
  | OutOfFuel => (OutOfFuel, v)
  end.

(** ** Vocabulary of the statements *)

(** The gain the release ramp would give from the attack value frozen at
    [releaseTime]: [(releaseTime / attackLength) * attackPeak] times
    [(releaseTime + releaseLength - time) / releaseLength]. *)
Definition frozenAttackGain (attackPeak attackLength releaseLength : R)
           (time releaseTime : R) : R :=
  (releaseTime / attackLength) * attackPeak
  * ((releaseTime + releaseLength - time) / releaseLength).

(** A bound on [|JavidSine|]: on [0 <= x < 1], [|x (x - 1)| <= 1/4] and
    [|x - 1/2| <= 1/2]. *)
Definition JavidBound : R := 20.875 / 8.

(** The bound the loop of the saw with low frequency oscillations inherits,
    term by term. *)
Fixpoint sawSumBound (todo : nat) (n : Z) : R :=
  match todo with
  | O => 0
  | S todo' => JavidBound / IZR n + sawSumBound todo' (n + 1)
  end.

(** The largest magnitude an oscillator's sample can have: 1 for the
    primitives, the gain-weighted sum of the members' for a compound. *)
Fixpoint amplitude (o : Oscillator) : R :=
  match o with
  | CompoundOscillator oscillators =>
      (fix total (l : list (OscillatorHolder Oscillator)) : R :=
         match l with
         | [] => 0
         | osc :: l' => Rabs (gain osc) * amplitude (oscillator osc) + total l'
         end) oscillators
  | SawWaveWithLowFrequencyOscillations _ _ => sawSumBound 99 1
  | _ => 1
  end.

(** Notes in non-decreasing order of their start times. *)
Definition byStartTime (a b : Note) : Prop := startTime a <= startTime b.

(** The facts about the parser's variables that every command maintains:
    the ranges of the octave, the beat note and the tempo, the note length
    they determine, and the emitted notes in order of start time, none
    starting after the cursor. *)
Definition PStateOk (ps : PState) : Prop :=
  (0 <= currentOctave ps < octavesImplemented)%Z
  /\ (1 <= currentBeatNote ps <= 64)%Z
  /\ (16 <= currentTempo ps <= 256)%Z
  /\ noteLength ps = 240.0 / IZR (currentBeatNote ps * currentTempo ps)
  /\ StronglySorted byStartTime (emitted ps)
  /\ Forall (fun n => startTime n <= cursorTime ps) (emitted ps).

(** [reaches instruments pitches s s']: from the variables and processor
    [s], some number of iterations of the main loop, each entered before the
    end of the input and each returning normally, lead to [s']. *)
Inductive reaches (instruments : InstrumentMap) (pitches : list R)
  : PState * StringProcessor -> PState * StringProcessor -> Prop :=
| reaches_here : forall s, reaches instruments pitches s s
| reaches_step : forall ps sp ps' sp' s,
    done sp = false ->
    command instruments pitches ps sp = Ok (ps', sp') ->
    reaches instruments pitches (ps', sp') s ->
    reaches instruments pitches (ps, sp) s.

(** The parser's variables and processor on the line "C#Z" once the note
    C sharp (index 49) has been parsed. *)
Definition afterCSharp : PState * StringProcessor :=
  let ps := initialPState makeSquareWaveInstrument in
  (advanceTime
     (emplaceNote ps (nth 49 getStandardTwelveToneEqualNotes 0)
                  (noteLength ps * articulation ps) (curVolume ps))
     (noteLength ps),
   mkStringProcessor "C#Z" 2 "Z").


(** A Venue that has been told to stop, whose callback queues a song: the
    callbacks are the songs they queue. *)
Definition oneNoteSong : Maestro :=
  mkMaestro [newVoice [mkNote makeSquareWaveInstrument 440 0 1 0.5]].

Definition stoppedVenue : Venue Maestro :=
  mkVenue [mkMaestro []] true false 3 (Some oneNoteSong).

(** [post m sp Q]: run from [sp], [m] does not run out of fuel, and when it
    returns normally its result and final processor satisfy [Q]. *)
Definition post {A : Type} (m : M A) (sp : StringProcessor)
           (Q : A -> StringProcessor -> Prop) : Prop :=
  match m sp with
  | Ok (a, sp') => Q a sp'
  | Throw _ => True
  | Undefined => True
  | OutOfFuel => False
  end.

(** What is left of the input to read. *)
Definition remaining (sp : StringProcessor) : nat :=
  String.length (input sp) - location sp.

(** [sp'] is [sp] further along the same input. *)
Definition ahead (sp sp' : StringProcessor) : Prop :=
  input sp' = input sp /\ (remaining sp' <= remaining sp)%nat.

Definition strictlyAhead (sp sp' : StringProcessor) : Prop :=
  input sp' = input sp /\ (remaining sp' < remaining sp)%nat.

(** The facts about a note's variables that its suffixes maintain. *)
Definition NoteTempOk (nt : NoteTemp) : Prop :=
  0 < tempLength nt /\ 0 < nextDot nt /\ (0 <= note nt < totalNotes)%Z.

(** What every command of the main loop guarantees when it returns: the
    invariant again, at least one character consumed, and a cursor that has
    not moved back. *)
Definition commandPost (ps : PState) (sp : StringProcessor)
           (ps' : PState) (sp' : StringProcessor) : Prop :=
  PStateOk ps' /\ strictlyAhead sp sp' /\ cursorTime ps <= cursorTime ps'.

(** Induction on oscillators, with the members of a compound covered. *)
Section OscillatorInduction.

Variable P : Oscillator -> Prop.

Hypothesis simple_case :
  forall o, match o with CompoundOscillator _ => False | _ => True end -> P o.

Hypothesis compound_case :
  forall l, Forall (fun h => P (oscillator h)) l -> P (CompoundOscillator l).

Fixpoint Oscillator_induction (o : Oscillator) : P o :=
  match o with
  | CompoundOscillator l =>
      compound_case l
        ((fix members (l : list (OscillatorHolder Oscillator))
            : Forall (fun h => P (oscillator h)) l :=
            match l with
            | [] => Forall_nil _
            | h :: t =>
                Forall_cons h (Oscillator_induction (oscillator h)) (members t)
            end) l)
  | SineWaveOscillator => simple_case SineWaveOscillator I
  | TriangularWaveOscillator => simple_case TriangularWaveOscillator I
  | SquareWaveOscillator => simple_case SquareWaveOscillator I
  | SawWaveOscillator => simple_case SawWaveOscillator I
  | NoiseOscillator => simple_case NoiseOscillator I
  | RectangularWaveOscillator d => simple_case (RectangularWaveOscillator d) I
  | SquareWaveWithLowFrequencyOscillations a b =>
      simple_case (SquareWaveWithLowFrequencyOscillations a b) I
  | SawWaveWithLowFrequencyOscillations a b =>
      simple_case (SawWaveWithLowFrequencyOscillations a b) I
  end.

End OscillatorInduction.

(** [count] calls of [getSample] on channel 0, one after the other, the
    [k]-th with the global time [globalTimeOf k], as a sample provider makes
    them: the samples, and the Venue after the last call. *)
Fixpoint getSamples (std_hash : R -> Z) {Hollaback : Type}
         (call : Hollaback -> Venue Hollaback -> Venue Hollaback)
         (count k : nat) (globalTimeOf : nat -> R) (timeDelta : R)
         (v : Venue Hollaback) : list R * Venue Hollaback :=
  match count with
  | O => ([], v)
  | S count' =>
      let '(sample, v') :=
        getSample std_hash call 0 (globalTimeOf k) timeDelta v in
      let '(samples, v'') :=
        getSamples std_hash call count' (S k) globalTimeOf timeDelta v' in
      (sample :: samples, v'')
  end.

(** Where an envelope's sustain begins, its peak, and the condition under
    which its gain stays between 0 and the peak: a peak of at least 0 and,
    for ADSR, a sustain level between 0 and the peak and a decay length of
    at least 0. *)
Definition sustainStart (e : Envelope) : R :=
  match e with
  | AREnvelope _ a _ => a
  | ADSREnvelope _ a d _ _ => a + d
  end.

Definition peakOf (e : Envelope) : R :=
  match e with
  | AREnvelope p _ _ => p
  | ADSREnvelope p _ _ _ _ => p
  end.

Definition levelsOrdered (e : Envelope) : Prop :=
  match e with
  | AREnvelope p _ _ => 0 <= p
  | ADSREnvelope p _ d s _ => 0 <= s <= p /\ 0 <= d
  end.

(** The characters the processor hands out for one character of the input:
    none for white space, the upper-case character otherwise. *)
Definition folded (c : ascii) : list ascii :=
  if isspace c then [] else [toupper c].

Fixpoint foldedChars (s : string) : list ascii :=
  match s with
  | EmptyString => []
  | String c s' => folded c ++ foldedChars s'
  end.

(** A line with its white space removed and its letters in upper case. *)
Definition normalize (s : string) : string :=
  string_of_list_ascii (foldedChars s).

Fixpoint dropChars (n : nat) (s : string) : string :=
  match n, s with
  | O, _ => s
  | S n', String _ s' => dropChars n' s'
  | S _, EmptyString => EmptyString
  end.

(** The characters the processor will still hand out after the one it is
    at. *)
Definition upcoming (sp : StringProcessor) : list ascii :=
  foldedChars (dropChars (S (location sp)) (input sp)).

(** What parser code can observe of a processor: whether it is done, the
    character it is at, and the characters to come. *)
Definition view (sp : StringProcessor) : bool * ascii * list ascii :=
  (done sp, peeked sp, upcoming sp).

(** The view of a processor at the first of the characters [l]. *)
Definition viewOf (l : list ascii) : bool * ascii * list ascii :=
  match l with
  | [] => (true, NUL, [])
  | c :: r => (false, c, r)
  end.

Definition inBounds (sp : StringProcessor) : Prop :=
  (location sp <= String.length (input sp))%nat.

(** Two processors, possibly on different inputs, that parser code cannot
    tell apart. *)
Definition alike (sp1 sp2 : StringProcessor) : Prop :=
  inBounds sp1 /\ inBounds sp2 /\ view sp1 = view sp2.

(** [post2 m1 m2 sp1 sp2 Q]: [m1] run from [sp1] and [m2] run from [sp2]
    end the same way, neither out of fuel: both throw the same message,
    both go wrong, or both return the same value, with final processors
    that satisfy [Q]. *)
Definition post2 {A : Type} (m1 m2 : M A) (sp1 sp2 : StringProcessor)
           (Q : A -> StringProcessor -> StringProcessor -> Prop) : Prop :=
  match m1 sp1, m2 sp2 with
  | Ok (a1, s1), Ok (a2, s2) => a1 = a2 /\ Q a1 s1 s2
  | Throw w1, Throw w2 => w1 = w2
  | Undefined, Undefined => True
  | _, _ => False
  end.

(** The processor is at the end with [NUL] in hand, or at a character of the
    input that is not white space, with its upper case in hand. *)
Definition atChar (sp : StringProcessor) : Prop :=
  (location sp = String.length (input sp) /\ peeked sp = NUL)
  \/ (exists c,
        String.get (location sp) (input sp) = Some c
        /\ isspace c = false /\ peeked sp = toupper c).

(** The shortest and longest lengths in seconds a note length can take:
    a 64th at tempo 256, and a whole note at tempo 16. *)
Definition shortestLength : R := 240 / (64 * 256).
Definition longestLength : R := 240 / 16.

(** What holds of every note the parser emits: a frequency of the pitch
    table, a start time of at least 0, a duration of at least three quarters
    of the shortest length and less than twice the longest, and a volume
    between 0 and 1. *)
Definition NoteSane (pitches : list R) (n : Note) : Prop :=
  In (frequency n) pitches
  /\ 0 <= startTime n
  /\ shortestLength * (3 / 4) <= duration n < 2 * longestLength
  /\ 0 <= volume n <= 1.

(** The facts about the parser's variables behind [NoteSane]. *)
Definition LevelsSane (pitches : list R) (ps : PState) : Prop :=
  3 / 4 <= articulation ps <= 1
  /\ 0 <= curVolume ps <= 1
  /\ 0 <= cursorTime ps
  /\ Forall (NoteSane pitches) (emitted ps).

(** The facts about a note's variables behind [NoteSane]: the dots add
    less than the length they start from. *)
Definition NoteTempSane (nt : NoteTemp) : Prop :=
  shortestLength <= tempLength nt
  /\ 0 < nextDot nt
  /\ tempLength nt + 2 * nextDot nt <= 2 * longestLength
  /\ 3 / 4 <= tempDuration nt <= 1
  /\ 0 <= tempVolume nt <= 1
  /\ (0 <= note nt < totalNotes)%Z.

(** A Voice whose cursor is within its notes and whose active pointers point
    at notes the cursor has passed. *)
Definition VoiceOk (v : Voice) : Prop :=
  (index v <= List.length (notes v))%nat
  /\ Forall (fun p => (p < index v)%nat) (activeNotes v).

(** The sum of a list of samples. *)
Definition sampleSum (samples : list R) : R := fold_right Rplus 0 samples.

(** What a Maestro was given to play: the notes of each voice. *)
Definition score (m : Maestro) : list (list Note) := map notes (choir m).

(** The instruments the parser makes itself: the five fixed ones and the
    rectangular wave of the [IP] command, whose duty cycle is a whole
    number of hundredths from 1 to 99. *)
Definition builtIn (i : Instrument) : Prop :=
  i = makeSquareWaveInstrument \/ i = makeTriangularWaveInstrument
  \/ i = makeSineWaveInstrument \/ i = makeSawWaveInstrument
  \/ i = makeNoiseInstrument
  \/ exists dutyCycle : Z,
       (1 <= dutyCycle <= 99)%Z
       /\ i = makeRectangularWaveInstrument (IZR dutyCycle / 100.0).

(** An instrument of the map the caller gave, or a built-in one. *)
Definition knownInstrument (instruments : InstrumentMap) (i : Instrument)
  : Prop :=
  (exists key, instruments_find instruments key = Some i) \/ builtIn i.

Definition InstrumentsKnown (instruments : InstrumentMap) (ps : PState)
  : Prop :=
  knownInstrument instruments (currentInstrument ps)
  /\ Forall (fun n => knownInstrument instruments (instrument n)) (emitted ps).

(** The characters a processor has yet to hand out, the one it is at
    included. *)
Definition pending (sp : StringProcessor) : list ascii :=
  if done sp then [] else peeked sp :: upcoming sp.

(** The digits at the front of some characters, and what follows them. *)
Fixpoint digitRun (l : list ascii) : list ascii :=
  match l with
  | c :: r => if isdigit c then c :: digitRun r else []
  | [] => []
  end.

Fixpoint afterDigits (l : list ascii) : list ascii :=
  match l with
  | c :: r => if isdigit c then afterDigits r else l
  | [] => []
  end.

(** The number that digits write in base ten, after the digits that gave
    [number]. *)
Definition decimalFrom (number : Z) (digits : list ascii) : Z :=
  fold_left (fun n d => (n * 10 + (charValue d - charValue "0"))%Z)
            digits number.

Definition decimal (digits : list ascii) : Z := decimalFrom 0 digits.

(** ** The sample display of the players (main.cpp, Harmonica.cpp) *)

(** [static double samples[512]; static int sample;] *)
Record Display : Type := mkDisplay { samples : list R; sample : Z }.

(** What [MyCustomSynthFunction] does with the result of [sdGetSample]:
    [samples[sample] = result; sample = (sample + 1) & 511;].  A write
    outside the array would be undefined behaviour; [assign] leaves the
    list alone there. *)
Definition recordSample (result : R) (d : Display) : Display :=
  mkDisplay (assign (samples d) (Z.to_nat (sample d)) result)
            (Z.land (sample d + 1) 511).

(** [samples[(sample + i) & 511]] of [OnUserUpdate]. *)
Definition shownSample (d : Display) (i : Z) : R :=
  nth (Z.to_nat (Z.land (sample d + i) 511)) (samples d) 0.

(** The array has its 512 cells and the index is one of them. *)
Definition DisplayOk (d : Display) : Prop :=
  List.length (samples d) = 512%nat /\ (0 <= sample d < 512)%Z.

(** ** MakeWave: from samples to 16 bits *)

(** [std::clamp(v, lo, hi)] *)
Definition std_clamp (v lo hi : R) : R :=
  if Rlt_dec v lo then lo else if Rlt_dec hi v then hi else v.

Definition SHRT_MAX : Z := 32767.
Definition SHRT_MIN : Z := (-32768)%Z.

(** The conversion of a [double] to an integer type discards the fractional
    part. *)
Definition truncate (x : R) : Z :=
  if Rle_dec 0 x then Zfloor x else (- Zfloor (- x))%Z.

(** [static_cast<short>(x)]: undefined when the truncated value is not a
    [short]. *)
Definition toShort (x : R) : outcome Z :=
  let z := truncate x in
  if ((SHRT_MIN <=? z) && (z <=? SHRT_MAX))%Z then Ok z else Undefined.

(** [thisSample = std::clamp(sdGetSample(...), -1.0, 1.0);
     curSample = static_cast<short>(thisSample
                                    * std::numeric_limits<short>::max());] *)
Definition curSample (raw : R) : outcome Z :=
  let thisSample := std_clamp raw (-1.0) 1.0 in
  toShort (thisSample * IZR SHRT_MAX).

(** Whether the character [c] occurs in a message. *)
Fixpoint mentions (c : ascii) (what : string) : bool :=
  match what with
  | EmptyString => false
  | String c' rest => Ascii.eqb c c' || mentions c rest
  end.

(* ================================================================== *)
(** * Properties *)

(** Evaluation of the model that leaves the real-number operations as they
    are written. *)
Ltac run :=
  cbv -[Rplus Rmult Rminus Rdiv Ropp Rinv IZR pow2 Rlt_dec Req_dec_T Rle_dec
        Rabs PI sin asin Zfloor std_min].

(** Write decimal constants as quotients of integers, for [ring] and
    [field]. *)
Ltac decimals := cbv [Q2R QArith_base.Qnum QArith_base.Qden] in *.

(** ** The pitch table *)

Lemma assign_length {A : Type} (l : list A) (i : nat) (v : A) :
  List.length (assign l i v) = List.length l.
Proof.
  revert i; induction l as [|h t IH]; intros [|i]; simpl; auto.
Qed.

Lemma octaveBody_length (Oct : nat) (A : R) (l : list R) :
  List.length (octaveBody Oct A l) = List.length l.
Proof. unfold octaveBody. now rewrite !assign_length. Qed.

Lemma octaveLoop_length (todo Oct : nat) (A : R) (l : list R) :
  List.length (octaveLoop todo Oct A l) = List.length l.
Proof.
  revert Oct A l; induction todo as [|n IH]; intros; simpl; auto.
  now rewrite IH, octaveBody_length.
Qed.

Lemma generateTwelveToneEqual_length (a : R) :
  List.length (generateTwelveToneEqual a) = 108%nat.
Proof.
  unfold generateTwelveToneEqual. rewrite octaveLoop_length, repeat_length.
  reflexivity.
Qed.

Lemma generateTwelveToneEqual_length' :
  negb (totalNotes =? Z.of_nat (List.length getStandardTwelveToneEqualNotes))%Z
  = false.
Proof.
  unfold getStandardTwelveToneEqualNotes.
  now rewrite generateTwelveToneEqual_length.
Qed.

(** Whatever the reference pitch, it lands at index 57 (octave 4, semitone
    9) and half of it at index 45. *)
Lemma generateTwelveToneEqual_reference (a : R) :
  nth_error (generateTwelveToneEqual a) 57 = Some (a / 16 * 2 * 2 * 2 * 2)
  /\ nth_error (generateTwelveToneEqual a) 45 = Some (a / 16 * 2 * 2 * 2).
Proof. split; reflexivity. Qed.

(** C1, as stated, fails: the entry at index 45 of the standard table is
    not 440 (it is 220, the A of octave 3). *)
Lemma standard_pitch_45_is_not_440 :
  nth_error getStandardTwelveToneEqualNotes 45 <> Some 440.
Proof.
  unfold getStandardTwelveToneEqualNotes.
  rewrite (proj2 (generateTwelveToneEqual_reference A440)).
  intros H. injection H as H. unfold A440 in H. lra.
Qed.

(** C1 (amended): in the standard pitch table, generated from A4 = 440 Hz,
    the entry at index 57 (named "A4") is 440 exactly, the entry at index
    45 (named "A3") is 220, and so the entry at index 57 is twice the entry
    at index 45. *)
Theorem standard_pitch_A4 :
  nth_error getStandardTwelveToneEqualNotes 57 = Some 440
  /\ nth_error getStandardTwelveToneEqualNotes 45 = Some 220
  /\ nth 57 getStandardTwelveToneEqualNotes 0
     = 2 * nth 45 getStandardTwelveToneEqualNotes 0
  /\ nth_error getNoteNames 57 = Some "A4"%string
  /\ nth_error getNoteNames 45 = Some "A3"%string
  /\ List.length getStandardTwelveToneEqualNotes = 108%nat.
Proof.
  unfold getStandardTwelveToneEqualNotes.
  destruct (generateTwelveToneEqual_reference A440) as [H57 H45].
  assert (E57 : A440 / 16 * 2 * 2 * 2 * 2 = 440) by (unfold A440; lra).
  assert (E45 : A440 / 16 * 2 * 2 * 2 = 220) by (unfold A440; lra).
  rewrite E57 in H57. rewrite E45 in H45.
  repeat split; auto.
  rewrite (nth_error_nth _ _ 0 H57), (nth_error_nth _ _ 0 H45). lra.
Qed.

(** ** Envelopes *)

(** What the code computes for a released note whose release began during
    the attack: the attack line evaluated at [time], times the ramp. *)
Lemma AREnvelope_released_mid_attack (p a r time releaseTime : R) :
  releaseTime <> -1 -> releaseTime < a ->
  loud (AREnvelope p a r) time releaseTime
  = (time / a) * p * ((releaseTime + r - time) / r).
Proof.
  intros Hrel Hlt. simpl. unfold AREnvelope_loud.
  destruct (Req_dec_T (-1.0) releaseTime) as [E|_]; [exfalso; lra|].
  destruct (Rlt_dec releaseTime a); [reflexivity|contradiction].
Qed.

Lemma ADSREnvelope_released_mid_attack (p a d s r time releaseTime : R) :
  releaseTime <> -1 -> releaseTime < a ->
  loud (ADSREnvelope p a d s r) time releaseTime
  = (time / a) * p * ((releaseTime + r - time) / r).
Proof.
  intros Hrel Hlt. simpl. unfold ADSREnvelope_loud.
  destruct (Req_dec_T (-1.0) releaseTime) as [E|_]; [exfalso; lra|].
  destruct (Rlt_dec releaseTime a); [reflexivity|contradiction].
Qed.

(** C2: the code at a note released mid-attack.  With the default AR
    envelope (attack length [a = 240/(64*256)*0.1]) released at [a/2] and
    sampled at [a], and with the default ADSR envelope (attack 0.1, release
    0.2) released at 0.05 and sampled at 0.1, [loud] returns 1/2 and 3/4:
    the attack line has gone on growing with the time.  The gain frozen at
    the release, times the ramp, is 1/4 and 3/8. *)
Theorem loud_released_mid_attack_grows_with_time :
  let a := 240.0 / (64 * 256) * 0.1 in
  0 <= a / 2 < a
  /\ loud defaultAREnvelope a (a / 2) = 1 / 2
  /\ frozenAttackGain 1.0 a a a (a / 2) = 1 / 4
  /\ loud defaultADSREnvelope 0.1 0.05 = 3 / 4
  /\ frozenAttackGain 1.0 0.1 0.2 0.1 0.05 = 3 / 8.
Proof.
  cbv zeta. split; [lra|]. split; [|split; [|split]].
  - unfold defaultAREnvelope.
    rewrite AREnvelope_released_mid_attack by lra. lra.
  - unfold frozenAttackGain. lra.
  - unfold defaultADSREnvelope.
    rewrite ADSREnvelope_released_mid_attack by lra. lra.
  - unfold frozenAttackGain. lra.
Qed.

(** ** Oscillators *)

Lemma Rabs_le_interval (a b : R) : Rabs a <= b -> - b <= a <= b.
Proof. unfold Rabs. destruct (Rcase_abs a); lra. Qed.

Lemma M_TWOPI_pos : 0 < M_TWOPI.
Proof. unfold M_TWOPI, M_PI. pose proof PI_RGT_0. lra. Qed.

Lemma M_PI_2_pos : 0 < M_PI_2.
Proof. unfold M_PI_2, M_PI. pose proof PI_RGT_0. lra. Qed.

Lemma sineWave_range (f t : R) : -1 <= sineWave f t <= 1.
Proof. unfold sineWave. apply SIN_bound. Qed.

Lemma triangularWave_range (f t : R) : -1 <= triangularWave f t <= 1.
Proof.
  unfold triangularWave.
  pose proof (asin_bound (sin (f * M_TWOPI * t))) as [Hlo Hhi].
  pose proof M_PI_2_pos as Hpos.
  assert (E : PI / 2 = M_PI_2) by (unfold M_PI_2, M_PI; lra).
  rewrite E in Hlo, Hhi.
  split.
  - apply Rmult_le_reg_r with (r := M_PI_2); [assumption|].
    unfold Rdiv. rewrite Rmult_assoc, Rinv_l by lra. lra.
  - apply Rmult_le_reg_r with (r := M_PI_2); [assumption|].
    unfold Rdiv. rewrite Rmult_assoc, Rinv_l by lra. lra.
Qed.

Lemma copysign1_cases (x : R) : copysign1 x = -1 \/ copysign1 x = 1.
Proof. unfold copysign1. destruct (Rlt_dec x 0); auto. Qed.

Lemma copysign1_range (x : R) : -1 <= copysign1 x <= 1.
Proof. destruct (copysign1_cases x) as [E|E]; rewrite E; lra. Qed.

Lemma squareWave_range (f t : R) : -1 <= squareWave f t <= 1.
Proof. apply copysign1_range. Qed.

Lemma floor_bound (x : R) : floor x <= x < floor x + 1.
Proof. unfold floor. apply Zfloor_bound. Qed.

Lemma sawWave_range (f t : R) : -1 <= sawWave f t <= 1.
Proof.
  unfold sawWave. cbv zeta.
  pose proof (floor_bound (f * t + 0.5)). lra.
Qed.

Lemma to_size_t_range (z : Z) : (0 <= to_size_t z <= SIZE_MAX)%Z.
Proof.
  unfold to_size_t.
  pose proof (Z.mod_pos_bound z (SIZE_MAX + 1)) as H.
  unfold SIZE_MAX in *. lia.
Qed.

Lemma noise_range (std_hash : R -> Z) (f t : R) :
  -1 <= noise std_hash f t <= 1.
Proof.
  unfold noise.
  set (h := to_size_t (std_hash (f * M_TWOPI * t))).
  pose proof (to_size_t_range (std_hash (f * M_TWOPI * t))) as [Hlo Hhi].
  fold h in Hlo, Hhi.
  apply IZR_le in Hlo. apply IZR_le in Hhi.
  assert (Hmax : 0 < IZR SIZE_MAX) by (apply IZR_lt; reflexivity).
  assert (H0 : 0 <= IZR h / IZR SIZE_MAX)
    by (apply Rmult_le_pos; [lra | left; now apply Rinv_0_lt_compat]).
  assert (H1 : IZR h / IZR SIZE_MAX <= 1).
  { apply Rmult_le_reg_r with (r := IZR SIZE_MAX); [assumption|].
    unfold Rdiv. rewrite Rmult_assoc, Rinv_l by lra. lra. }
  lra.
Qed.

Lemma rectangularWave_range (f t duty : R) :
  -1 <= rectangularWave f t duty <= 1.
Proof.
  unfold rectangularWave. cbv zeta.
  match goal with |- context [Rle_dec ?a ?b] => destruct (Rle_dec a b) end; lra.
Qed.

Lemma JavidSine_bound (val : R) : Rabs (JavidSine val) <= JavidBound.
Proof.
  unfold JavidSine, JavidBound. cbv zeta.
  generalize (val / M_TWOPI). intros y.
  pose proof (floor_bound y) as Hf.
  set (x := y - floor y).
  assert (Hx : 0 <= x < 1) by (unfold x; lra).
  clearbody x. clear Hf y.
  assert (Hq : 0 <= x * (1 - x) <= 1 / 4).
  { split; [apply Rmult_le_pos; lra|].
    pose proof (pow2_ge_0 (x - 1 / 2)) as Hsq. nra. }
  assert (Hh : -(1 / 2) <= x - 0.5 <= 1 / 2) by lra.
  replace (20.875 * x * (x - 0.5) * (x - 1.0))
    with (- (20.875 * ((x * (1 - x)) * (x - 0.5)))) by (decimals; field).
  rewrite Rabs_Ropp.
  apply Rabs_le. split; nra.
Qed.

Lemma sawSumLoop_bound (todo : nat) (n : Z) (F sum : R) :
  (1 <= n)%Z ->
  Rabs (sawSumLoop todo n F sum) <= Rabs sum + sawSumBound todo n.
Proof.
  revert n sum. induction todo as [|k IH]; intros n sum Hn; simpl.
  - lra.
  - eapply Rle_trans; [apply IH; lia|].
    assert (Hpos : 0 < IZR n) by (apply IZR_lt; lia).
    assert (Hterm : Rabs (JavidSine (IZR n * F) / IZR n) <= JavidBound / IZR n).
    { unfold Rdiv. rewrite Rabs_mult, (Rabs_pos_eq (/ IZR n)).
      - apply Rmult_le_compat_r; [|apply JavidSine_bound].
        left. now apply Rinv_0_lt_compat.
      - left. now apply Rinv_0_lt_compat. }
    pose proof (Rabs_triang sum (JavidSine (IZR n * F) / IZR n)). lra.
Qed.

(** The gain-weighted total of a compound's members, as [amplitude] sums
    it. *)
Lemma amplitude_compound (l : list (OscillatorHolder Oscillator)) :
  amplitude (CompoundOscillator l)
  = fold_right (fun h acc => Rabs (gain h) * amplitude (oscillator h) + acc)
               0 l.
Proof. induction l as [|h t IH]; simpl in *; [reflexivity|]. now rewrite IH. Qed.

Lemma note_compound (std_hash : R -> Z)
      (l : list (OscillatorHolder Oscillator)) (f t : R) :
  Oscillator_note std_hash (CompoundOscillator l) f t
  = fold_left
      (fun result h =>
         result + gain h * Oscillator_note std_hash (oscillator h)
                             (harmonic h * f) t)
      l 0.0.
Proof.
  simpl. generalize 0.0.
  induction l as [|h tl IH]; intros r; simpl; [reflexivity|]. apply IH.
Qed.

Lemma amplitude_bounds_note (std_hash : R -> Z) (o : Oscillator) :
  forall f t, Rabs (Oscillator_note std_hash o f t) <= amplitude o.
Proof.
  induction o as [o Ho | l IH] using Oscillator_induction.
  - intros f t. destruct o; try contradiction;
      cbn [Oscillator_note amplitude].
    + apply Rabs_le, sineWave_range.
    + apply Rabs_le, triangularWave_range.
    + apply Rabs_le, squareWave_range.
    + apply Rabs_le, sawWave_range.
    + apply Rabs_le, noise_range.
    + apply Rabs_le, rectangularWave_range.
    + apply Rabs_le, copysign1_range.
    + eapply Rle_trans; [apply sawSumLoop_bound; lia|].
      rewrite Rabs_pos_eq by lra. lra.
  - intros f t. rewrite note_compound, amplitude_compound.
    assert (G : forall r,
      Rabs (fold_left
              (fun result h =>
                 result + gain h * Oscillator_note std_hash (oscillator h)
                                     (harmonic h * f) t) l r)
      <= Rabs r
         + fold_right
             (fun h acc => Rabs (gain h) * amplitude (oscillator h) + acc)
             0 l).
    { induction IH as [|h tl Hh _ IHl]; intros r; simpl; [lra|].
      eapply Rle_trans; [apply IHl|].
      set (s := Oscillator_note std_hash (oscillator h) (harmonic h * f) t).
      pose proof (Rabs_triang r (gain h * s)) as Htri.
      rewrite Rabs_mult in Htri.
      pose proof (Hh (harmonic h * f) t) as Hs. fold s in Hs.
      pose proof (Rabs_pos (gain h)).
      assert (Rabs (gain h) * Rabs s
              <= Rabs (gain h) * amplitude (oscillator h))
        by (apply Rmult_le_compat_l; assumption).
      lra. }
    eapply Rle_trans; [apply G|].
    rewrite Rabs_pos_eq by lra. lra.
Qed.

(** C3, as stated, fails: a compound oscillator with the single member
    (gain 2, square wave, harmonic 1) returns 2 at frequency 1 and time 0,
    outside [-1, 1]. *)
Lemma compound_sample_outside_unit_interval :
  Oscillator_note (fun _ => 0%Z)
    (CompoundOscillator [mkOscillatorHolder 2 makeSquareWaveOscillator 1]) 1 0
  = 2
  /\ ~ (-1 <= 2 <= 1).
Proof.
  split; [|lra].
  simpl. unfold squareWave, copysign1.
  replace (1 * 1 * M_TWOPI * 0) with 0 by lra. rewrite sin_0.
  destruct (Rlt_dec 0 0); lra.
Qed.

(** C3 (amended): for every frequency and time the sine, triangle, square,
    saw, noise and rectangular (any duty) oscillators return a sample in
    [-1, 1]; a compound oscillator returns the gain-weighted sum of its
    members' samples, whose magnitude is at most the sum of |gain| times the
    member's own bound ([amplitude]), and so lies in [-1, 1] when that sum
    is at most 1. *)
Theorem oscillator_sample_range (std_hash : R -> Z) (f t : R) :
  -1 <= Oscillator_note std_hash SineWaveOscillator f t <= 1
  /\ -1 <= Oscillator_note std_hash TriangularWaveOscillator f t <= 1
  /\ -1 <= Oscillator_note std_hash SquareWaveOscillator f t <= 1
  /\ -1 <= Oscillator_note std_hash SawWaveOscillator f t <= 1
  /\ -1 <= Oscillator_note std_hash NoiseOscillator f t <= 1
  /\ (forall duty,
        -1 <= Oscillator_note std_hash (RectangularWaveOscillator duty) f t <= 1)
  /\ (forall oscillators,
        Oscillator_note std_hash (CompoundOscillator oscillators) f t
        = fold_left
            (fun result h =>
               result + gain h * Oscillator_note std_hash (oscillator h)
                                   (harmonic h * f) t)
            oscillators 0
        /\ - amplitude (CompoundOscillator oscillators)
           <= Oscillator_note std_hash (CompoundOscillator oscillators) f t
           <= amplitude (CompoundOscillator oscillators)
        /\ amplitude (CompoundOscillator oscillators)
           = fold_right
               (fun h acc => Rabs (gain h) * amplitude (oscillator h) + acc)
               0 oscillators
        /\ (amplitude (CompoundOscillator oscillators) <= 1 ->
            -1 <= Oscillator_note std_hash (CompoundOscillator oscillators) f t
               <= 1)).
Proof.
  split; [apply sineWave_range|].
  split; [apply triangularWave_range|].
  split; [apply squareWave_range|].
  split; [apply sawWave_range|].
  split; [apply noise_range|].
  split; [intros duty; apply rectangularWave_range|].
  intros l.
  pose proof (amplitude_bounds_note std_hash (CompoundOscillator l) f t) as B.
  apply Rabs_le_interval in B.
  split; [|split; [|split]].
  - rewrite note_compound. f_equal. lra.
  - exact B.
  - apply amplitude_compound.
  - intros H1. lra.
Qed.

(** A compound within the unit bound: half a sine plus half a square. *)
Lemma oscillator_sample_range_witness :
  -1 <= Oscillator_note (fun _ => 0%Z)
          (CompoundOscillator
             [mkOscillatorHolder (1 / 2) makeSineWaveOscillator 1;
              mkOscillatorHolder (1 / 2) makeSquareWaveOscillator 2]) 440 1
     <= 1.
Proof.
  apply (oscillator_sample_range (fun _ => 0%Z) 440 1).
  simpl. rewrite Rabs_pos_eq by lra. lra.
Defined.

(** ** Voices *)

(** The bound given to the loops of [Voice::play], the number of notes, is
    enough: the first loop stops at the end of the notes or at a note that
    has not passed, the second at the end or at a note that has not
    started. *)
Lemma skipPassed_stops (todo : nat) (l : list Note) (i : nat) (time : R) :
  (List.length l - i <= todo)%nat ->
  let j := skipPassed todo l i time in
  (i <= j)%nat
  /\ match nth_error l j with
     | Some n => after n time = false
     | None => True
     end.
Proof.
  revert i. induction todo as [|todo IH]; intros i Hf; cbn [skipPassed].
  - split; [lia|].
    destruct (nth_error l i) eqn:E; [|exact I].
    assert (i < List.length l)%nat
      by (apply nth_error_Some; congruence).
    lia.
  - destruct (nth_error l i) as [n|] eqn:E.
    + destruct (after n time) eqn:Ea.
      * destruct (IH (S i)) as [Hle Hj]; [lia|]. split; [lia|exact Hj].
      * split; [lia|]. now rewrite E.
    + split; [lia|]. now rewrite E.
Qed.

Lemma activateStarted_stops (todo : nat) (l : list Note) (i : nat)
      (active : list nat) (time : R) :
  (List.length l - i <= todo)%nat ->
  let j := fst (activateStarted todo l i active time) in
  (i <= j)%nat
  /\ match nth_error l j with
     | Some n => before n time = true
     | None => True
     end.
Proof.
  revert i active.
  induction todo as [|todo IH]; intros i active Hf; cbn [activateStarted].
  - split; [cbn; lia|]. cbn [fst].
    destruct (nth_error l i) eqn:E; [|exact I].
    assert (i < List.length l)%nat
      by (apply nth_error_Some; congruence).
    lia.
  - destruct (nth_error l i) as [n|] eqn:E.
    + destruct (before n time) eqn:Eb.
      * cbn [fst]. split; [lia|]. now rewrite E.
      * destruct (IH (S i) (active ++ [i])) as [Hle Hj]; [lia|].
        split; [lia|exact Hj].
    + cbn [fst]. split; [lia|]. now rewrite E.
Qed.

(** ** The Venue *)

Section VenueProperties.

Variable std_hash : R -> Z.
Variable Hollaback : Type.
Variable call : Hollaback -> Venue Hollaback -> Venue Hollaback.

(** C9: with the stop flag set, a call of [getSample] on channel 0 empties
    the queue, clears the flag, sets [internalTime] to -1 and calls the
    callback when one is installed; it then runs the per-sample logic
    ([playSample]) on the resulting state instead of returning.  Without a
    callback that logic finds the queue empty and returns 0; when the
    callback has queued an unfinished song and left the clock alone, the
    sample returned by this same call is that song played at time 0. *)
Theorem getSample_stop_requested
        (v : Venue Hollaback) (globalTime timeDelta : R) :
  stopPlaying v = true ->
  let cleared := mkVenue [] false (looping v) (-1) (hollaback v) in
  let told :=
    match hollaback v with
    | Some f => call f cleared
    | None => cleared
    end in
  getSample std_hash call 0 globalTime timeDelta v
  = playSample std_hash call timeDelta told
  /\ (hollaback v = None ->
      getSample std_hash call 0 globalTime timeDelta v
      = (0, cleared))
  /\ (forall song rest,
        program told = song :: rest ->
        Maestro_finished song = false ->
        internalTime told = -1 ->
        getSample std_hash call 0 globalTime timeDelta v
        = (fst (Maestro_play std_hash song 0),
           mkVenue
                   (snd (Maestro_play std_hash song 0) :: rest)
                   (stopPlaying told) (looping told) 0 (hollaback told))).
Proof.
  intros Hstop cleared told.
  assert (E : stopBlock call v = told).
  { unfold stopBlock, tellSomeone. rewrite Hstop. cbn [hollaback].
    unfold told, cleared.
    replace (-1.0) with (-1) by lra. reflexivity. }
  assert (G : getSample std_hash call 0 globalTime timeDelta v
              = playSample std_hash call timeDelta told).
  { unfold getSample. cbn [Z.eqb negb]. now rewrite E. }
  split; [exact G|]. split.
  - intros Hnone. rewrite G. unfold told. rewrite Hnone.
    unfold playSample, cleared. cbn [program].
    f_equal. lra.
  - intros song rest Hprog Hfin Htime. rewrite G.
    unfold playSample. rewrite Hprog, Hfin. rewrite Hprog.
    rewrite Htime.
    destruct (Req_dec_T (-1.0) (-1)) as [_|N]; [|exfalso; lra].
    replace 0.0 with 0 by lra. rewrite Hprog.
    destruct (Maestro_play std_hash song 0) as [sample front'].
    reflexivity.
Qed.

(** C10: [getSample] does not read [globalTime]: from the same Venue, with
    the same channel and time step, two calls with different global times
    return the same sample and leave the same state; and so do two runs of
    any number of calls on channel 0 that differ only in the global times
    they pass. *)
Theorem getSample_ignores_globalTime
        (v : Venue Hollaback) (unused : Z)
        (globalTime1 globalTime2 timeDelta : R) :
  getSample std_hash call unused globalTime1 timeDelta v
  = getSample std_hash call unused globalTime2 timeDelta v
  /\ forall (count k : nat) (globalTimeOf1 globalTimeOf2 : nat -> R)
            (v' : Venue Hollaback),
      getSamples std_hash call count k globalTimeOf1 timeDelta v'
      = getSamples std_hash call count k globalTimeOf2 timeDelta v'.
Proof.
  split; [reflexivity|].
  induction count as [|count IH]; intros k g1 g2 v'; [reflexivity|].
  cbn [getSamples].
  change (getSample std_hash call 0 (g2 k) timeDelta v')
    with (getSample std_hash call 0 (g1 k) timeDelta v').
  destruct (getSample std_hash call 0 (g1 k) timeDelta v') as [sample v1].
  now rewrite (IH (S k) g1 g2 v1).
Qed.

End VenueProperties.

(** ** The string processor *)

Lemma get_Some_lt (s : string) (n : nat) (c : ascii) :
  String.get n s = Some c -> (n < String.length s)%nat.
Proof.
  revert n; induction s as [|a s IH]; intros [|n] H; simpl in *;
    try discriminate; try lia.
  apply IH in H. lia.
Qed.

Lemma getNextCharLoop_advances (fuel : nat) (inp : string) (loc : nat)
      (c : ascii) (loc' : nat) :
  getNextCharLoop fuel inp loc = Ok (c, loc') ->
  (loc < loc' <= String.length inp)%nat.
Proof.
  revert loc; induction fuel as [|fuel IH]; intros loc;
    cbn [getNextCharLoop]; cbv zeta; [discriminate|].
  destruct (Nat.eqb_spec (S loc) (String.length inp)) as [E|NE].
  - intros H. injection H as _ <-. lia.
  - destruct (String.get (S loc) inp) as [ch|] eqn:G; [|discriminate].
    apply get_Some_lt in G.
    destruct (isspace ch).
    + intros H. apply IH in H. lia.
    + intros H. injection H as _ <-. lia.
Qed.

Lemma getNextCharLoop_fuel (fuel : nat) (inp : string) (loc : nat) :
  (String.length inp - loc <= fuel)%nat -> (1 <= fuel)%nat ->
  getNextCharLoop fuel inp loc <> OutOfFuel.
Proof.
  revert loc; induction fuel as [|fuel IH]; intros loc Hf H1; [lia|].
  cbn [getNextCharLoop]; cbv zeta.
  destruct (Nat.eqb_spec (S loc) (String.length inp)) as [E|NE];
    [discriminate|].
  destruct (String.get (S loc) inp) as [ch|] eqn:G; [|discriminate].
  apply get_Some_lt in G.
  destruct (isspace ch); [|discriminate].
  apply IH; lia.
Qed.

(** ** Reasoning about parser code *)

Lemma post_ret {A : Type} (a : A) sp (Q : A -> StringProcessor -> Prop) :
  Q a sp -> post (ret a) sp Q.
Proof. exact (fun H => H). Qed.

Lemma post_throw {A : Type} (w : string) sp
      (Q : A -> StringProcessor -> Prop) :
  post (throw w) sp Q.
Proof. exact I. Qed.

Lemma post_undefined {A : Type} sp (Q : A -> StringProcessor -> Prop) :
  post undefined sp Q.
Proof. exact I. Qed.

Lemma post_bind {A B : Type} (m : M A) (k : A -> M B) sp
      (Q : B -> StringProcessor -> Prop) :
  post m sp (fun a sp' => post (k a) sp' Q) -> post (mbind m k) sp Q.
Proof.
  unfold post, mbind. destruct (m sp) as [[a sp']| | |]; auto.
Qed.

Lemma post_weaken {A : Type} (m : M A) sp
      (Q Q' : A -> StringProcessor -> Prop) :
  (forall a sp', Q a sp' -> Q' a sp') -> post m sp Q -> post m sp Q'.
Proof.
  unfold post. intros H. destruct (m sp) as [[a sp']| | |]; auto.
Qed.

Lemma post_ok {A : Type} (m : M A) sp (Q : A -> StringProcessor -> Prop)
      (a : A) sp' :
  post m sp Q -> m sp = Ok (a, sp') -> Q a sp'.
Proof. unfold post. intros H E. now rewrite E in H. Qed.

Lemma post_fuel {A : Type} (m : M A) sp (Q : A -> StringProcessor -> Prop) :
  post m sp Q -> m sp <> OutOfFuel.
Proof. unfold post. intros H E. now rewrite E in H. Qed.

Lemma post_peek sp (Q : ascii -> StringProcessor -> Prop) :
  Q (peeked sp) sp -> post peek sp Q.
Proof. exact (fun H => H). Qed.

Lemma ahead_refl sp : ahead sp sp.
Proof. split; auto. Qed.

Lemma ahead_trans sp1 sp2 sp3 : ahead sp1 sp2 -> ahead sp2 sp3 -> ahead sp1 sp3.
Proof. unfold ahead. intros [E1 L1] [E2 L2]. split; [congruence|lia]. Qed.

Lemma strictlyAhead_ahead sp sp' : strictlyAhead sp sp' -> ahead sp sp'.
Proof. unfold strictlyAhead, ahead. intros [E L]. split; [auto|lia]. Qed.

Lemma strictly_then_ahead sp1 sp2 sp3 :
  strictlyAhead sp1 sp2 -> ahead sp2 sp3 -> strictlyAhead sp1 sp3.
Proof.
  unfold strictlyAhead, ahead. intros [E1 L1] [E2 L2].
  split; [congruence|lia].
Qed.

Lemma post_consume sp (Q : ascii -> StringProcessor -> Prop) :
  (forall sp', strictlyAhead sp sp' -> Q (peeked sp) sp') ->
  post consume sp Q.
Proof.
  intros H. unfold post, consume, getNextChar.
  destruct (getNextCharLoop (fuelOf sp) (input sp) (location sp))
    as [[c loc']| | |] eqn:E; auto.
  - apply H. apply getNextCharLoop_advances in E.
    split; unfold remaining; simpl; [reflexivity|lia].
  - revert E. apply getNextCharLoop_fuel; unfold fuelOf; lia.
Qed.

Lemma post_isDone sp (Q : bool -> StringProcessor -> Prop) :
  Q (done sp) sp -> post isDone sp Q.
Proof. exact (fun H => H). Qed.

Lemma post_loopFuel sp (Q : nat -> StringProcessor -> Prop) :
  Q (fuelOf sp) sp -> post loopFuel sp Q.
Proof. exact (fun H => H). Qed.

Lemma fuelOf_enough sp sp' : ahead sp sp' -> (remaining sp' < fuelOf sp)%nat.
Proof. unfold ahead, remaining, fuelOf. intros [E L]. lia. Qed.

(** One step through parser code. *)
Ltac pstep :=
  cbv beta;
  lazymatch goal with
  | |- post (mbind _ _) _ _ => apply post_bind
  | |- post peek _ _ => apply post_peek
  | |- post isDone _ _ => apply post_isDone
  | |- post loopFuel _ _ => apply post_loopFuel
  | |- post consume _ _ => apply post_consume; intros ? ?
  | |- post (ret _) _ _ => apply post_ret
  | |- post (throw _) _ _ => apply post_throw
  | |- post undefined _ _ => apply post_undefined
  | |- post (if ?b then _ else _) _ _ => destruct b eqn:?
  | |- post (match ?x with _ => _ end) _ _ => destruct x eqn:?
  | |- post (let _ := _ in _) _ _ => cbv zeta
  end.

(** Close a goal about positions from the facts collected on the way. *)
Ltac positions :=
  unfold strictlyAhead, ahead in *;
  repeat match goal with H : _ /\ _ |- _ => destruct H end;
  repeat split; try congruence; try lia.

Lemma isdigit_value (c : ascii) :
  isdigit c = true -> (0 <= charValue c - charValue "0" <= 9)%Z.
Proof.
  change (charValue "0") with 48%Z.
  unfold isdigit, charValue. intros H.
  apply andb_true_iff in H as [H1 H2].
  apply Nat.leb_le in H1, H2. lia.
Qed.

Lemma getNumberLoop_post (fuel : nat) :
  forall (number : Z) (firstChar : bool) sp
         (Q : Z -> StringProcessor -> Prop),
    (remaining sp < fuel)%nat -> (0 <= number)%Z ->
    (forall n sp',
        (if firstChar then strictlyAhead sp sp' else ahead sp sp') ->
        (0 <= n)%Z -> Q n sp') ->
    post (getNumberLoop fuel number firstChar) sp Q.
Proof.
  induction fuel as [|fuel IH]; intros number firstChar sp Q Hf Hn HQ;
    [lia|].
  cbn [getNumberLoop]. do 3 pstep.
  - do 3 pstep. unfold int. pstep; [|pstep].
    pstep. pose proof (isdigit_value _ Heqb).
    apply IH; [positions | lia |].
    intros n spn Ha Hn'. apply HQ; [|assumption].
    destruct firstChar.
    + eapply strictly_then_ahead; eassumption.
    + eapply ahead_trans; [apply strictlyAhead_ahead; eassumption|assumption].
  - do 2 pstep. apply HQ; [apply ahead_refl|assumption].
Qed.

(** A number that is read takes at least one character. *)
Lemma post_getNumber sp (Q : Z -> StringProcessor -> Prop) :
  (forall n sp', strictlyAhead sp sp' -> (0 <= n)%Z -> Q n sp') ->
  post getNumber sp Q.
Proof.
  intros HQ. unfold getNumber. do 2 pstep.
  apply getNumberLoop_post; [apply fuelOf_enough, ahead_refl | lia | exact HQ].
Qed.

Lemma dotsLoop_post (fuel : nat) :
  forall (tempLength nextDot : R) sp (Q : R -> StringProcessor -> Prop),
    (remaining sp < fuel)%nat -> 0 < tempLength -> 0 < nextDot ->
    (forall total sp', ahead sp sp' -> 0 < total -> Q total sp') ->
    post (dotsLoop fuel tempLength nextDot) sp Q.
Proof.
  induction fuel as [|fuel IH]; intros tempLength nextDot sp Q Hf Hl Hd HQ;
    [lia|].
  cbn [dotsLoop]. do 3 pstep.
  - do 2 pstep. apply IH; [positions | lra | lra |].
    intros total spn Ha Ht. apply HQ; [|assumption].
    eapply ahead_trans; [apply strictlyAhead_ahead; eassumption|assumption].
  - pstep. apply HQ; [apply ahead_refl|assumption].
Qed.

(** A positive length in seconds from a positive count of beats. *)
Lemma seconds_positive (n : Z) : (0 < n)%Z -> 0 < 240.0 / IZR n.
Proof.
  intros H. apply IZR_lt in H.
  apply Rmult_lt_0_compat; [lra|]. now apply Rinv_0_lt_compat.
Qed.

Lemma modifiersLoop_post (fuel : nat) (tempo : Z) :
  (0 < tempo)%Z ->
  forall (nt : NoteTemp) sp (Q : NoteTemp -> StringProcessor -> Prop),
    (remaining sp < fuel)%nat -> NoteTempOk nt ->
    (forall nt' sp', ahead sp sp' -> NoteTempOk nt' -> Q nt' sp') ->
    post (modifiersLoop fuel tempo nt) sp Q.
Proof.
  intros Htempo.
  induction fuel as [|fuel IH]; intros nt sp Q Hf [Hl [Hd Hn]] HQ; [lia|].
  assert (Hnext : forall nt' sp1,
             ahead sp sp1 -> (remaining sp1 < fuel)%nat -> NoteTempOk nt' ->
             post (modifiersLoop fuel tempo nt') sp1 Q).
  { intros nt' sp1 Ha Hr Hok. apply IH; [assumption|assumption|].
    intros nt'' spn Ha' Hok'. apply HQ; [|assumption].
    eapply ahead_trans; eassumption. }
  unfold totalNotes, notesPerOctave, octavesImplemented in Hn.
  cbn [modifiersLoop]. do 3 pstep; [|pstep; [|pstep; [|pstep; [|pstep;
    [|pstep; [|pstep; [|pstep]]]]]]].
  - (* sharp *)
    do 2 pstep. pstep; [pstep|].
    apply Z.eqb_neq in Heqb0.
    unfold totalNotes, notesPerOctave, octavesImplemented in Heqb0.
    apply Hnext; [positions | positions |].
    repeat split; cbn [tempLength nextDot note]; try assumption;
      unfold totalNotes, notesPerOctave, octavesImplemented; lia.
  - (* flat *)
    do 2 pstep. pstep; [pstep|].
    apply Z.eqb_neq in Heqb1.
    apply Hnext; [positions | positions |].
    repeat split; cbn [tempLength nextDot note]; try assumption;
      unfold totalNotes, notesPerOctave, octavesImplemented; lia.
  - (* dot *)
    do 2 pstep.
    apply Hnext; [positions | positions |].
    repeat split; cbn [tempLength nextDot note]; try lra;
      unfold totalNotes, notesPerOctave, octavesImplemented; lia.
  - (* explicit length *)
    pstep. apply post_getNumber. intros length sp1 Ha Hlen.
    pstep; [pstep|].
    apply orb_false_iff in Heqb3 as [G1 G2].
    apply Z.ltb_ge in G1, G2.
    assert (0 < 240.0 / IZR (length * tempo)) by (apply seconds_positive; nia).
    apply Hnext; [positions | positions |].
    repeat split; cbn [tempLength nextDot note]; try lra;
        unfold totalNotes, notesPerOctave, octavesImplemented; lia.
  - do 2 pstep.
    apply Hnext; [positions | positions |].
    repeat split; cbn [tempLength nextDot note]; try lra;
      unfold totalNotes, notesPerOctave, octavesImplemented; lia.
  - do 2 pstep.
    apply Hnext; [positions | positions |].
    repeat split; cbn [tempLength nextDot note]; try lra;
      unfold totalNotes, notesPerOctave, octavesImplemented; lia.
  - do 2 pstep.
    apply Hnext; [positions | positions |].
    repeat split; cbn [tempLength nextDot note]; try lra;
      unfold totalNotes, notesPerOctave, octavesImplemented; lia.
  - do 3 pstep.
    apply HQ; [positions|].
    repeat split; cbn [tempLength nextDot note]; try lra;
      unfold totalNotes, notesPerOctave, octavesImplemented; lia.
  - apply HQ; [apply ahead_refl|].
    repeat split; cbn [tempLength nextDot note]; try lra;
      unfold totalNotes, notesPerOctave, octavesImplemented; lia.
Qed.

(** ** The parser's invariant *)

Lemma sorted_snoc (l : list Note) (n : Note) :
  StronglySorted byStartTime l ->
  Forall (fun m => startTime m <= startTime n) l ->
  StronglySorted byStartTime (l ++ [n]).
Proof.
  induction 1 as [|a l Hs IH Ha]; intros Hall; simpl.
  - constructor; constructor.
  - inversion Hall as [|? ? Han Hln]; subst.
    constructor; [apply IH; assumption|].
    apply Forall_app. split; [assumption|].
    constructor; [exact Han|constructor].
Qed.

Lemma startsBy_later (l : list Note) (t t' : R) :
  t <= t' ->
  Forall (fun n => startTime n <= t) l -> Forall (fun n => startTime n <= t') l.
Proof.
  intros Ht H. eapply Forall_impl; [|exact H]. simpl. intros; lra.
Qed.

Lemma PStateOk_noteLength (ps : PState) : PStateOk ps -> 0 < noteLength ps.
Proof.
  intros (_ & Hb & Ht & Hn & _). rewrite Hn. apply seconds_positive. nia.
Qed.

Lemma PStateOk_initial (i : Instrument) : PStateOk (initialPState i).
Proof.
  unfold PStateOk, initialPState, octavesImplemented. cbn.
  repeat split; try lia; constructor.
Qed.

Lemma PStateOk_advanceTime (ps : PState) (length : R) :
  PStateOk ps -> 0 <= length -> PStateOk (advanceTime ps length).
Proof.
  intros (Ho & Hb & Ht & Hn & Hs & Hc) Hl. unfold PStateOk, advanceTime. cbn.
  repeat split; try assumption; try lia.
  eapply startsBy_later; [|exact Hc]. lra.
Qed.

Lemma PStateOk_emplaceNote (ps : PState) (pitch duration volume : R) :
  PStateOk ps -> PStateOk (emplaceNote ps pitch duration volume).
Proof.
  intros (Ho & Hb & Ht & Hn & Hs & Hc). unfold PStateOk, emplaceNote. cbn.
  repeat split; try assumption; try lia.
  - apply sorted_snoc; assumption.
  - apply Forall_app. split; [assumption|].
    constructor; [cbn; lra|constructor].
Qed.

Lemma PStateOk_setOctave (ps : PState) (o : Z) :
  PStateOk ps -> (0 <= o < octavesImplemented)%Z -> PStateOk (setOctave ps o).
Proof.
  intros (Ho & Hb & Ht & Hn & Hs & Hc) H. unfold PStateOk, setOctave. cbn.
  repeat split; try assumption; try lia.
Qed.

Lemma PStateOk_setTempo (ps : PState) (t : Z) :
  PStateOk ps -> (16 <= t <= 256)%Z -> PStateOk (setTempo ps t).
Proof.
  intros (Ho & Hb & Ht & Hn & Hs & Hc) H. unfold PStateOk, setTempo. cbn.
  repeat split; try assumption; try lia.
Qed.

Lemma PStateOk_setBeatNote (ps : PState) (b : Z) :
  PStateOk ps -> (1 <= b <= 64)%Z -> PStateOk (setBeatNote ps b).
Proof.
  intros (Ho & Hb & Ht & Hn & Hs & Hc) H. unfold PStateOk, setBeatNote. cbn.
  repeat split; try assumption; try lia.
Qed.

Lemma PStateOk_setArticulation (ps : PState) (a : R) :
  PStateOk ps -> PStateOk (setArticulation ps a).
Proof. exact (fun H => H). Qed.

Lemma PStateOk_setVolume (ps : PState) (v : R) :
  PStateOk ps -> PStateOk (setVolume ps v).
Proof. exact (fun H => H). Qed.

Lemma PStateOk_setInstrument (ps : PState) (i : Instrument) :
  PStateOk ps -> PStateOk (setInstrument ps i).
Proof. exact (fun H => H). Qed.

(** Turn the outcomes of the integer tests into facts. *)
Ltac ztests :=
  repeat match goal with
         | H : (_ || _)%bool = false |- _ =>
             apply orb_false_iff in H; destruct H
         | H : (_ <? _)%Z = false |- _ => apply Z.ltb_ge in H
         | H : (_ <=? _)%Z = false |- _ => apply Z.leb_gt in H
         | H : (_ =? _)%Z = false |- _ => apply Z.eqb_neq in H
         | H : negb _ = false |- _ => apply negb_false_iff in H
         | H : negb _ = true |- _ => apply negb_true_iff in H
         | H : (_ =? _)%Z = true |- _ => apply Z.eqb_eq in H
         end.

(** Close the goal left when a command returns. *)
Ltac returned :=
  unfold commandPost;
  split; [| split; [positions | cbn; try lra]];
  ztests;
  try match goal with
      | H : PStateOk ?ps |- PStateOk (_ ?ps _) =>
          pose proof H as (? & ? & ? & ? & ? & ?)
      end;
  repeat first
    [ assumption
    | apply PStateOk_setArticulation
    | apply PStateOk_setVolume
    | apply PStateOk_setInstrument
    | apply PStateOk_setOctave; [|unfold octavesImplemented in *; lia]
    | apply PStateOk_setTempo; [|lia]
    | apply PStateOk_setBeatNote; [|lia] ].

Lemma musicCommand_post (ps : PState) sp :
  PStateOk ps -> post (musicCommand ps) sp (commandPost ps sp).
Proof.
  intros Hok. unfold musicCommand. repeat pstep; returned.
Qed.

Lemma volumeCommand_post (ps : PState) sp :
  PStateOk ps -> post (volumeCommand ps) sp (commandPost ps sp).
Proof.
  intros Hok. unfold volumeCommand, optionalSemicolon.
  repeat (pstep || (apply post_getNumber; intros ? ? ? ?)); returned.
Qed.

Lemma instrumentCommand_post (instruments : InstrumentMap) (ps : PState) sp :
  PStateOk ps ->
  post (instrumentCommand instruments ps) sp (commandPost ps sp).
Proof.
  intros Hok. unfold instrumentCommand.
  repeat (pstep || (apply post_getNumber; intros ? ? ? ?)); returned.
Qed.

Lemma post_pitchAt (pitches : list R) (i : Z) sp
      (Q : R -> StringProcessor -> Prop) :
  (forall f, nth_error pitches (Z.to_nat i) = Some f -> Q f sp) ->
  post (pitchAt pitches i) sp Q.
Proof.
  intros HQ. unfold pitchAt. repeat pstep. now apply HQ.
Qed.

Lemma rawNoteCommand_post (pitches : list R) (ps : PState) sp :
  PStateOk ps -> post (rawNoteCommand pitches ps) sp (commandPost ps sp).
Proof.
  intros Hok. pose proof (PStateOk_noteLength ps Hok) as Hlen.
  unfold rawNoteCommand.
  repeat (pstep || (apply post_getNumber; intros ? ? ? ?)
          || (apply post_pitchAt; intros ? ?)).
  - unfold commandPost. split; [|split; [positions|cbn; lra]].
    apply PStateOk_advanceTime; [|cbn; lra].
    now apply PStateOk_emplaceNote.
  - unfold commandPost. split; [|split; [positions|cbn; lra]].
    apply PStateOk_advanceTime; [assumption|lra].
Qed.

Lemma restCommand_post (ps : PState) sp :
  PStateOk ps -> post (restCommand ps) sp (commandPost ps sp).
Proof.
  intros Hok. pose proof (PStateOk_noteLength ps Hok) as Hlen.
  pose proof Hok as (Ho & Hb & Ht & Hn & Hs & Hc).
  unfold restCommand. do 5 pstep.
  assert (Hdots : forall tempLength spd,
             ahead sp' spd -> 0 < tempLength ->
             post (fuel <~ loopFuel ;;
                   total <~ dotsLoop fuel tempLength (tempLength * 0.5) ;;
                   ret (advanceTime ps total))%parser spd (commandPost ps sp)).
  { intros tempLength spd Ha Hl. do 3 pstep.
    apply dotsLoop_post;
      [apply fuelOf_enough, ahead_refl | assumption | lra |].
    intros total spn Hn' Htot. pstep.
    unfold commandPost. split; [|split; [positions|cbn; lra]].
    apply PStateOk_advanceTime; [assumption|lra]. }
  pstep.
  - pstep. apply post_getNumber. intros length spn Hs' Hlen'. pstep; [pstep|].
    ztests. pstep. apply Hdots; [positions|].
    apply seconds_positive. nia.
  - pstep. apply Hdots; [apply ahead_refl|assumption].
Qed.

Lemma semitone_range (letter : ascii) : (0 <= semitone letter <= 11)%Z.
Proof.
  unfold semitone.
  set (i := Z.to_nat (charValue letter - charValue "A")).
  do 7 (destruct i as [|i]; [cbn; lia|]).
  destruct i; cbn; lia.
Qed.

Lemma noteCommand_post (pitches : list R) (ps : PState) sp :
  PStateOk ps -> post (noteCommand pitches ps) sp (commandPost ps sp).
Proof.
  intros Hok. pose proof (PStateOk_noteLength ps Hok) as Hlen.
  pose proof Hok as (Ho & Hb & Ht & Hn & Hs & Hc).
  unfold noteCommand. do 5 pstep.
  apply modifiersLoop_post; [lia | apply fuelOf_enough, ahead_refl | |].
  { pose proof (semitone_range (peeked sp)).
    unfold NoteTempOk, totalNotes, notesPerOctave, octavesImplemented in *.
    cbn [tempLength nextDot note]. repeat split; try lra; lia. }
  intros nt spn Ha (Hl & Hd & Hnote).
  pstep. apply post_pitchAt. intros f Hf. pstep.
  unfold commandPost. split; [|split; [positions|]].
  - destruct (advance nt).
    + apply PStateOk_advanceTime; [|lra]. now apply PStateOk_emplaceNote.
    + now apply PStateOk_emplaceNote.
  - destruct (advance nt); cbn; lra.
Qed.

Lemma command_post (instruments : InstrumentMap) (pitches : list R)
      (ps : PState) sp :
  PStateOk ps ->
  post (command instruments pitches ps) sp (commandPost ps sp).
Proof.
  intros Hok. unfold command. do 2 pstep.
  pstep; [now apply noteCommand_post|].
  pstep; [solve [repeat pstep; returned]|].
  pstep; [solve [repeat pstep; returned]|].
  pstep; [solve [repeat (pstep || (apply post_getNumber; intros ? ? ? ?));
                 returned]|].
  pstep; [solve [repeat (pstep || (apply post_getNumber; intros ? ? ? ?));
                 returned]|].
  pstep; [solve [repeat (pstep || (apply post_getNumber; intros ? ? ? ?));
                 returned]|].
  pstep; [now apply rawNoteCommand_post|].
  pstep; [now apply restCommand_post|].
  pstep; [now apply musicCommand_post|].
  pstep; [now apply instrumentCommand_post|].
  pstep; [now apply volumeCommand_post|].
  pstep.
Qed.

(** The main loop, given fuel for what is left of the input, comes to an end;
    when it returns the invariant holds and the cursor has not moved back. *)
Lemma commandLoop_post (instruments : InstrumentMap) (pitches : list R)
      (fuel : nat) :
  forall (ps : PState) sp,
    (remaining sp < fuel)%nat -> PStateOk ps ->
    post (commandLoop fuel instruments pitches ps) sp
         (fun ps' sp' => PStateOk ps' /\ cursorTime ps <= cursorTime ps').
Proof.
  induction fuel as [|fuel IH]; intros ps sp Hf Hok; [lia|].
  cbn [commandLoop]. do 3 pstep.
  - pstep. split; [assumption|lra].
  - pstep. eapply post_weaken; [|apply command_post; assumption].
    intros ps' sp' (Hok' & Hs & Ht). cbv beta.
    eapply post_weaken; [|apply IH; [positions|assumption]].
    cbv beta. intros ps'' sp'' [Hok'' Ht']. split; [assumption|lra].
Qed.

Lemma newStringProcessor_fuel (text : string) :
  newStringProcessor text <> OutOfFuel
  /\ forall sp, newStringProcessor text = Ok sp -> input sp = text.
Proof.
  unfold newStringProcessor.
  destruct (String.get 0 text) as [c|]; [|split; [discriminate|]].
  - destruct (isspace (toupper c)); [|split; [discriminate|]].
    + pose proof (post_consume (mkStringProcessor text 0 NUL)
                    (fun _ sp' => input sp' = text)) as H.
      unfold post, consume in H.
      destruct (getNextChar (mkStringProcessor text 0 NUL))
        as [[c' sp']| | |]; try (split; discriminate).
      * split; [discriminate|]. intros sp E. injection E as <-.
        cbn in *. reflexivity.
      * exfalso. apply H. intros sp' [E _]. exact E.
    + intros sp E. now injection E as <-.
  - intros sp E. now injection E as <-.
Qed.

(** The parser does not run out of fuel: on every input it returns, throws
    or goes wrong, as the C++ loop does. *)
Lemma runParser_post (text : string) (instruments : InstrumentMap)
      (pitches : list R) :
  match runParser text instruments pitches with
  | Ok (ps, _) => PStateOk ps
  | Throw _ => True
  | Undefined => True
  | OutOfFuel => False
  end.
Proof.
  unfold runParser.
  destruct (negb _); [exact I|].
  destruct (instruments_find instruments NUL) as [i|]; [|exact I].
  destruct (newStringProcessor_fuel text) as [Hfuel Hinput].
  destruct (newStringProcessor text) as [sp| | |]; cbn [bind];
    try exact I; [|congruence].
  pose proof (commandLoop_post instruments pitches (fuelOf sp)
                (initialPState i) sp
                (fuelOf_enough sp sp (ahead_refl sp))
                (PStateOk_initial i)) as H.
  unfold post in H.
  destruct (commandLoop (fuelOf sp) instruments pitches (initialPState i) sp)
    as [[ps sp']| | |]; try exact I; [|exact H].
  apply H.
Qed.

Lemma buildVoiceFromString_terminates (text : string)
      (instruments : InstrumentMap) (pitches : list R) :
  buildVoiceFromString text instruments pitches <> OutOfFuel.
Proof.
  unfold buildVoiceFromString.
  pose proof (runParser_post text instruments pitches) as H.
  destruct (runParser text instruments pitches) as [[ps sp]| | |];
    cbn [bind]; try discriminate. contradiction.
Qed.

(** C8: on every input on which [buildVoiceFromString] succeeds, the notes
    of the Voice it returns are in non-decreasing order of start time. *)
Theorem buildVoiceFromString_sorted (text : string)
        (instruments : InstrumentMap) (pitches : list R) (voice : Voice) :
  buildVoiceFromString text instruments pitches = Ok voice ->
  StronglySorted (fun a b => startTime a <= startTime b) (notes voice).
Proof.
  unfold buildVoiceFromString. intros H.
  pose proof (runParser_post text instruments pitches) as Hok.
  destruct (runParser text instruments pitches) as [[ps sp]| | |];
    cbn [bind] in H; try discriminate.
  injection H as <-. cbn [notes newVoice].
  destruct Hok as (_ & _ & _ & _ & Hs & _). exact Hs.
Qed.

(** ** Unknown commands *)

Lemma commandLoop_unfold (instruments : InstrumentMap) (pitches : list R)
      (fuel : nat) (ps : PState) sp :
  commandLoop (S fuel) instruments pitches ps sp
  = if done sp then Ok (ps, sp)
    else match command instruments pitches ps sp with
         | Ok (ps', sp') => commandLoop fuel instruments pitches ps' sp'
         | Throw w => Throw w
         | Undefined => Undefined
         | OutOfFuel => OutOfFuel
         end.
Proof.
  cbn [commandLoop]. unfold mbind at 1, isDone.
  destruct (done sp); [reflexivity|]. unfold mbind at 1.
  destruct (command instruments pitches ps sp) as [[ps' sp']| | |];
    reflexivity.
Qed.

Lemma commandLoop_reaches (instruments : InstrumentMap) (pitches : list R)
      (s s' : PState * StringProcessor) :
  reaches instruments pitches s s' ->
  PStateOk (fst s) ->
  forall fuel,
    (remaining (snd s) < fuel)%nat ->
    exists fuel',
      (remaining (snd s') < fuel')%nat
      /\ commandLoop fuel instruments pitches (fst s) (snd s)
         = commandLoop fuel' instruments pitches (fst s') (snd s').
Proof.
  induction 1 as [s | ps sp ps' sp' s Hdone Hcmd Hreach IH];
    intros Hok fuel Hf.
  - exists fuel. split; [assumption|reflexivity].
  - cbn [fst snd] in *.
    destruct fuel as [|fuel]; [lia|].
    pose proof (post_ok _ _ _ _ _ (command_post instruments pitches ps sp Hok)
                        Hcmd) as (Hok' & Hs & _).
    destruct (IH Hok' fuel) as (fuel' & Hf' & E); [positions|].
    exists fuel'. split; [assumption|].
    rewrite commandLoop_unfold, Hdone, Hcmd. exact E.
Qed.

Lemma command_unknown (instruments : InstrumentMap) (pitches : list R)
      (ps : PState) sp :
  isCommand (peeked sp) = false ->
  command instruments pitches ps sp = Throw (unknownCommand (peeked sp)).
Proof.
  unfold isCommand. intros H.
  repeat (apply orb_false_iff in H; destruct H as [H ?]).
  unfold command, mbind at 1, peek.
  repeat match goal with
         | E : ?b = false |- context [if ?b then _ else _] => rewrite E
         end.
  assert (E : ((peeked sp =? "P") || (peeked sp =? "R"))%char = false)
    by (apply orb_false_iff; split; assumption).
  rewrite E.
  repeat match goal with
         | E : ?b = false |- context [if ?b then _ else _] => rewrite E
         end.
  reflexivity.
Qed.

Lemma buildChoir_throws (instruments : InstrumentMap) (line : string)
      (after : list string) (w : string) :
  buildVoiceFromString line instruments getStandardTwelveToneEqualNotes
  = Throw w ->
  forall (before : list string) (choir : list Voice),
    Forall (fun l => exists voice,
                buildVoiceFromString l instruments
                                     getStandardTwelveToneEqualNotes
                = Ok voice) before ->
    buildChoir (before ++ line :: after) instruments choir = Throw w.
Proof.
  intros Hline before.
  induction before as [|l before IH]; intros choir Hall.
  - cbn [app buildChoir]. now rewrite Hline.
  - inversion Hall as [|? ? [voice Hv] Hrest]; subst.
    cbn [app buildChoir]. rewrite Hv. cbn [bind]. now apply IH.
Qed.

(** C4, as stated, fails: the line "IZ" holds a [Z], which is no command
    of the parser, yet [buildVoiceFromString] throws the instrument
    command's own "Invalid instrument.", a message in which no [Z]
    occurs. *)
Lemma instrument_error_does_not_name_the_character :
  isCommand "Z" = false
  /\ buildVoiceFromString "IZ" getDefaultInstrument
                          getStandardTwelveToneEqualNotes
     = Throw "Invalid instrument."
  /\ mentions "Z" "Invalid instrument." = false.
Proof. repeat split; reflexivity. Qed.

(** C4 (amended): when the main loop of the parser, after any number of
    commands that parsed, is before the end of the line at a character [c]
    that none of its cases recognises, [buildVoiceFromString] throws
    "Did not understand command component 'c'." and returns no Voice; the
    Maestro constructor given that line (after lines that parse) throws the
    same and no Maestro exists; and [queueMusic] leaves the Venue, its queue
    included, exactly as it was. *)
Theorem unknown_command_is_rejected
        (Hollaback : Type) (line : string) (instruments : InstrumentMap)
        (instrument : Instrument) (sp0 : StringProcessor)
        (ps : PState) (sp : StringProcessor) :
  instruments_find instruments NUL = Some instrument ->
  newStringProcessor line = Ok sp0 ->
  reaches instruments getStandardTwelveToneEqualNotes
          (initialPState instrument, sp0) (ps, sp) ->
  done sp = false ->
  isCommand (peeked sp) = false ->
  let what :=
    String.append "Did not understand command component '"
                  (String (peeked sp) "'.") in
  buildVoiceFromString line instruments getStandardTwelveToneEqualNotes
  = Throw what
  /\ forall (before after : list string) (v : Venue Hollaback),
      Forall (fun l => exists voice,
                  buildVoiceFromString l instruments
                                       getStandardTwelveToneEqualNotes
                  = Ok voice) before ->
      newMaestro (before ++ line :: after) instruments = Throw what
      /\ queueMusic (before ++ line :: after) instruments v = (Throw what, v).
Proof.
  intros Hdefault Hsp0 Hreach Hdone Hunknown what.
  assert (Hline : buildVoiceFromString line instruments
                    getStandardTwelveToneEqualNotes = Throw what).
  { unfold buildVoiceFromString, runParser.
    rewrite generateTwelveToneEqual_length' , Hdefault, Hsp0. cbn [bind].
    destruct (commandLoop_reaches _ _ _ _ Hreach (PStateOk_initial instrument)
                (fuelOf sp0) (fuelOf_enough sp0 sp0 (ahead_refl sp0)))
      as (fuel' & Hf' & E).
    cbn [fst snd] in *. rewrite E.
    destruct fuel' as [|fuel']; [lia|].
    rewrite commandLoop_unfold, Hdone, command_unknown by assumption.
    reflexivity. }
  split; [exact Hline|].
  intros before after v Hall.
  assert (Hm : newMaestro (before ++ line :: after) instruments = Throw what).
  { unfold newMaestro.
    now rewrite (buildChoir_throws instruments line after what Hline). }
  split; [exact Hm|].
  unfold queueMusic. now rewrite Hm.
Qed.

(** ** Single commands and whole lines *)



(** C6: the line "C,E,G" with the default parser state yields exactly
    three notes, all starting at time 0; the cursor is still at 0 after
    "C," and after "C,E," (where the notes emitted are the first one and
    the first two), and ends at 0 plus the length computed for G, the
    quarter note 240/(4*120). *)
Theorem chord_C_E_G :
  exists c e g ps sp,
    runParser "C,E,G" getDefaultInstrument getStandardTwelveToneEqualNotes
    = Ok (ps, sp)
    /\ emitted ps = [c; e; g]
    /\ buildVoiceFromString "C,E,G" getDefaultInstrument
                            getStandardTwelveToneEqualNotes
       = Ok (newVoice [c; e; g])
    /\ startTime c = 0 /\ startTime e = 0 /\ startTime g = 0
    /\ cursorTime ps = 0 + 240 / (4 * 120)
    /\ duration g = 240 / (4 * 120) * (7 / 8)
    /\ (exists ps1 sp1,
          runParser "C," getDefaultInstrument getStandardTwelveToneEqualNotes
          = Ok (ps1, sp1)
          /\ emitted ps1 = [c] /\ cursorTime ps1 = 0)
    /\ (exists ps2 sp2,
          runParser "C,E," getDefaultInstrument getStandardTwelveToneEqualNotes
          = Ok (ps2, sp2)
          /\ emitted ps2 = [c; e] /\ cursorTime ps2 = 0).
Proof.
  do 5 eexists.
  split; [run; reflexivity|].
  split; [reflexivity|].
  split; [run; reflexivity|].
  repeat (split; [cbn; lra|]).
  split.
  - do 2 eexists. split; [run; reflexivity|].
    split; [reflexivity|cbn; lra].
  - do 2 eexists. split; [run; reflexivity|].
    split; [reflexivity|cbn; lra].
Qed.

(** C7: the line "C4.." with the default tempo 120 and articulation 7/8
    yields exactly one note, starting at 0, whose duration is
    (1/4 + 1/8 + 1/16) of a whole note (240/120 seconds at this tempo)
    times 7/8: the explicit length 240/(4*120), plus half of it, plus half
    of that half. *)
Theorem dotted_C4 :
  exists n,
    buildVoiceFromString "C4.." getDefaultInstrument
                         getStandardTwelveToneEqualNotes
    = Ok (newVoice [n])
    /\ startTime n = 0
    /\ duration n = (1 / 4 + 1 / 8 + 1 / 16) * (240 / 120) * (7 / 8)
    /\ duration n
       = (240 / (4 * 120) + 240 / (4 * 120) / 2 + 240 / (4 * 120) / 2 / 2)
         * (7 / 8).
Proof.
  eexists. split; [run; reflexivity|].
  repeat split; cbn; lra.
Qed.

(** ** Instances *)

(** The line "C#Z": after the note C sharp has been parsed the processor is
    at the Z, and the line is rejected with a message quoting it. *)
Lemma unknown_command_is_rejected_witness :
  reaches getDefaultInstrument getStandardTwelveToneEqualNotes
          (initialPState makeSquareWaveInstrument,
           mkStringProcessor "C#Z" 0 "C")
          afterCSharp
  /\ buildVoiceFromString "C#Z" getDefaultInstrument
                          getStandardTwelveToneEqualNotes
     = Throw "Did not understand command component 'Z'."
  /\ queueMusic ["C#Z"%string] getDefaultInstrument
                (queueSong (mkMaestro []) (@newVenue unit))
     = (Throw "Did not understand command component 'Z'.",
        queueSong (mkMaestro []) (@newVenue unit)).
Proof.
  assert (Hreach : reaches getDefaultInstrument getStandardTwelveToneEqualNotes
                     (initialPState makeSquareWaveInstrument,
                      mkStringProcessor "C#Z" 0 "C")
                     afterCSharp).
  { eapply reaches_step; [reflexivity | run; reflexivity | apply reaches_here]. }
  split; [exact Hreach|].
  destruct (unknown_command_is_rejected unit "C#Z" getDefaultInstrument
              makeSquareWaveInstrument (mkStringProcessor "C#Z" 0 "C")
              (fst afterCSharp) (snd afterCSharp)
              eq_refl eq_refl Hreach eq_refl eq_refl) as [Hline Hqueue].
  split; [exact Hline|].
  exact (proj2 (Hqueue [] [] (queueSong (mkMaestro []) newVenue)
                       (Forall_nil _))).
Defined.


(** The chord "C,E,G" parses, and its three notes are in order. *)
Lemma buildVoiceFromString_sorted_witness :
  exists voice,
    buildVoiceFromString "C,E,G" getDefaultInstrument
                         getStandardTwelveToneEqualNotes
    = Ok voice
    /\ List.length (notes voice) = 3%nat
    /\ StronglySorted (fun a b => startTime a <= startTime b) (notes voice).
Proof.
  eexists. split; [run; reflexivity|]. split; [reflexivity|].
  apply (buildVoiceFromString_sorted "C,E,G" getDefaultInstrument
           getStandardTwelveToneEqualNotes).
  run. reflexivity.
Defined.

(** A stopped Venue whose callback queues a one-note song: the call that
    notices the stop plays that song at time 0. *)
Lemma getSample_stop_requested_witness :
  stopPlaying stoppedVenue = true
  /\ getSample (fun _ => 0%Z) queueSong 0 7 (1 / 44100) stoppedVenue
     = playSample (fun _ => 0%Z) queueSong (1 / 44100)
                  (queueSong oneNoteSong
                     (mkVenue [] false false (-1) (Some oneNoteSong))).
Proof.
  split; [reflexivity|].
  exact (proj1 (getSample_stop_requested (fun _ => 0%Z) Maestro queueSong
                  stoppedVenue 7 (1 / 44100) eq_refl)).
Defined.

(** ** The lines of the specification's scenarios *)

(** "T120 L4 O4 C": one note at time 0, of duration 240/(4*120) * 7/8 =
    0.4375 seconds, with the frequency at index 48 of the pitch table. *)
Example round_trip_T120_L4_O4_C :
  exists n,
    buildVoiceFromString "T120 L4 O4 C" getDefaultInstrument
                         getStandardTwelveToneEqualNotes
    = Ok (newVoice [n])
    /\ startTime n = 0
    /\ duration n = 0.4375
    /\ nth_error getStandardTwelveToneEqualNotes 48 = Some (frequency n).
Proof.
  eexists. split; [run; reflexivity|].
  split; [cbn; lra|]. split; [cbn; lra|]. reflexivity.
Qed.

(** "N0" emits no note and moves the cursor by the note length. *)
Example rest_N0 :
  exists ps sp,
    runParser "N0" getDefaultInstrument getStandardTwelveToneEqualNotes
    = Ok (ps, sp)
    /\ emitted ps = []
    /\ cursorTime ps = 240 / (4 * 120).
Proof.
  do 2 eexists. split; [run; reflexivity|].
  split; [reflexivity|cbn; lra].
Qed.

(** Lower case and white space are folded away before the commands are
    read, and the message quotes the upper-case character. *)
Example lower_case_unknown_command :
  buildVoiceFromString " c # z" getDefaultInstrument
                       getStandardTwelveToneEqualNotes
  = Throw "Did not understand command component 'Z'.".
Proof. reflexivity. Qed.

(** A number past the range of [int], and an [IX] at the very end of the
    line (whose [consume] reads past the end), are undefined behaviour. *)
Example undefined_behaviour :
  buildVoiceFromString "T99999999999" getDefaultInstrument
                       getStandardTwelveToneEqualNotes
  = Undefined
  /\ buildVoiceFromString "IX" getDefaultInstrument
                          getStandardTwelveToneEqualNotes
     = Undefined.
Proof. split; reflexivity. Qed.

(* ================================================================== *)
(** * Further properties of the code *)

(** ** The pitch table: equal temperament *)

Lemma pow2_pos (x : R) : 0 < pow2 x.
Proof. unfold pow2, Rpower. apply exp_pos. Qed.

Lemma pow2_plus (x y : R) : pow2 (x + y) = pow2 x * pow2 y.
Proof. unfold pow2. apply Rpower_plus. Qed.

(** The powers of two the generator uses, as powers of the semitone ratio
    [pow2 (1/12)], whose twelfth power is 2. *)
Lemma semitone_powers :
  let r := pow2 (1 / 12) in
  pow2 (2 / 12) = r * r
  /\ pow2 (3 / 12) = r * r * r
  /\ pow2 (4 / 12) = r * r * r * r
  /\ pow2 (5 / 12) = r * r * r * r * r
  /\ pow2 (6 / 12) = r * r * r * r * r * r
  /\ pow2 (7 / 12) = r * r * r * r * r * r * r
  /\ pow2 (8 / 12) = r * r * r * r * r * r * r * r
  /\ pow2 (9 / 12) = r * r * r * r * r * r * r * r * r
  /\ r * r * r * r * r * r * r * r * r * r * r * r = 2.
Proof.
  cbv zeta.
  assert (S : forall x, pow2 (x + 1 / 12) = pow2 x * pow2 (1 / 12))
    by (intros; apply pow2_plus).
  assert (E2 : pow2 (2 / 12) = pow2 (1 / 12) * pow2 (1 / 12))
    by (rewrite <- S; f_equal; lra).
  assert (E3 : pow2 (3 / 12) = pow2 (2 / 12) * pow2 (1 / 12))
    by (rewrite <- S; f_equal; lra).
  assert (E4 : pow2 (4 / 12) = pow2 (3 / 12) * pow2 (1 / 12))
    by (rewrite <- S; f_equal; lra).
  assert (E5 : pow2 (5 / 12) = pow2 (4 / 12) * pow2 (1 / 12))
    by (rewrite <- S; f_equal; lra).
  assert (E6 : pow2 (6 / 12) = pow2 (5 / 12) * pow2 (1 / 12))
    by (rewrite <- S; f_equal; lra).
  assert (E7 : pow2 (7 / 12) = pow2 (6 / 12) * pow2 (1 / 12))
    by (rewrite <- S; f_equal; lra).
  assert (E8 : pow2 (8 / 12) = pow2 (7 / 12) * pow2 (1 / 12))
    by (rewrite <- S; f_equal; lra).
  assert (E9 : pow2 (9 / 12) = pow2 (8 / 12) * pow2 (1 / 12))
    by (rewrite <- S; f_equal; lra).
  assert (E12 : pow2 (9 / 12) * pow2 (3 / 12) = 2).
  { rewrite <- pow2_plus. replace (9 / 12 + 3 / 12) with 1 by lra.
    unfold pow2. apply Rpower_1. lra. }
  rewrite E9, E8, E7, E6, E5, E4, E3, E2 in E12.
  rewrite E9, E8, E7, E6, E5, E4, E3, E2.
  repeat split; try reflexivity. rewrite <- E12. ring.
Qed.

(** Evaluate the entries of a table at given indices. *)
Ltac table := cbv -[Rdiv Rmult Rplus Rinv IZR pow2].

(** Each entry of the generated table is the entry before it times
    [pow2 (1/12)]: checked entry by entry. *)
Lemma table_semitone_step (a : R) (i : nat) :
  (i < 107)%nat ->
  nth (S i) (generateTwelveToneEqual a) 0
  = nth i (generateTwelveToneEqual a) 0 * pow2 (1 / 12).
Proof.
  intros Hi.
  destruct semitone_powers as (E2 & E3 & E4 & E5 & E6 & E7 & E8 & E9 & E12).
  pose proof (pow2_pos (1 / 12)) as Hr.
  unfold generateTwelveToneEqual.
  set (r := pow2 (1 / 12)) in *.
  assert (H12 : r ^ 12 = 2) by (rewrite <- E12; ring).
  do 107 (destruct i as [|i];
          [ table; fold r; rewrite ?E9, ?E8, ?E7, ?E6, ?E5, ?E4, ?E3, ?E2;
            first [ field; lra
                  | field_simplify_eq; [rewrite ?H12; ring | lra] ]
          | ]).
  lia.
Qed.

Lemma table_steps (a : R) (k i : nat) :
  (i + k < 108)%nat ->
  nth (i + k) (generateTwelveToneEqual a) 0
  = nth i (generateTwelveToneEqual a) 0 * pow2 (INR k / 12).
Proof.
  induction k as [|k IH]; intros Hk.
  - rewrite Nat.add_0_r. unfold pow2, Rdiv. rewrite Rmult_0_l, Rpower_O; lra.
  - replace (i + S k)%nat with (S (i + k)) by lia.
    rewrite table_semitone_step by lia. rewrite IH by lia.
    rewrite S_INR. replace ((INR k + 1) / 12) with (INR k / 12 + 1 / 12) by lra.
    rewrite pow2_plus. ring.
Qed.

(** X1: the closed form of the table.  Whatever the reference pitch [a],
    the entry at index [i] is [a * 2^((i - 57) / 12)]: the reference at
    index 57, and [i - 57] equal-tempered semitones away from it. *)
Theorem equal_temperament_closed_form (a : R) (i : nat) :
  (i < 108)%nat ->
  nth i (generateTwelveToneEqual a) 0 = a * pow2 ((INR i - 57) / 12).
Proof.
  intros Hi.
  assert (H57 : nth 57 (generateTwelveToneEqual a) 0 = a).
  { rewrite (nth_error_nth _ _ 0 (proj1 (generateTwelveToneEqual_reference a))).
    lra. }
  destruct (le_lt_dec 57 i) as [Hup|Hdown].
  - replace i with (57 + (i - 57))%nat at 1 by lia.
    rewrite table_steps by lia. rewrite H57.
    rewrite minus_INR by lia. do 3 f_equal. simpl. lra.
  - pose proof (table_steps a (57 - i) i) as E.
    replace (i + (57 - i))%nat with 57%nat in E by lia.
    rewrite H57 in E. specialize (E ltac:(lia)).
    rewrite minus_INR in E by lia.
    replace (INR 57) with 57 in E by (simpl; lra).
    replace ((INR i - 57) / 12) with (- ((57 - INR i) / 12)) by lra.
    pose proof (pow2_pos ((57 - INR i) / 12)) as Hp.
    replace (pow2 (- ((57 - INR i) / 12)))
      with (/ pow2 ((57 - INR i) / 12))
      by (unfold pow2; now rewrite Rpower_Ropp).
    set (P := pow2 ((57 - INR i) / 12)) in *.
    set (x := nth i (generateTwelveToneEqual a) 0) in *.
    apply Rmult_eq_reg_r with (r := P); [|lra].
    rewrite Rmult_assoc, Rinv_l by lra. lra.
Qed.

(** X2: the two ratios of equal temperament.  In the generated table a
    step of one index multiplies the frequency by the twelfth root of two,
    and a step of twelve indices (an octave) doubles it. *)
Theorem equal_temperament_ratios (a : R) (i : nat) :
  ((i < 107)%nat ->
   nth (i + 1) (generateTwelveToneEqual a) 0
   = nth i (generateTwelveToneEqual a) 0 * pow2 (1 / 12))
  /\ ((i < 96)%nat ->
      nth (i + 12) (generateTwelveToneEqual a) 0
      = 2 * nth i (generateTwelveToneEqual a) 0).
Proof.
  split; intros Hi.
  - rewrite table_steps by lia.
    replace (INR 1 / 12) with (1 / 12) by (simpl; lra). reflexivity.
  - rewrite table_steps by lia.
    replace (INR 12 / 12) with 1 by (simpl; lra).
    unfold pow2. rewrite Rpower_1 by lra. ring.
Qed.

(** The standard table, between A3 and A5. *)
Lemma equal_temperament_ratios_witness :
  nth (45 + 12) getStandardTwelveToneEqualNotes 0
  = 2 * nth 45 getStandardTwelveToneEqualNotes 0.
Proof.
  apply (equal_temperament_ratios A440 45). lia.
Defined.

Lemma equal_temperament_closed_form_witness :
  nth 69 getStandardTwelveToneEqualNotes 0 = A440 * pow2 ((INR 69 - 57) / 12).
Proof.
  apply (equal_temperament_closed_form A440 69). lia.
Defined.

(** ** Envelopes: the release ramp and the range of the gain *)

(** X3: the release ramp joins the envelope and ends at zero.  For both
    envelopes with a release length other than 0, a note released at
    [releaseTime] has, at that instant, the gain it had unreleased; and
    [release] seconds later its gain is 0. *)
Theorem release_ramp_endpoints (e : Envelope) (releaseTime : R) :
  release e <> 0 ->
  releaseTime <> -1 ->
  loud e releaseTime releaseTime = loud e releaseTime (-1)
  /\ loud e (releaseTime + release e) releaseTime = 0.
Proof.
  intros Hrel Hr.
  assert (Hone : forall rl, rl <> 0 ->
            (releaseTime + rl - releaseTime) / rl = 1)
    by (intros; field; assumption).
  assert (Hzero : forall rl, rl <> 0 ->
            (releaseTime + rl - (releaseTime + rl)) / rl = 0)
    by (intros; field; assumption).
  destruct e as [p a rl | p a d s rl]; cbn [release] in Hrel;
    cbn [loud release]; unfold AREnvelope_loud, ADSREnvelope_loud.
  - destruct (Req_dec_T (-1.0) releaseTime) as [E|_]; [exfalso; lra|].
    destruct (Req_dec_T (-1.0) (-1)) as [_|N]; [|exfalso; lra].
    rewrite Hone, Hzero by assumption.
    destruct (Rlt_dec releaseTime a); split; ring.
  - destruct (Req_dec_T (-1.0) releaseTime) as [E|_]; [exfalso; lra|].
    destruct (Req_dec_T (-1.0) (-1)) as [_|N]; [|exfalso; lra].
    rewrite Hone, Hzero by assumption.
    destruct (Rlt_dec releaseTime a);
      [|destruct (Rlt_dec releaseTime (a + d))]; split; ring.
Qed.

(** The default AR envelope released after one second. *)
Lemma release_ramp_endpoints_witness :
  loud defaultAREnvelope 1 1 = loud defaultAREnvelope 1 (-1)
  /\ loud defaultAREnvelope (1 + release defaultAREnvelope) 1 = 0.
Proof.
  apply (release_ramp_endpoints defaultAREnvelope 1).
  - cbn. lra.
  - lra.
Defined.

Lemma ratio_in_unit (x d : R) : 0 <= x -> x < d -> 0 <= x / d < 1.
Proof.
  intros Hx Hd. assert (0 < d) by lra.
  assert (0 < / d) by now apply Rinv_0_lt_compat.
  split.
  - apply Rmult_le_pos; lra.
  - apply Rmult_lt_reg_r with (r := d); [assumption|].
    unfold Rdiv. rewrite Rmult_assoc, Rinv_l by lra. lra.
Qed.

Lemma loud_range (e : Envelope) (time releaseTime : R) :
  levelsOrdered e ->
  0 <= time ->
  releaseTime = -1
  \/ (sustainStart e <= releaseTime <= time
      /\ time <= releaseTime + release e /\ 0 < release e) ->
  0 <= loud e time releaseTime <= peakOf e.
Proof.
  intros Hlev Ht Hcase.
  assert (Hramp : forall rl,
            0 < rl -> releaseTime <= time -> time <= releaseTime + rl ->
            0 <= (releaseTime + rl - time) / rl <= 1).
  { intros rl Hrl H1 H2.
    assert (0 < / rl) by now apply Rinv_0_lt_compat.
    split; [apply Rmult_le_pos; lra|].
    apply Rmult_le_reg_r with (r := rl); [assumption|].
    unfold Rdiv. rewrite Rmult_assoc, Rinv_l by lra. lra. }
  destruct e as [p a rl | p a d s rl];
    cbn [levelsOrdered sustainStart release peakOf loud] in *;
    unfold AREnvelope_loud, ADSREnvelope_loud.
  - assert (U : 0 <= (if Rlt_dec time a then time / a * p else p) <= p).
    { destruct (Rlt_dec time a) as [Hlt|_]; [|lra].
      pose proof (ratio_in_unit time a Ht Hlt). nra. }
    destruct (Req_dec_T (-1.0) releaseTime) as [E|NE]; [exact U|].
    destruct Hcase as [-> | (Hs & Hend & Hrl)]; [exfalso; lra|].
    pose proof (Hramp rl Hrl (proj2 Hs) Hend).
    destruct (Rlt_dec releaseTime a) as [Hlt|_]; [exfalso; lra|].
    cbv zeta. nra.
  - assert (U : 0 <= (if Rlt_dec time a then time / a * p
                      else if Rlt_dec time (a + d)
                           then p - (time - a) / d * (p - s)
                           else s) <= p).
    { destruct (Rlt_dec time a) as [Hlt|Hge].
      - pose proof (ratio_in_unit time a Ht Hlt). nra.
      - destruct (Rlt_dec time (a + d)) as [Hlt|_]; [|lra].
        pose proof (ratio_in_unit (time - a) d ltac:(lra) ltac:(lra)). nra. }
    destruct (Req_dec_T (-1.0) releaseTime) as [E|NE]; [exact U|].
    destruct Hcase as [-> | (Hs & Hend & Hrl)]; [exfalso; lra|].
    pose proof (Hramp rl Hrl (proj2 Hs) Hend).
    destruct (Rlt_dec releaseTime a) as [Hlt|_]; [exfalso; lra|].
    destruct (Rlt_dec releaseTime (a + d)) as [Hlt|_]; [exfalso; lra|].
    cbv zeta. nra.
Qed.

(** X4: the gain stays between 0 and the peak.  For an envelope whose
    levels are ordered (peak at least 0; for ADSR, sustain between 0 and the
    peak and decay length at least 0), at every time from 0 on, the gain of
    a note that has not been released, or that was released once its sustain
    had begun and is still within its release, lies between 0 and the
    peak. *)
Theorem loud_between_zero_and_peak (e : Envelope) (time releaseTime : R) :
  levelsOrdered e ->
  0 <= time ->
  releaseTime = -1
  \/ (sustainStart e <= releaseTime <= time
      /\ time <= releaseTime + release e /\ 0 < release e) ->
  0 <= loud e time releaseTime <= peakOf e.
Proof. exact (loud_range e time releaseTime). Qed.

(** The harmonica's envelope, half a second into an unreleased note. *)
Lemma loud_between_zero_and_peak_witness :
  0 <= loud (inst_envelope harmonica) (1 / 2) (-1)
    <= peakOf (inst_envelope harmonica).
Proof.
  apply (loud_between_zero_and_peak (inst_envelope harmonica) (1 / 2) (-1)).
  - cbn. lra.
  - lra.
  - left. reflexivity.
Defined.

(** ** Oscillators: composition *)

(** X6: compound oscillators compose.  The sample of a compound over the
    members [l1 ++ l2] is the sum of the samples of the compounds over [l1]
    and over [l2]; with no member it is 0, and with one member it is the
    gain times the member's sample at the harmonic's multiple of the
    frequency. *)
Theorem compound_oscillators_add (std_hash : R -> Z)
        (l1 l2 : list (OscillatorHolder Oscillator)) (f t : R) :
  Oscillator_note std_hash (CompoundOscillator (l1 ++ l2)) f t
  = Oscillator_note std_hash (CompoundOscillator l1) f t
    + Oscillator_note std_hash (CompoundOscillator l2) f t
  /\ Oscillator_note std_hash (CompoundOscillator []) f t = 0
  /\ forall h,
      Oscillator_note std_hash (CompoundOscillator [h]) f t
      = gain h * Oscillator_note std_hash (oscillator h) (harmonic h * f) t.
Proof.
  assert (Shift : forall l r,
            fold_left
              (fun result h =>
                 result + gain h * Oscillator_note std_hash (oscillator h)
                                     (harmonic h * f) t) l r
            = r + fold_left
                    (fun result h =>
                       result + gain h * Oscillator_note std_hash (oscillator h)
                                           (harmonic h * f) t) l 0).
  { induction l as [|h l IH]; intros r; cbn [fold_left]; [lra|].
    rewrite IH. rewrite (IH (0 + _)). lra. }
  split; [|split].
  - rewrite !note_compound, fold_left_app.
    rewrite Shift. rewrite (Shift l1 0.0), (Shift l2 0.0). lra.
  - rewrite note_compound. cbn. lra.
  - intros h. rewrite note_compound. cbn. lra.
Qed.

(** ** The string processor: what the parser sees of a line *)

Lemma toupper_facts (c : ascii) :
  isspace (toupper c) = isspace c /\ toupper (toupper c) = toupper c.
Proof.
  destruct c as [[] [] [] [] [] [] [] []]; split; reflexivity.
Qed.

Lemma dropChars_get (n : nat) (s : string) (c : ascii) :
  String.get n s = Some c -> dropChars n s = String c (dropChars (S n) s).
Proof.
  revert n; induction s as [|a s IH]; intros [|n] H; simpl in *;
    try discriminate.
  - now injection H as ->.
  - now apply IH.
Qed.

Lemma dropChars_end (n : nat) (s : string) :
  (String.length s <= n)%nat -> dropChars n s = EmptyString.
Proof.
  revert n; induction s as [|a s IH]; intros [|n] H; simpl in *;
    try reflexivity; try lia.
  apply IH. lia.
Qed.

Lemma get_in_bounds (n : nat) (s : string) :
  (n < String.length s)%nat -> exists c, String.get n s = Some c.
Proof.
  revert n; induction s as [|a s IH]; intros [|n] H; simpl in *; try lia.
  - now exists a.
  - apply IH. lia.
Qed.

(** The loop of [getNextChar] finds the next of the characters to come. *)
Lemma getNextCharLoop_finds (fuel : nat) (s : string) :
  forall loc,
    (loc < String.length s)%nat -> (String.length s - loc <= fuel)%nat ->
    match foldedChars (dropChars (S loc) s) with
    | [] => getNextCharLoop fuel s loc = Ok (NUL, String.length s)
    | c :: r =>
        exists loc' ch,
          getNextCharLoop fuel s loc = Ok (c, loc')
          /\ (loc < loc' < String.length s)%nat
          /\ String.get loc' s = Some ch /\ isspace ch = false
          /\ c = toupper ch
          /\ foldedChars (dropChars (S loc') s) = r
    end.
Proof.
  induction fuel as [|fuel IH]; intros loc Hloc Hfuel; [lia|].
  cbn [getNextCharLoop]. cbv zeta.
  destruct (Nat.eqb_spec (S loc) (String.length s)) as [E|NE].
  - rewrite dropChars_end by lia. cbn. now rewrite E.
  - destruct (get_in_bounds (S loc) s) as [ch Hch]; [lia|].
    rewrite Hch, (dropChars_get _ _ _ Hch). cbn [foldedChars].
    unfold folded. destruct (isspace ch) eqn:Hsp; cbn [app].
    + specialize (IH (S loc) ltac:(lia) ltac:(lia)).
      destruct (foldedChars (dropChars (S (S loc)) s)) as [|c r];
        [exact IH|].
      destruct IH as (loc' & ch' & E & Hl & G & Hs & Hc & Hr).
      exists loc', ch'. repeat split; try assumption; lia.
    + exists (S loc), ch. repeat split; try assumption; lia.
Qed.

Lemma consume_at_end (sp : StringProcessor) :
  inBounds sp -> done sp = true -> consume sp = Undefined.
Proof.
  unfold inBounds, done, consume, getNextChar, fuelOf.
  intros Hb Hd. apply Nat.eqb_eq in Hd.
  cbn [getNextCharLoop]. cbv zeta.
  destruct (Nat.eqb_spec (S (location sp)) (String.length (input sp)));
    [lia|].
  destruct (String.get (S (location sp)) (input sp)) eqn:G; [|reflexivity].
  apply get_Some_lt in G. lia.
Qed.

Lemma consume_before_end (sp : StringProcessor) :
  inBounds sp -> done sp = false ->
  exists sp',
    consume sp = Ok (peeked sp, sp')
    /\ inBounds sp' /\ atChar sp' /\ strictlyAhead sp sp'
    /\ view sp' = viewOf (upcoming sp).
Proof.
  unfold inBounds, done. intros Hb Hd. apply Nat.eqb_neq in Hd.
  pose proof (getNextCharLoop_finds (fuelOf sp) (input sp) (location sp)
                ltac:(lia) ltac:(unfold fuelOf; lia)) as H.
  unfold consume, getNextChar, upcoming.
  destruct (foldedChars (dropChars (S (location sp)) (input sp)))
    as [|c r].
  - rewrite H. eexists. split; [reflexivity|].
    unfold inBounds, atChar, strictlyAhead, remaining, view, done, upcoming.
    cbn [input location peeked viewOf].
    rewrite Nat.eqb_refl, dropChars_end by lia.
    repeat split; try lia. left. split; reflexivity.
  - destruct H as (loc' & ch & E & Hl & G & Hs & Hc & Hr).
    rewrite E. eexists. split; [reflexivity|].
    unfold inBounds, atChar, strictlyAhead, remaining, view, done, upcoming.
    cbn [input location peeked viewOf].
    destruct (Nat.eqb_spec loc' (String.length (input sp))); [lia|].
    rewrite Hr. repeat split; try lia.
    right. exists ch. repeat split; assumption.
Qed.

Lemma newStringProcessor_view (text : string) :
  exists sp,
    newStringProcessor text = Ok sp
    /\ input sp = text /\ inBounds sp /\ atChar sp
    /\ view sp = viewOf (foldedChars text).
Proof.
  unfold newStringProcessor.
  destruct text as [|c text'] eqn:Etext.
  - cbn. eexists. split; [reflexivity|].
    unfold inBounds, atChar, view, done, upcoming. cbn.
    repeat split; try lia. left. split; reflexivity.
  - cbn [String.get]. rewrite <- Etext.
    destruct (toupper_facts c) as [Hsp _]. rewrite Hsp.
    destruct (isspace c) eqn:Hc.
    + destruct (consume_before_end (mkStringProcessor text 0 NUL))
        as (sp' & E & Hb & Hat & [Hin _] & Hv).
      { unfold inBounds. cbn. lia. }
      { unfold done. cbn. rewrite Etext. reflexivity. }
      unfold consume in E.
      destruct (getNextChar (mkStringProcessor text 0 NUL))
        as [[c' sp'']| | |]; try discriminate.
      injection E as <-. cbn [input location peeked] in *.
      rewrite Hin in Hb, Hat, Hv.
      eexists. split; [reflexivity|].
      split; [reflexivity|]. split; [exact Hb|]. split; [exact Hat|].
      unfold view in *. unfold done, upcoming in *.
      cbn [input location peeked] in *.
      rewrite Hv. rewrite Etext. cbn [dropChars foldedChars].
      unfold folded. now rewrite Hc.
    + eexists. split; [reflexivity|].
      unfold inBounds, atChar, view, done, upcoming.
      cbn [input location peeked].
      rewrite Etext. cbn [String.length Nat.eqb dropChars foldedChars viewOf].
      unfold folded. rewrite Hc. cbn [app String.get].
      repeat split; try lia.
      right. exists c. repeat split; assumption.
Qed.

(** X7: the parser never sees white space or a lower-case letter.  The
    processor built for a line, and the processor left by any [consume]
    that returns, is either at the end of the line holding NUL or at a
    character of the line that is not white space, holding its upper case;
    a [consume] returns the character that was held. *)
Theorem processor_holds_folded_characters (text : string) :
  (exists sp, newStringProcessor text = Ok sp /\ input sp = text /\ atChar sp)
  /\ (forall sp c sp',
         consume sp = Ok (c, sp') ->
         c = peeked sp /\ input sp' = input sp /\ atChar sp')
  /\ (forall sp,
         atChar sp ->
         isspace (peeked sp) = false /\ toupper (peeked sp) = peeked sp).
Proof.
  split; [|split].
  - destruct (newStringProcessor_view text) as (sp & E & Hin & _ & Hat & _).
    exists sp. repeat split; assumption.
  - intros sp c sp' E.
    unfold consume, getNextChar in E.
    destruct (getNextCharLoop (fuelOf sp) (input sp) (location sp))
      as [[c' loc']| | |] eqn:L; try discriminate.
    injection E as <- <-. split; [reflexivity|]. split; [reflexivity|].
    clear - L. revert L. generalize (fuelOf sp), (location sp).
    intros fuel. induction fuel as [|fuel IH]; intros loc;
      cbn [getNextCharLoop]; cbv zeta; [discriminate|].
    destruct (Nat.eqb_spec (S loc) (String.length (input sp))) as [E|NE].
    + intros H. injection H as <- <-. left. split; [exact E|reflexivity].
    + destruct (String.get (S loc) (input sp)) as [ch|] eqn:G;
        [|discriminate].
      destruct (isspace ch) eqn:Hs; [apply IH|].
      intros H. injection H as <- <-.
      right. exists ch. repeat split; assumption.
  - intros sp [[_ ->] | (c & _ & Hs & ->)].
    + split; reflexivity.
    + destruct (toupper_facts c) as [H1 H2]. rewrite H1, H2. now split.
Qed.

(** ** Two processors the parser cannot tell apart *)

Lemma alike_sees (sp1 sp2 : StringProcessor) :
  alike sp1 sp2 ->
  done sp1 = done sp2 /\ peeked sp1 = peeked sp2
  /\ upcoming sp1 = upcoming sp2.
Proof.
  intros (_ & _ & H). unfold view in H. injection H as H1 H2 H3.
  repeat split; assumption.
Qed.

Lemma post2_ret {A : Type} (a : A) sp1 sp2
      (Q : A -> StringProcessor -> StringProcessor -> Prop) :
  Q a sp1 sp2 -> post2 (ret a) (ret a) sp1 sp2 Q.
Proof. intros H. split; [reflexivity|exact H]. Qed.

Lemma post2_throw {A : Type} (w : string) sp1 sp2
      (Q : A -> StringProcessor -> StringProcessor -> Prop) :
  post2 (throw w) (throw w) sp1 sp2 Q.
Proof. reflexivity. Qed.

Lemma post2_undefined {A : Type} sp1 sp2
      (Q : A -> StringProcessor -> StringProcessor -> Prop) :
  post2 undefined undefined sp1 sp2 Q.
Proof. exact I. Qed.

Lemma post2_bind {A B : Type} (m1 m2 : M A) (k1 k2 : A -> M B) sp1 sp2
      (Q : B -> StringProcessor -> StringProcessor -> Prop) :
  post2 m1 m2 sp1 sp2 (fun a s1 s2 => post2 (k1 a) (k2 a) s1 s2 Q) ->
  post2 (mbind m1 k1) (mbind m2 k2) sp1 sp2 Q.
Proof.
  unfold post2, mbind.
  destruct (m1 sp1) as [[a1 s1]| | |], (m2 sp2) as [[a2 s2]| | |];
    try tauto.
  intros [<- H]. exact H.
Qed.

Lemma post2_weaken {A : Type} (m1 m2 : M A) sp1 sp2
      (Q Q' : A -> StringProcessor -> StringProcessor -> Prop) :
  (forall a s1 s2, Q a s1 s2 -> Q' a s1 s2) ->
  post2 m1 m2 sp1 sp2 Q -> post2 m1 m2 sp1 sp2 Q'.
Proof.
  unfold post2. intros H.
  destruct (m1 sp1) as [[a1 s1]| | |], (m2 sp2) as [[a2 s2]| | |];
    try tauto.
  intros [E HQ]. split; [exact E|auto].
Qed.

Lemma post2_fuel {B : Type} (k1 k2 : nat -> M B) sp1 sp2
      (Q : B -> StringProcessor -> StringProcessor -> Prop) :
  post2 (k1 (fuelOf sp1)) (k2 (fuelOf sp2)) sp1 sp2 Q ->
  post2 (mbind loopFuel k1) (mbind loopFuel k2) sp1 sp2 Q.
Proof. exact (fun H => H). Qed.

Lemma post2_peek sp1 sp2
      (Q : ascii -> StringProcessor -> StringProcessor -> Prop) :
  alike sp1 sp2 -> Q (peeked sp1) sp1 sp2 -> post2 peek peek sp1 sp2 Q.
Proof.
  intros Ha H. destruct (alike_sees _ _ Ha) as (_ & E & _).
  split; [exact E|exact H].
Qed.

Lemma post2_isDone sp1 sp2
      (Q : bool -> StringProcessor -> StringProcessor -> Prop) :
  alike sp1 sp2 -> Q (done sp1) sp1 sp2 -> post2 isDone isDone sp1 sp2 Q.
Proof.
  intros Ha H. destruct (alike_sees _ _ Ha) as (E & _ & _).
  split; [exact E|exact H].
Qed.

Lemma post2_consume sp1 sp2
      (Q : ascii -> StringProcessor -> StringProcessor -> Prop) :
  alike sp1 sp2 ->
  (forall s1 s2,
      alike s1 s2 -> strictlyAhead sp1 s1 -> strictlyAhead sp2 s2 ->
      Q (peeked sp1) s1 s2) ->
  post2 consume consume sp1 sp2 Q.
Proof.
  intros Ha H. pose proof Ha as (Hb1 & Hb2 & _).
  destruct (alike_sees _ _ Ha) as (Ed & Ep & Eu).
  unfold post2. destruct (done sp1) eqn:Hd.
  - rewrite (consume_at_end sp1), (consume_at_end sp2) by congruence.
    exact I.
  - destruct (consume_before_end sp1 Hb1 Hd)
      as (s1 & E1 & Hs1 & _ & Ha1 & Hv1).
    destruct (consume_before_end sp2 Hb2 ltac:(congruence))
      as (s2 & E2 & Hs2 & _ & Ha2 & Hv2).
    rewrite E1, E2. split; [exact Ep|].
    apply H; try assumption.
    repeat split; try assumption. now rewrite Hv1, Hv2, Eu.
Qed.

(** One step through the same parser code on two processors. *)
Ltac sstep :=
  cbv beta;
  lazymatch goal with
  | |- post2 (mbind loopFuel _) (mbind loopFuel _) _ _ _ => apply post2_fuel
  | |- post2 (mbind _ _) (mbind _ _) _ _ _ => apply post2_bind
  | |- post2 peek peek _ _ _ => apply post2_peek; [assumption|]
  | |- post2 isDone isDone _ _ _ => apply post2_isDone; [assumption|]
  | |- post2 consume consume _ _ _ =>
      apply post2_consume; [assumption | intros ? ? ? ? ?]
  | |- post2 (ret _) (ret _) _ _ _ => apply post2_ret
  | |- post2 (throw _) (throw _) _ _ _ => apply post2_throw
  | |- post2 undefined undefined _ _ _ => apply post2_undefined
  | |- post2 (if ?b then _ else _) (if ?b then _ else _) _ _ _ =>
      destruct b eqn:?
  | |- post2 (match ?x with _ => _ end) (match ?x with _ => _ end) _ _ _ =>
      destruct x eqn:?
  end.

Lemma getNumberLoop_alike (f1 : nat) :
  forall (f2 : nat) (number : Z) (firstChar : bool) sp1 sp2
         (Q : Z -> StringProcessor -> StringProcessor -> Prop),
    alike sp1 sp2 ->
    (remaining sp1 < f1)%nat -> (remaining sp2 < f2)%nat ->
    (forall n s1 s2,
        alike s1 s2 ->
        (if firstChar then strictlyAhead sp1 s1 else ahead sp1 s1) ->
        (if firstChar then strictlyAhead sp2 s2 else ahead sp2 s2) ->
        Q n s1 s2) ->
    post2 (getNumberLoop f1 number firstChar)
          (getNumberLoop f2 number firstChar) sp1 sp2 Q.
Proof.
  induction f1 as [|f1 IH];
    intros [|f2] number firstChar sp1 sp2 Q Ha H1 H2 HQ; try lia.
  cbn [getNumberLoop]. do 3 sstep.
  - do 3 sstep. unfold int. sstep; [|sstep]. sstep.
    apply IH; [assumption | positions | positions |].
    intros n t1 t2 Hat Hp1 Hp2. apply HQ; [assumption| |].
    + destruct firstChar;
        [eapply strictly_then_ahead; eassumption
        |eapply ahead_trans;
         [apply strictlyAhead_ahead; eassumption|assumption]].
    + destruct firstChar;
        [eapply strictly_then_ahead; eassumption
        |eapply ahead_trans;
         [apply strictlyAhead_ahead; eassumption|assumption]].
  - sstep; sstep. apply HQ; [assumption|apply ahead_refl..].
Qed.

Lemma getNumber_alike sp1 sp2
      (Q : Z -> StringProcessor -> StringProcessor -> Prop) :
  alike sp1 sp2 ->
  (forall n s1 s2,
      alike s1 s2 -> strictlyAhead sp1 s1 -> strictlyAhead sp2 s2 ->
      Q n s1 s2) ->
  post2 getNumber getNumber sp1 sp2 Q.
Proof.
  intros Ha HQ. unfold getNumber. sstep.
  apply getNumberLoop_alike;
    [assumption | apply fuelOf_enough, ahead_refl..| exact HQ].
Qed.

Lemma dotsLoop_alike (f1 : nat) :
  forall (f2 : nat) (tempLength nextDot : R) sp1 sp2
         (Q : R -> StringProcessor -> StringProcessor -> Prop),
    alike sp1 sp2 ->
    (remaining sp1 < f1)%nat -> (remaining sp2 < f2)%nat ->
    (forall total s1 s2, alike s1 s2 -> Q total s1 s2) ->
    post2 (dotsLoop f1 tempLength nextDot) (dotsLoop f2 tempLength nextDot)
          sp1 sp2 Q.
Proof.
  induction f1 as [|f1 IH];
    intros [|f2] tempLength nextDot sp1 sp2 Q Ha H1 H2 HQ; try lia.
  cbn [dotsLoop]. do 3 sstep.
  - do 2 sstep. apply IH; [assumption | positions | positions | exact HQ].
  - sstep. now apply HQ.
Qed.

Lemma modifiersLoop_alike (tempo : Z) (f1 : nat) :
  forall (f2 : nat) (nt : NoteTemp) sp1 sp2
         (Q : NoteTemp -> StringProcessor -> StringProcessor -> Prop),
    alike sp1 sp2 ->
    (remaining sp1 < f1)%nat -> (remaining sp2 < f2)%nat ->
    (forall nt' s1 s2, alike s1 s2 -> Q nt' s1 s2) ->
    post2 (modifiersLoop f1 tempo nt) (modifiersLoop f2 tempo nt) sp1 sp2 Q.
Proof.
  induction f1 as [|f1 IH]; intros [|f2] nt sp1 sp2 Q Ha H1 H2 HQ; try lia.
  cbn [modifiersLoop].
  repeat first
    [ sstep
    | apply getNumber_alike; [assumption | intros ? ? ? ? ? ?]
    | apply IH; [assumption | positions | positions | exact HQ]
    | solve [apply HQ; assumption] ].
Qed.

(** Steps through a command on two processors that are alike. *)
Ltac ssteps :=
  repeat first
    [ sstep
    | apply getNumber_alike; [assumption | intros ? ? ? ? ? ?]
    | apply modifiersLoop_alike;
      [assumption | apply fuelOf_enough, ahead_refl..
      | intros ? ? ? ?]
    | apply dotsLoop_alike;
      [assumption | apply fuelOf_enough, ahead_refl..
      | intros ? ? ? ?]
    | assumption ].

Lemma command_alike (instruments : InstrumentMap) (pitches : list R)
      (ps : PState) sp1 sp2 :
  alike sp1 sp2 ->
  post2 (command instruments pitches ps) (command instruments pitches ps)
        sp1 sp2 (fun _ s1 s2 => alike s1 s2).
Proof.
  intros Ha.
  unfold command, noteCommand, rawNoteCommand, restCommand, musicCommand,
    instrumentCommand, volumeCommand, optionalSemicolon, pitchAt.
  ssteps.
Qed.

Lemma commandLoop_alike (instruments : InstrumentMap) (pitches : list R)
      (f1 : nat) :
  forall (f2 : nat) (ps : PState) sp1 sp2,
    alike sp1 sp2 -> PStateOk ps ->
    (remaining sp1 < f1)%nat -> (remaining sp2 < f2)%nat ->
    post2 (commandLoop f1 instruments pitches ps)
          (commandLoop f2 instruments pitches ps) sp1 sp2
          (fun _ s1 s2 => alike s1 s2).
Proof.
  induction f1 as [|f1 IH]; intros [|f2] ps sp1 sp2 Ha Hok H1 H2; try lia.
  cbn [commandLoop]. do 3 sstep; [sstep; assumption|].
  sstep.
  pose proof (command_alike instruments pitches ps sp1 sp2 Ha) as Hc.
  pose proof (command_post instruments pitches ps sp1 Hok) as Hp1.
  pose proof (command_post instruments pitches ps sp2 Hok) as Hp2.
  unfold post2, post in *.
  destruct (command instruments pitches ps sp1) as [[a1 s1]| | |],
           (command instruments pitches ps sp2) as [[a2 s2]| | |];
    try tauto.
  destruct Hc as [<- Hal]. split; [reflexivity|].
  destruct Hp1 as (Hok' & Hs1 & _). destruct Hp2 as (_ & Hs2 & _).
  apply IH; [assumption | assumption | positions | positions].
Qed.

Lemma foldedChars_folded (s : string) :
  Forall (fun c => folded c = [c]) (foldedChars s).
Proof.
  induction s as [|c s IH]; cbn [foldedChars]; [constructor|].
  apply Forall_app. split; [|exact IH].
  destruct (toupper_facts c) as [H1 H2].
  unfold folded. destruct (isspace c) eqn:Hc; constructor; [|constructor].
  now rewrite H1, H2.
Qed.

Lemma foldedChars_normalize (s : string) :
  foldedChars (normalize s) = foldedChars s.
Proof.
  unfold normalize. pose proof (foldedChars_folded s) as H.
  induction H as [|c l Hc _ IH]; cbn; [reflexivity|].
  rewrite Hc, IH. reflexivity.
Qed.

Lemma same_folded_same_result (t1 t2 : string) (instruments : InstrumentMap)
      (pitches : list R) :
  foldedChars t1 = foldedChars t2 ->
  buildVoiceFromString t1 instruments pitches
  = buildVoiceFromString t2 instruments pitches.
Proof.
  intros Hsame. unfold buildVoiceFromString, runParser.
  destruct (negb _); [reflexivity|].
  destruct (instruments_find instruments NUL) as [i|]; [|reflexivity].
  destruct (newStringProcessor_view t1) as (sp1 & E1 & _ & Hb1 & _ & Hv1).
  destruct (newStringProcessor_view t2) as (sp2 & E2 & _ & Hb2 & _ & Hv2).
  rewrite E1, E2. cbn [bind].
  assert (Ha : alike sp1 sp2)
    by (repeat split; try assumption; now rewrite Hv1, Hv2, Hsame).
  pose proof (commandLoop_alike instruments pitches (fuelOf sp1)
                (fuelOf sp2) (initialPState i) sp1 sp2 Ha
                (PStateOk_initial i)
                (fuelOf_enough sp1 sp1 (ahead_refl sp1))
                (fuelOf_enough sp2 sp2 (ahead_refl sp2))) as H.
  unfold post2 in H.
  destruct (commandLoop (fuelOf sp1) instruments pitches
                        (initialPState i) sp1) as [[a1 s1]| | |],
           (commandLoop (fuelOf sp2) instruments pitches
                        (initialPState i) sp2) as [[a2 s2]| | |];
    try tauto; cbn [bind].
  - destruct H as [<- _]. reflexivity.
  - now rewrite H.
Qed.

(** X8: white space and letter case do not matter.  Two lines that are
    the same once their white space is removed and their letters are put in
    upper case give the same result: the same Voice, the same exception, or
    undefined behaviour for both.  In particular a line and its normal form
    do. *)
Theorem buildVoiceFromString_ignores_space_and_case
        (text1 text2 : string) (instruments : InstrumentMap)
        (pitches : list R) :
  foldedChars text1 = foldedChars text2 ->
  buildVoiceFromString text1 instruments pitches
  = buildVoiceFromString text2 instruments pitches
  /\ buildVoiceFromString text1 instruments pitches
     = buildVoiceFromString (normalize text1) instruments pitches.
Proof.
  intros Hsame. split; [now apply same_folded_same_result|].
  apply same_folded_same_result. symmetry. apply foldedChars_normalize.
Qed.

(** A chord written in lower case with spaces, and written plainly. *)
Lemma buildVoiceFromString_ignores_space_and_case_witness :
  buildVoiceFromString " c , e,  g" getDefaultInstrument
                       getStandardTwelveToneEqualNotes
  = buildVoiceFromString "C,E,G" getDefaultInstrument
                         getStandardTwelveToneEqualNotes.
Proof.
  apply (buildVoiceFromString_ignores_space_and_case
           " c , e,  g" "C,E,G" getDefaultInstrument
           getStandardTwelveToneEqualNotes).
  reflexivity.
Defined.

(** ** The parser: the line is read to its end, and the notes are sane *)

Lemma commandLoop_reads_all (instruments : InstrumentMap) (pitches : list R)
      (fuel : nat) :
  forall (ps : PState) sp,
    (remaining sp < fuel)%nat -> PStateOk ps ->
    post (commandLoop fuel instruments pitches ps) sp
         (fun _ sp' => done sp' = true /\ input sp' = input sp).
Proof.
  induction fuel as [|fuel IH]; intros ps sp Hf Hok; [lia|].
  cbn [commandLoop]. do 3 pstep.
  - pstep. split; [assumption|reflexivity].
  - pstep. eapply post_weaken; [|apply command_post; assumption].
    intros ps' sp' (Hok' & Hs & _). cbv beta.
    eapply post_weaken; [|apply IH; [positions|assumption]].
    cbv beta. intros _ sp'' [Hd Hi]. split; [assumption|].
    destruct Hs as [E _]. congruence.
Qed.

(** X9: a line that parses is read to its end, within the ranges.  When
    the parser returns normally, the processor is at the end of the line it
    was given, and the variables are within their ranges: octave 0 to 8,
    beat note 1 to 64, tempo 16 to 256, and the note length is 240 divided
    by beat note times tempo. *)
Theorem runParser_reads_whole_line (text : string)
        (instruments : InstrumentMap) (pitches : list R)
        (ps : PState) (sp : StringProcessor) :
  runParser text instruments pitches = Ok (ps, sp) ->
  done sp = true /\ input sp = text
  /\ (0 <= currentOctave ps <= 8)%Z
  /\ (1 <= currentBeatNote ps <= 64)%Z
  /\ (16 <= currentTempo ps <= 256)%Z
  /\ noteLength ps = 240 / IZR (currentBeatNote ps * currentTempo ps).
Proof.
  intros H.
  pose proof (runParser_post text instruments pitches) as Hok.
  rewrite H in Hok. destruct Hok as (Ho & Hb & Ht & Hn & _).
  unfold runParser in H.
  destruct (negb _); [discriminate|].
  destruct (instruments_find instruments NUL) as [i|]; [|discriminate].
  destruct (newStringProcessor_view text) as (sp0 & E & Hin & _).
  rewrite E in H. cbn [bind] in H.
  pose proof (post_ok _ _ _ _ _
                (commandLoop_reads_all instruments pitches (fuelOf sp0)
                   (initialPState i) sp0
                   (fuelOf_enough sp0 sp0 (ahead_refl sp0))
                   (PStateOk_initial i)) H) as [Hd Hi].
  unfold octavesImplemented in Ho.
  repeat split; try assumption; try lia; try congruence.
  rewrite Hn. lra.
Qed.

Lemma runParser_reads_whole_line_witness :
  exists ps sp,
    runParser "T60 L8 >" getDefaultInstrument getStandardTwelveToneEqualNotes
    = Ok (ps, sp)
    /\ done sp = true
    /\ noteLength ps = 240 / IZR (currentBeatNote ps * currentTempo ps).
Proof.
  do 2 eexists. split; [run; reflexivity|].
  split;
    eapply (runParser_reads_whole_line "T60 L8 >" getDefaultInstrument
              getStandardTwelveToneEqualNotes); run; reflexivity.
Defined.

Lemma post_conj {A : Type} (m : M A) sp
      (Q1 Q2 : A -> StringProcessor -> Prop) :
  post m sp Q1 -> post m sp Q2 -> post m sp (fun a sp' => Q1 a sp' /\ Q2 a sp').
Proof.
  unfold post. destruct (m sp) as [[a sp']| | |]; auto.
Qed.

Lemma seconds_bounds (n : Z) :
  (16 <= n <= 16384)%Z ->
  shortestLength <= 240.0 / IZR n <= longestLength.
Proof.
  intros [Hlo Hhi]. apply IZR_le in Hlo, Hhi.
  unfold shortestLength, longestLength.
  assert (Hn : 0 < IZR n) by lra.
  assert (Hinv : 0 < / IZR n) by now apply Rinv_0_lt_compat.
  split.
  - apply Rmult_le_reg_r with (r := IZR n * (64 * 256)); [nra|].
    field_simplify; lra.
  - apply Rmult_le_reg_r with (r := IZR n * 16); [nra|].
    replace (240.0 / IZR n * (IZR n * 16)) with (240 * 16)
      by (replace 240.0 with 240 by lra; field; lra).
    lra.
Qed.

Lemma std_min_unit (v : R) : 0 <= v <= 1 -> 0 <= std_min (v + 0.125) 1.0 <= 1.
Proof. intros H. unfold std_min. destruct (Rlt_dec 1.0 (v + 0.125)); lra. Qed.

Lemma modifiersLoop_sane (fuel : nat) (tempo : Z) :
  (16 <= tempo <= 256)%Z ->
  forall (nt : NoteTemp) sp (Q : NoteTemp -> StringProcessor -> Prop),
    (remaining sp < fuel)%nat -> NoteTempSane nt ->
    (forall nt' sp', NoteTempSane nt' -> Q nt' sp') ->
    post (modifiersLoop fuel tempo nt) sp Q.
Proof.
  intros Htempo.
  induction fuel as [|fuel IH];
    intros nt sp Q Hf (Hl & Hd & Hsum & Hdur & Hvol & Hn) HQ; [lia|].
  unfold totalNotes, notesPerOctave, octavesImplemented in Hn.
  pose proof (std_min_unit (tempVolume nt) Hvol) as Hmin.
  cbn [modifiersLoop].
  repeat first
    [ pstep
    | apply post_getNumber; intros ? ? ? ?
    | apply IH; [positions | | exact HQ]
    | apply HQ ];
    ztests;
    unfold NoteTempSane, totalNotes, notesPerOctave, octavesImplemented in *;
    cbn [tempLength nextDot note tempDuration tempVolume];
    repeat split; try lra; try lia.
  all: match goal with
       | |- context [IZR (?n * ?t)] =>
           pose proof (seconds_bounds (n * t) ltac:(nia)) as [? ?]
       end; unfold shortestLength, longestLength in *; lra.
Qed.

Lemma noteLength_bounds (ps : PState) :
  PStateOk ps -> shortestLength <= noteLength ps <= longestLength.
Proof.
  intros (_ & Hb & Ht & Hn & _). rewrite Hn. apply seconds_bounds. nia.
Qed.

Lemma LevelsSane_emplaceNote (pitches : list R) (ps : PState)
      (pitch length loudness : R) :
  LevelsSane pitches ps -> In pitch pitches ->
  shortestLength * (3 / 4) <= length < 2 * longestLength ->
  0 <= loudness <= 1 ->
  LevelsSane pitches (emplaceNote ps pitch length loudness).
Proof.
  intros (Ha & Hv & Hc & Hall) Hin Hd Hvol.
  unfold LevelsSane, emplaceNote.
  cbn [articulation curVolume cursorTime emitted].
  split; [assumption|]. split; [assumption|]. split; [assumption|].
  apply Forall_app. split; [assumption|].
  constructor; [|constructor].
  unfold NoteSane. cbn [frequency startTime duration volume].
  split; [assumption|]. split; [assumption|]. split; assumption.
Qed.

Lemma LevelsSane_advanceTime (pitches : list R) (ps : PState) (length : R) :
  LevelsSane pitches ps -> 0 <= length ->
  LevelsSane pitches (advanceTime ps length).
Proof.
  intros (Ha & Hv & Hc & Hall) Hl. unfold LevelsSane, advanceTime.
  cbn [articulation curVolume cursorTime emitted].
  split; [assumption|]. split; [assumption|]. split; [lra|assumption].
Qed.

(** Close the goal left when a command that sets a variable returns. *)
Ltac levels :=
  ztests;
  repeat match goal with
         | H : (_ <= _)%Z |- _ => apply IZR_le in H
         end;
  match goal with
  | H : LevelsSane _ _ |- _ => destruct H as (? & ? & ? & ?)
  end;
  unfold LevelsSane;
  cbn [articulation curVolume cursorTime emitted setOctave setTempo
       setBeatNote setArticulation setVolume setInstrument];
  (split; [|split; [|split]]); try assumption; lra.

Lemma musicCommand_sane (pitches : list R) (ps : PState) sp :
  LevelsSane pitches ps ->
  post (musicCommand ps) sp (fun ps' _ => LevelsSane pitches ps').
Proof.
  intros Hs. unfold musicCommand. repeat pstep; solve [assumption | levels].
Qed.

Lemma volumeCommand_sane (pitches : list R) (ps : PState) sp :
  LevelsSane pitches ps ->
  post (volumeCommand ps) sp (fun ps' _ => LevelsSane pitches ps').
Proof.
  intros Hs. unfold volumeCommand, optionalSemicolon.
  repeat (pstep || (apply post_getNumber; intros ? ? ? ?));
    solve [assumption | levels].
Qed.

Lemma instrumentCommand_sane (instruments : InstrumentMap) (pitches : list R)
      (ps : PState) sp :
  LevelsSane pitches ps ->
  post (instrumentCommand instruments ps) sp
       (fun ps' _ => LevelsSane pitches ps').
Proof.
  intros Hs. unfold instrumentCommand.
  repeat (pstep || (apply post_getNumber; intros ? ? ? ?));
    solve [assumption | levels].
Qed.

Lemma rawNoteCommand_sane (pitches : list R) (ps : PState) sp :
  PStateOk ps -> LevelsSane pitches ps ->
  post (rawNoteCommand pitches ps) sp (fun ps' _ => LevelsSane pitches ps').
Proof.
  intros Hok Hs. pose proof (noteLength_bounds ps Hok) as Hlen.
  pose proof Hs as (Ha & Hv & _).
  assert (Hpos : 0 < shortestLength) by (unfold shortestLength; lra).
  unfold rawNoteCommand.
  repeat (pstep || (apply post_getNumber; intros ? ? ? ?)
          || (apply post_pitchAt; intros ? ?)).
  - apply LevelsSane_advanceTime; [|lra].
    apply LevelsSane_emplaceNote; [assumption| |nra|assumption].
    eapply nth_error_In; eassumption.
  - apply LevelsSane_advanceTime; [assumption|lra].
Qed.

Lemma restCommand_sane (pitches : list R) (ps : PState) sp :
  PStateOk ps -> LevelsSane pitches ps ->
  post (restCommand ps) sp (fun ps' _ => LevelsSane pitches ps').
Proof.
  intros Hok Hs. pose proof (PStateOk_noteLength ps Hok) as Hlen.
  pose proof Hok as (Ho & Hb & Ht & Hn & _).
  unfold restCommand. do 5 pstep.
  assert (Hdots : forall tempLength spd,
             0 < tempLength ->
             post (fuel <~ loopFuel ;;
                   total <~ dotsLoop fuel tempLength (tempLength * 0.5) ;;
                   ret (advanceTime ps total))%parser spd
                  (fun ps' _ => LevelsSane pitches ps')).
  { intros tempLength spd Hl. do 3 pstep.
    apply dotsLoop_post;
      [apply fuelOf_enough, ahead_refl | assumption | lra |].
    intros total spn _ Htot. pstep.
    apply LevelsSane_advanceTime; [assumption|lra]. }
  pstep.
  - pstep. apply post_getNumber. intros length spn _ Hlen'. pstep; [pstep|].
    ztests. pstep. apply Hdots. apply seconds_positive. nia.
  - pstep. apply Hdots. assumption.
Qed.

Lemma noteCommand_sane (pitches : list R) (ps : PState) sp :
  PStateOk ps -> LevelsSane pitches ps ->
  post (noteCommand pitches ps) sp (fun ps' _ => LevelsSane pitches ps').
Proof.
  intros Hok Hs. pose proof (noteLength_bounds ps Hok) as Hlen.
  pose proof Hok as (Ho & Hb & Ht & Hn & _).
  pose proof Hs as (Ha & Hv & _).
  assert (Hpos : 0 < shortestLength) by (unfold shortestLength; lra).
  unfold noteCommand. do 5 pstep.
  apply modifiersLoop_sane; [assumption | apply fuelOf_enough, ahead_refl | |].
  { pose proof (semitone_range (peeked sp)).
    unfold NoteTempSane, totalNotes, notesPerOctave, octavesImplemented in *.
    cbn [tempLength nextDot note tempDuration tempVolume].
    repeat split; try lra; lia. }
  intros nt spn (Hl & Hd & Hsum & Hdur & Hvol & Hnote).
  pstep. apply post_pitchAt. intros f Hf. pstep.
  assert (He : LevelsSane pitches
                 (emplaceNote ps f (tempLength nt * tempDuration nt)
                              (tempVolume nt))).
  { apply LevelsSane_emplaceNote; [assumption| |nra|assumption].
    eapply nth_error_In; eassumption. }
  destruct (advance nt); [|assumption].
  apply LevelsSane_advanceTime; [assumption|lra].
Qed.

Lemma command_sane (instruments : InstrumentMap) (pitches : list R)
      (ps : PState) sp :
  PStateOk ps -> LevelsSane pitches ps ->
  post (command instruments pitches ps) sp
       (fun ps' _ => LevelsSane pitches ps').
Proof.
  intros Hok Hs. unfold command. do 2 pstep.
  pstep; [now apply noteCommand_sane|].
  pstep; [solve [repeat pstep; levels]|].
  pstep; [solve [repeat pstep; levels]|].
  pstep; [solve [repeat (pstep || (apply post_getNumber; intros ? ? ? ?));
                 levels]|].
  pstep; [solve [repeat (pstep || (apply post_getNumber; intros ? ? ? ?));
                 levels]|].
  pstep; [solve [repeat (pstep || (apply post_getNumber; intros ? ? ? ?));
                 levels]|].
  pstep; [now apply rawNoteCommand_sane|].
  pstep; [now apply restCommand_sane|].
  pstep; [now apply musicCommand_sane|].
  pstep; [now apply instrumentCommand_sane|].
  pstep; [now apply volumeCommand_sane|].
  pstep.
Qed.

Lemma commandLoop_sane (instruments : InstrumentMap) (pitches : list R)
      (fuel : nat) :
  forall (ps : PState) sp,
    (remaining sp < fuel)%nat -> PStateOk ps -> LevelsSane pitches ps ->
    post (commandLoop fuel instruments pitches ps) sp
         (fun ps' _ => LevelsSane pitches ps').
Proof.
  induction fuel as [|fuel IH]; intros ps sp Hf Hok Hs; [lia|].
  cbn [commandLoop]. do 3 pstep.
  - pstep. assumption.
  - pstep.
    eapply post_weaken;
      [|apply post_conj;
        [apply command_post; assumption
        |apply (command_sane instruments pitches); assumption]].
    cbv beta. intros ps' sp' [(Hok' & Ha & _) Hs'].
    apply IH; [positions|assumption|assumption].
Qed.

Lemma LevelsSane_initial (pitches : list R) (i : Instrument) :
  LevelsSane pitches (initialPState i).
Proof.
  unfold LevelsSane, initialPState.
  cbn [articulation curVolume cursorTime emitted].
  repeat split; try lra. constructor.
Qed.

Lemma buildVoiceFromString_sane (text : string)
      (instruments : InstrumentMap) (pitches : list R) (voice : Voice) :
  buildVoiceFromString text instruments pitches = Ok voice ->
  Forall (NoteSane pitches) (notes voice).
Proof.
  unfold buildVoiceFromString. intros H.
  destruct (runParser text instruments pitches) as [[ps sp]| | |] eqn:Hrun;
    cbn [bind] in H; try discriminate.
  injection H as <-. cbn [notes newVoice].
  unfold runParser in Hrun.
  destruct (negb _); [discriminate|].
  destruct (instruments_find instruments NUL) as [i|]; [|discriminate].
  destruct (newStringProcessor text) as [sp0| | |]; cbn [bind] in Hrun;
    try discriminate.
  pose proof (post_ok _ _ _ _ _
                (commandLoop_sane instruments pitches (fuelOf sp0)
                   (initialPState i) sp0
                   (fuelOf_enough sp0 sp0 (ahead_refl sp0))
                   (PStateOk_initial i) (LevelsSane_initial pitches i)) Hrun)
    as (_ & _ & _ & Hall).
  exact Hall.
Qed.

(** X10: the notes of a parsed line are within range.  When
    [buildVoiceFromString] succeeds, every note of the Voice has a frequency
    taken from the pitch table it was given, a start time that is not
    negative, a duration of at least three quarters of the shortest length
    (a 64th note at tempo 256) and less than twice the longest (a whole note
    at tempo 16), and a volume between 0 and 1. *)
Theorem buildVoiceFromString_notes_in_range (text : string)
        (instruments : InstrumentMap) (pitches : list R) (voice : Voice) :
  buildVoiceFromString text instruments pitches = Ok voice ->
  forall n, In n (notes voice) ->
    In (frequency n) pitches /\ 0 <= startTime n
    /\ 240 / (64 * 256) * (3 / 4) <= duration n < 2 * (240 / 16)
    /\ 0 <= volume n <= 1.
Proof.
  intros H n Hn.
  pose proof (buildVoiceFromString_sane text instruments pitches voice H)
    as Hall.
  rewrite Forall_forall in Hall. exact (Hall n Hn).
Qed.

Lemma buildVoiceFromString_notes_in_range_witness :
  exists voice,
    buildVoiceFromString "L64 T256 MS C ^" getDefaultInstrument
                         getStandardTwelveToneEqualNotes = Ok voice
    /\ forall n, In n (notes voice) ->
         In (frequency n) getStandardTwelveToneEqualNotes /\ 0 <= startTime n
         /\ 240 / (64 * 256) * (3 / 4) <= duration n < 2 * (240 / 16)
         /\ 0 <= volume n <= 1.
Proof.
  eexists. split; [run; reflexivity|].
  apply (buildVoiceFromString_notes_in_range
           "L64 T256 MS C ^" getDefaultInstrument
           getStandardTwelveToneEqualNotes).
  run; reflexivity.
Defined.

(** ** Playing a note, a Voice and a Maestro *)

Section PlaybackProperties.

Variable std_hash : R -> Z.

Lemma Note_play_bound (n : Note) (time : R) :
  let e := inst_envelope (instrument n) in
  levelsOrdered e -> 0 < release e ->
  sustainStart e <= duration n -> 0 <= volume n ->
  startTime n <= time <= startTime n + duration n + release e ->
  Rabs (Note_play std_hash n time)
  <= volume n * peakOf e * amplitude (inst_oscillator (instrument n)).
Proof.
  intros e Hlev Hrel Hsus Hvol Htime.
  unfold Note_play, Instrument_note. cbv zeta. fold e.
  set (noteTime := time - startTime n).
  set (releaseTime := if Rlt_dec noteTime (duration n) then -1.0
                      else duration n).
  assert (Hloud : 0 <= loud e noteTime releaseTime <= peakOf e).
  { apply loud_range; [assumption | unfold noteTime; lra |].
    unfold releaseTime.
    destruct (Rlt_dec noteTime (duration n)) as [Hlt|Hge].
    - left. lra.
    - right. unfold noteTime in *. repeat split; try lra. }
  pose proof (amplitude_bounds_note std_hash (inst_oscillator (instrument n))
                (frequency n) noteTime) as Hosc.
  pose proof (Rabs_pos (Oscillator_note std_hash
                          (inst_oscillator (instrument n))
                          (frequency n) noteTime)) as Hpos.
  rewrite !Rabs_mult.
  rewrite (Rabs_pos_eq (volume n)) by assumption.
  rewrite (Rabs_pos_eq (loud e noteTime releaseTime)) by lra.
  rewrite Rmult_assoc.
  apply Rmult_le_compat_l; [assumption|].
  apply Rmult_le_compat; lra.
Qed.

(** X11: a sounding note is never louder than its volume allows.  For a
    note whose envelope has ordered levels and a positive release length,
    whose duration reaches the start of the sustain and whose volume is not
    negative, at every time from its start to the end of its release the
    magnitude of [Note::play] is at most the volume times the envelope's
    peak times the bound of its oscillator (1 for the built-in
    oscillators). *)
Theorem Note_play_within_volume (n : Note) (time : R) :
  let e := inst_envelope (instrument n) in
  levelsOrdered e -> 0 < release e ->
  sustainStart e <= duration n -> 0 <= volume n ->
  startTime n <= time <= startTime n + duration n + release e ->
  Rabs (Note_play std_hash n time)
  <= volume n * peakOf e * amplitude (inst_oscillator (instrument n)).
Proof. exact (Note_play_bound n time). Qed.

Lemma skipPassed_bounds (todo : nat) (l : list Note) (i : nat) (time : R) :
  (i <= List.length l)%nat ->
  (i <= skipPassed todo l i time <= List.length l)%nat.
Proof.
  revert i. induction todo as [|todo IH]; intros i Hi; cbn [skipPassed];
    [lia|].
  destruct (nth_error l i) as [n|] eqn:E; [|lia].
  destruct (after n time); [|lia].
  assert (i < List.length l)%nat by (apply nth_error_Some; congruence).
  specialize (IH (S i)). lia.
Qed.

Lemma activateStarted_bounds (todo : nat) (l : list Note) (i : nat)
      (active : list nat) (time : R) :
  (i <= List.length l)%nat -> Forall (fun p => (p < i)%nat) active ->
  (i <= fst (activateStarted todo l i active time) <= List.length l)%nat
  /\ Forall (fun p => (p < fst (activateStarted todo l i active time))%nat)
            (snd (activateStarted todo l i active time)).
Proof.
  revert i active.
  induction todo as [|todo IH]; intros i active Hi Hact;
    cbn [activateStarted]; [cbn [fst snd]; split; [lia|assumption]|].
  destruct (nth_error l i) as [n|] eqn:E;
    [|cbn [fst snd]; split; [lia|assumption]].
  destruct (before n time);
    [cbn [fst snd]; split; [lia|assumption]|].
  assert (i < List.length l)%nat by (apply nth_error_Some; congruence).
  destruct (IH (S i) (active ++ [i])) as [Hj Hall]; [lia| |].
  - apply Forall_app. split.
    + eapply Forall_impl; [|exact Hact]. cbv beta. intros; lia.
    + constructor; [lia|constructor].
  - split; [lia|exact Hall].
Qed.

(** [Voice::play] is [Voice::endPlay] with the cursor moved on and the notes
    that have started made active. *)
Lemma Voice_play_cursor (v : Voice) (time : R) :
  VoiceOk v ->
  exists j active,
    Voice_play std_hash v time
    = Voice_endPlay std_hash (mkVoice (notes v) j active) time
    /\ (index v <= j <= List.length (notes v))%nat
    /\ Forall (fun p => (p < j)%nat) active
    /\ (forall n, nth_error (notes v) j = Some n -> before n time = true).
Proof.
  intros [Hi Hact]. unfold Voice_play. cbv zeta.
  pose proof (skipPassed_bounds (List.length (notes v)) (notes v) (index v)
                time Hi) as Hskip.
  set (index1 := skipPassed (List.length (notes v)) (notes v) (index v) time)
    in *.
  assert (Hact1 : Forall (fun p => (p < index1)%nat) (activeNotes v)).
  { eapply Forall_impl; [|exact Hact]. cbv beta. intros; lia. }
  destruct (index1 =? List.length (notes v))%nat eqn:Eend.
  - apply Nat.eqb_eq in Eend.
    exists index1, (activeNotes v).
    split; [reflexivity|]. split; [lia|]. split; [assumption|].
    intros n Hn. exfalso.
    assert (index1 < List.length (notes v))%nat
      by (apply nth_error_Some; congruence).
    lia.
  - destruct (nth_error (notes v) index1) as [note1|] eqn:E1.
    + destruct (before note1 time) eqn:Eb.
      * exists index1, (activeNotes v).
        split; [reflexivity|]. split; [lia|]. split; [assumption|].
        intros n Hn. congruence.
      * pose proof (activateStarted_bounds (List.length (notes v)) (notes v)
                      index1 (activeNotes v) time (proj2 Hskip) Hact1)
          as [Hj Hall].
        pose proof (activateStarted_stops (List.length (notes v)) (notes v)
                      index1 (activeNotes v) time ltac:(lia)) as [_ Hstop].
        destruct (activateStarted (List.length (notes v)) (notes v) index1
                    (activeNotes v) time) as [index2 active2].
        cbn [fst snd] in *.
        exists index2, active2.
        split; [reflexivity|]. split; [lia|]. split; [assumption|].
        intros n Hn. now rewrite Hn in Hstop.
    + exists index1, (activeNotes v).
      split; [reflexivity|]. split; [lia|]. split; [assumption|].
      intros n Hn. congruence.
Qed.

(** X12: [Voice::play] keeps the Voice well formed.  From a Voice whose
    cursor is within its notes and whose active pointers point at notes
    before the cursor, a call at any time leaves the notes untouched, the
    cursor no further back and still within the notes, at the end or at a
    note that has not started; every active pointer still points at a note
    before the cursor, one whose release has not ended. *)
Theorem Voice_play_keeps_voice_well_formed (v : Voice) (time : R) :
  VoiceOk v ->
  let v' := snd (Voice_play std_hash v time) in
  VoiceOk v'
  /\ notes v' = notes v
  /\ (index v <= index v')%nat
  /\ (forall n, nth_error (notes v) (index v') = Some n ->
                before n time = true)
  /\ Forall (fun p => exists n, nth_error (notes v) p = Some n
                                /\ after n time = false)
            (activeNotes v').
Proof.
  intros Hok v'.
  destruct (Voice_play_cursor v time Hok)
    as (j & active & E & Hj & Hact & Hstop).
  unfold v'. rewrite E. unfold Voice_endPlay.
  cbn [snd notes index activeNotes].
  assert (Hkept : forall p,
             In p (filter
                     (fun p => match nth_error (notes v) p with
                               | Some note => negb (after note time)
                               | None => true
                               end) active) ->
             (p < j)%nat
             /\ exists n, nth_error (notes v) p = Some n
                          /\ after n time = false).
  { intros p Hp. apply filter_In in Hp as [Hin Hf].
    rewrite Forall_forall in Hact. specialize (Hact p Hin).
    split; [assumption|].
    destruct (nth_error (notes v) p) as [n|] eqn:En.
    - exists n. split; [reflexivity|]. now apply negb_true_iff.
    - exfalso. apply nth_error_None in En. lia. }
  split; [|split; [reflexivity|split; [lia|split; [exact Hstop|]]]].
  - split; [cbn [index notes]; lia|].
    cbn [index activeNotes]. apply Forall_forall. intros p Hp.
    now apply Hkept.
  - apply Forall_forall. intros p Hp. now apply Hkept.
Qed.

Lemma skipPassed_all_passed (todo : nat) (l : list Note) (i : nat)
      (time : R) :
  Forall (fun n => after n time = true) l ->
  (i <= List.length l)%nat -> (List.length l - i <= todo)%nat ->
  skipPassed todo l i time = List.length l.
Proof.
  intros Hall. rewrite Forall_forall in Hall.
  revert i. induction todo as [|todo IH]; intros i Hi Hf; cbn [skipPassed];
    [lia|].
  destruct (nth_error l i) as [n|] eqn:E.
  - rewrite (Hall n (nth_error_In _ _ E)).
    assert (i < List.length l)%nat by (apply nth_error_Some; congruence).
    apply IH; lia.
  - apply nth_error_None in E. lia.
Qed.

Lemma Voice_play_finishes (v : Voice) (time : R) :
  VoiceOk v ->
  Forall (fun n => after n time = true) (notes v) ->
  Voice_finished (snd (Voice_play std_hash v time)) = true.
Proof.
  intros [Hi Hact] Hall. unfold Voice_play. cbv zeta.
  rewrite (skipPassed_all_passed (List.length (notes v)) (notes v) (index v)
             time Hall Hi) by lia.
  rewrite Nat.eqb_refl. unfold Voice_endPlay, Voice_finished.
  cbn [snd notes index activeNotes]. rewrite Nat.eqb_refl. cbn [andb].
  assert (E : filter
                (fun p => match nth_error (notes v) p with
                          | Some note => negb (after note time)
                          | None => true
                          end) (activeNotes v) = []).
  { rewrite Forall_forall in Hall.
    induction Hact as [|p active Hp _ IH]; [reflexivity|].
    cbn [filter].
    destruct (nth_error (notes v) p) as [n|] eqn:En.
    - rewrite (Hall n (nth_error_In _ _ En)). cbn [negb]. exact IH.
    - exfalso. apply nth_error_None in En. lia. }
  rewrite E. reflexivity.
Qed.

(** X13: a Voice ends once every note is over.  From a well-formed Voice,
    one call of [Voice::play] at a time after the end of the release of
    every note leaves the Voice finished: the cursor at the end and no
    active note. *)
Theorem Voice_play_past_the_end_finishes (v : Voice) (time : R) :
  VoiceOk v ->
  Forall (fun n => after n time = true) (notes v) ->
  Voice_finished (snd (Voice_play std_hash v time)) = true.
Proof. exact (Voice_play_finishes v time). Qed.

Lemma Voice_play_finished (v : Voice) (time : R) :
  Voice_finished v = true ->
  Voice_play std_hash v time = (0, v).
Proof.
  unfold Voice_finished. intros H.
  apply andb_true_iff in H as [Hi Ha].
  apply Nat.eqb_eq in Hi, Ha.
  destruct v as [l i active]. cbn [index notes activeNotes] in *.
  destruct active; [|discriminate]. subst i.
  unfold Voice_play. cbv zeta. cbn [index notes activeNotes].
  assert (E : skipPassed (List.length l) l (List.length l) time
              = List.length l).
  { destruct (List.length l) eqn:El; [reflexivity|]. cbn [skipPassed].
    rewrite <- El.
    now rewrite (proj2 (nth_error_None l (List.length l)) (le_n _)). }
  rewrite E, Nat.eqb_refl.
  unfold Voice_endPlay, Voice_playActive.
  cbn [fold_left filter notes index activeNotes].
  f_equal. lra.
Qed.

(** X14: a finished Voice stays silent.  A call of [Voice::play] on a
    finished Voice returns 0 and leaves the Voice as it is, at every
    time. *)
Theorem finished_Voice_stays_silent (v : Voice) (time : R) :
  Voice_finished v = true ->
  Voice_play std_hash v time = (0, v).
Proof. exact (Voice_play_finished v time). Qed.

Lemma playChoir_sum (voices : list Voice) (time sample : R) :
  playChoir std_hash voices time sample
  = (sample
     + sampleSum (map (fun v => fst (Voice_play std_hash v time)) voices),
     map (fun v => snd (Voice_play std_hash v time)) voices).
Proof.
  revert sample. induction voices as [|v rest IH]; intros sample;
    cbn [playChoir map sampleSum fold_right].
  - f_equal. lra.
  - destruct (Voice_play std_hash v time) as [s v'] eqn:E.
    rewrite IH. cbn [fst snd]. f_equal. unfold sampleSum. lra.
Qed.

(** X15: a Maestro plays the mean of its voices.  The sample of
    [Maestro::play] is the sum of the samples [Voice::play] gives for each
    voice at that time, divided by the number of voices, and each voice is
    left as [Voice::play] leaves it on its own; a Maestro with no voice
    plays 0. *)
Theorem Maestro_play_is_the_mean (m : Maestro) (time : R) :
  choir (snd (Maestro_play std_hash m time))
  = map (fun v => snd (Voice_play std_hash v time)) (choir m)
  /\ (choir m = [] -> fst (Maestro_play std_hash m time) = 0)
  /\ (choir m <> [] ->
      fst (Maestro_play std_hash m time)
      = sampleSum (map (fun v => fst (Voice_play std_hash v time)) (choir m))
        / INR (List.length (choir m))).
Proof.
  unfold Maestro_play. destruct m as [voices]. cbn [choir].
  destruct voices as [|v rest].
  - cbn [snd fst choir map]. split; [reflexivity|]. split; [intros _; lra|].
    intros N. now contradiction N.
  - rewrite playChoir_sum. cbn [snd fst choir].
    split; [reflexivity|]. split; [discriminate|].
    intros _. f_equal. lra.
Qed.

Lemma Maestro_finished_forallb (voices : list Voice) (b : bool) :
  fold_left (fun result voice => result && Voice_finished voice) voices b
  = b && forallb Voice_finished voices.
Proof.
  revert b. induction voices as [|v rest IH]; intros b; cbn [fold_left forallb].
  - now rewrite andb_true_r.
  - rewrite IH. now rewrite andb_assoc.
Qed.

(** X16: a Maestro is finished when all its voices are.
    [Maestro::finished] holds exactly when [Voice::finished] holds of every
    voice; then [Maestro::play] returns 0 and changes nothing, and after
    [Maestro::loop] the Maestro is finished only when no voice has a
    note. *)
Theorem Maestro_finished_iff_all_voices (m : Maestro) (time : R) :
  (Maestro_finished m = true
   <-> Forall (fun v => Voice_finished v = true) (choir m))
  /\ (Maestro_finished m = true -> Maestro_play std_hash m time = (0, m))
  /\ (Maestro_finished (Maestro_loop m) = true
      <-> Forall (fun v => notes v = []) (choir m)).
Proof.
  assert (Hall : forall m',
             Maestro_finished m' = true
             <-> Forall (fun v => Voice_finished v = true) (choir m')).
  { intros m'. unfold Maestro_finished. rewrite Maestro_finished_forallb.
    cbn [andb]. rewrite forallb_forall, Forall_forall. reflexivity. }
  split; [apply Hall|]. split.
  - intros Hfin. apply Hall in Hfin. rewrite Forall_forall in Hfin.
    unfold Maestro_play. destruct m as [voices]. cbn [choir] in *.
    destruct voices as [|v rest]; [f_equal; lra|].
    rewrite playChoir_sum.
    assert (E : forall l,
               (forall x, In x l -> Voice_finished x = true) ->
               map (fun v => snd (Voice_play std_hash v time)) l = l
               /\ sampleSum (map (fun v => fst (Voice_play std_hash v time)) l)
                  = 0).
    { induction l as [|x l IH]; intros Hl; [split; reflexivity|].
      cbn [map sampleSum fold_right].
      rewrite (Voice_play_finished x time (Hl x (or_introl eq_refl))).
      cbn [fst snd].
      destruct IH as [E1 E2]; [intros y Hy; apply Hl; now right|].
      unfold sampleSum in E2. rewrite E1, E2. split; [reflexivity|lra]. }
    destruct (E (v :: rest) Hfin) as [E1 E2].
    rewrite E1, E2. f_equal. unfold Rdiv. lra.
  - rewrite Hall. unfold Maestro_loop. cbn [choir].
    rewrite Forall_map, !Forall_forall.
    assert (E : forall v,
               Voice_finished (Voice_loop v) = true <-> notes v = []).
    { intros v. unfold Voice_finished, Voice_loop.
      cbn [index notes activeNotes List.length].
      rewrite Nat.eqb_refl, andb_true_r, Nat.eqb_eq.
      destruct (notes v); cbn [List.length]; split;
        congruence || discriminate. }
    split; intros H v Hv; apply E, H, Hv.
Qed.

Lemma notes_end (l : list Note) :
  exists T, forall time, T < time -> Forall (fun n => after n time = true) l.
Proof.
  induction l as [|n l [T IH]].
  - exists 0. intros. constructor.
  - exists (Rmax T (startTime n + duration n
                    + Instrument_release (instrument n))).
    intros time Ht.
    pose proof (Rmax_l T (startTime n + duration n
                          + Instrument_release (instrument n))).
    pose proof (Rmax_r T (startTime n + duration n
                          + Instrument_release (instrument n))).
    constructor; [|apply IH; lra].
    unfold after. destruct (Rlt_dec _ time) as [_|N]; [reflexivity|].
    exfalso. apply N. lra.
Qed.

(** X25: every song ends.  For a Maestro whose voices are well formed
    there is a time beyond which a single call of [Maestro::play] leaves
    every voice, and so the Maestro, finished. *)
Theorem every_song_ends (m : Maestro) :
  Forall VoiceOk (choir m) ->
  exists T, forall time,
    T < time -> Maestro_finished (snd (Maestro_play std_hash m time)) = true.
Proof.
  destruct m as [voices]. cbn [choir]. intros Hok.
  assert (Hend : exists T, forall time,
               T < time ->
               Forall (fun v => Forall (fun n => after n time = true)
                                       (notes v)) voices).
  { clear Hok. induction voices as [|v rest [T IH]].
    - exists 0. intros. constructor.
    - destruct (notes_end (notes v)) as [T0 H0].
      exists (Rmax T T0). intros time Ht.
      pose proof (Rmax_l T T0). pose proof (Rmax_r T T0).
      constructor; [apply H0; lra|apply IH; lra]. }
  destruct Hend as [T Hend]. exists T. intros time Ht.
  specialize (Hend time Ht).
  unfold Maestro_finished, Maestro_play. cbn [choir].
  destruct voices as [|v rest]; [reflexivity|].
  rewrite playChoir_sum. cbn [snd choir].
  rewrite Maestro_finished_forallb. cbn [andb].
  apply forallb_forall. intros v' Hin.
  apply in_map_iff in Hin as (v0 & <- & Hin0).
  rewrite Forall_forall in Hok, Hend.
  apply Voice_play_finishes; [apply Hok|apply Hend]; assumption.
Qed.

End PlaybackProperties.

Lemma Note_play_within_volume_witness :
  Rabs (Note_play (fun _ => 0%Z)
          (mkNote makeSquareWaveInstrument 440 0 1 0.5) 0.5)
  <= 0.5 * 1.0 * 1.
Proof.
  apply (Note_play_within_volume (fun _ => 0%Z)
           (mkNote makeSquareWaveInstrument 440 0 1 0.5) 0.5);
    cbn; lra.
Defined.

Lemma Voice_play_keeps_voice_well_formed_witness :
  let v := newVoice [mkNote makeSquareWaveInstrument 440 0 1 0.5] in
  notes (snd (Voice_play (fun _ => 0%Z) v 0.5)) = notes v.
Proof.
  intros v.
  apply (Voice_play_keeps_voice_well_formed (fun _ => 0%Z) v 0.5).
  split; [cbn; lia|constructor].
Defined.

Lemma Voice_play_past_the_end_finishes_witness :
  Voice_finished
    (snd (Voice_play (fun _ => 0%Z)
            (newVoice [mkNote makeSquareWaveInstrument 440 0 1 0.5]) 2))
  = true.
Proof.
  apply (Voice_play_past_the_end_finishes (fun _ => 0%Z)
           (newVoice [mkNote makeSquareWaveInstrument 440 0 1 0.5]) 2).
  - split; [cbn; lia|constructor].
  - constructor; [|constructor].
    unfold after. cbn [startTime duration instrument].
    destruct (Rlt_dec _ _) as [_|N]; [reflexivity|].
    exfalso. apply N. cbn. lra.
Defined.

Lemma every_song_ends_witness :
  exists T, forall time,
    T < time ->
    Maestro_finished (snd (Maestro_play (fun _ => 0%Z) oneNoteSong time))
    = true.
Proof.
  apply (every_song_ends (fun _ => 0%Z) oneNoteSong).
  constructor; [|constructor]. split; [cbn; lia|constructor].
Defined.

Lemma finished_Voice_stays_silent_witness :
  Voice_play (fun _ => 0%Z) (newVoice []) 1 = (0, newVoice []).
Proof.
  apply (finished_Voice_stays_silent (fun _ => 0%Z) (newVoice []) 1).
  reflexivity.
Defined.

(** ** Building a Maestro from text *)

Lemma buildVoiceFromString_fresh (line : string) (instruments : InstrumentMap)
      (pitches : list R) (v : Voice) :
  buildVoiceFromString line instruments pitches = Ok v ->
  index v = 0%nat /\ activeNotes v = [].
Proof.
  unfold buildVoiceFromString.
  destruct (runParser line instruments pitches) as [[ps sp]| | |];
    cbn [bind]; try discriminate.
  intros E. injection E as <-. split; reflexivity.
Qed.

Lemma buildChoir_voices (instruments : InstrumentMap) (music : list string) :
  forall (choir0 choir1 : list Voice),
    buildChoir music instruments choir0 = Ok choir1 ->
    exists added,
      choir1 = choir0 ++ added
      /\ (List.length added <= List.length music)%nat
      /\ Forall (fun v =>
                   notes v <> [] /\ index v = 0%nat /\ activeNotes v = []
                   /\ exists line,
                        In line music
                        /\ buildVoiceFromString
                             line instruments getStandardTwelveToneEqualNotes
                           = Ok v)
                added.
Proof.
  induction music as [|line rest IH]; intros choir0 choir1 H;
    cbn [buildChoir] in H.
  - injection H as <-. exists []. rewrite app_nil_r.
    split; [reflexivity|]. split; [cbn; lia|constructor].
  - destruct (buildVoiceFromString line instruments
                getStandardTwelveToneEqualNotes) as [v| | |] eqn:Ev;
      cbn [bind] in H; try discriminate.
    apply IH in H as (added & E & Hlen & Hall).
    assert (Hrest : Forall
                      (fun v0 =>
                         notes v0 <> [] /\ index v0 = 0%nat
                         /\ activeNotes v0 = []
                         /\ exists line0,
                              In line0 (line :: rest)
                              /\ buildVoiceFromString
                                   line0 instruments
                                   getStandardTwelveToneEqualNotes
                                 = Ok v0) added).
    { eapply Forall_impl; [|exact Hall]. cbv beta.
      intros v0 (H1 & H2 & H3 & line0 & Hin & Hb).
      repeat split; try assumption.
      exists line0. split; [now right|exact Hb]. }
    destruct (Voice_finished v) eqn:Efin.
    + exists added. split; [exact E|]. split; [cbn; lia|exact Hrest].
    + exists (v :: added). split; [rewrite E, <- app_assoc; reflexivity|].
      split; [cbn; lia|]. constructor; [|exact Hrest].
      destruct (buildVoiceFromString_fresh _ _ _ _ Ev) as [Hi Ha].
      split; [|split; [exact Hi|split; [exact Ha|]]].
      * intros E0. unfold Voice_finished in Efin.
        rewrite Hi, Ha, E0 in Efin. discriminate.
      * exists line. split; [now left|exact Ev].
Qed.

(** X17: the voices of a Maestro built from text.  When the constructor
    succeeds, every voice of the Maestro is the Voice
    [buildVoiceFromString] returns for one of the lines, has at least one
    note, its cursor at the start and no active note; there are no more
    voices than lines, and the Maestro is finished exactly when it has no
    voice at all. *)
Theorem newMaestro_voices (music : list string) (instruments : InstrumentMap)
        (m : Maestro) :
  newMaestro music instruments = Ok m ->
  Forall (fun v =>
            notes v <> [] /\ index v = 0%nat /\ activeNotes v = []
            /\ exists line,
                 In line music
                 /\ buildVoiceFromString
                      line instruments getStandardTwelveToneEqualNotes
                    = Ok v)
         (choir m)
  /\ (List.length (choir m) <= List.length music)%nat
  /\ (Maestro_finished m = true <-> choir m = []).
Proof.
  unfold newMaestro. intros H.
  destruct (buildChoir music instruments []) as [voices| | |] eqn:Ec;
    cbn [bind] in H; try discriminate.
  injection H as <-. cbn [choir].
  apply buildChoir_voices in Ec as (added & -> & Hlen & Hall).
  cbn [app]. split; [exact Hall|]. split; [exact Hlen|].
  unfold Maestro_finished. cbn [choir].
  rewrite Maestro_finished_forallb. cbn [andb].
  destruct added as [|v rest]; [split; reflexivity|].
  split; [|discriminate].
  inversion Hall as [|? ? (Hn & Hi & Ha & _) _]; subst.
  cbn [forallb]. unfold Voice_finished at 1. rewrite Hi.
  destruct (notes v); [contradiction|discriminate].
Qed.

Lemma newMaestro_voices_witness :
  exists m,
    newMaestro ["C"; "  "; "E"]%string getDefaultInstrument = Ok m
    /\ (List.length (choir m) <= 3)%nat
    /\ (Maestro_finished m = true <-> choir m = []).
Proof.
  eexists. split; [run; reflexivity|].
  apply (newMaestro_voices ["C"; "  "; "E"]%string getDefaultInstrument).
  run; reflexivity.
Defined.

(** ** The Venue: the end of a song *)

Lemma Voice_play_notes (std_hash : R -> Z) (v : Voice) (time : R) :
  notes (snd (Voice_play std_hash v time)) = notes v.
Proof.
  unfold Voice_play. cbv zeta.
  destruct (_ =? _)%nat; [reflexivity|].
  destruct (nth_error _ _) as [n|]; [|reflexivity].
  destruct (before n time); [reflexivity|].
  destruct (activateStarted _ _ _ _ _). reflexivity.
Qed.

Lemma Maestro_play_score (std_hash : R -> Z) (m : Maestro) (time : R) :
  score (snd (Maestro_play std_hash m time)) = score m.
Proof.
  unfold Maestro_play, score. destruct m as [voices]. cbn [choir].
  destruct voices as [|v rest]; [reflexivity|].
  rewrite playChoir_sum. cbn [snd choir].
  rewrite map_map. apply map_ext. intros a. apply Voice_play_notes.
Qed.

Lemma Maestro_loop_score (m : Maestro) : score (Maestro_loop m) = score m.
Proof.
  unfold Maestro_loop, score. cbn [choir]. rewrite map_map.
  apply map_ext. reflexivity.
Qed.

Section VenueSongs.

Variable std_hash : R -> Z.
Variable Hollaback : Type.
Variable call : Hollaback -> Venue Hollaback -> Venue Hollaback.

(** X18: what happens when the song at the front has finished.  With no
    stop requested and looping off, the call of [getSample] that finds the
    front song finished removes it and, in the same call, plays the next
    song at time 0; with looping on, it rewinds the front song and plays it
    at time 0, leaving the rest of the queue alone. *)
Theorem getSample_at_the_end_of_a_song
        (v : Venue Hollaback) (globalTime timeDelta : R)
        (front : Maestro) (rest : list Maestro) :
  stopPlaying v = false ->
  program v = front :: rest ->
  Maestro_finished front = true ->
  (looping v = true ->
   getSample std_hash call 0 globalTime timeDelta v
   = (fst (Maestro_play std_hash (Maestro_loop front) 0),
      mkVenue (snd (Maestro_play std_hash (Maestro_loop front) 0) :: rest)
              false true 0 (hollaback v)))
  /\ (forall next later,
        looping v = false -> rest = next :: later ->
        getSample std_hash call 0 globalTime timeDelta v
        = (fst (Maestro_play std_hash next 0),
           mkVenue (snd (Maestro_play std_hash next 0) :: later)
                   false false 0 (hollaback v)))
  /\ (looping v = false -> rest = [] -> hollaback v = None ->
      getSample std_hash call 0 globalTime timeDelta v
      = (0, mkVenue [] false false (-1) None)).
Proof.
  intros Hstop Hprog Hfin.
  assert (G : getSample std_hash call 0 globalTime timeDelta v
              = playSample std_hash call timeDelta v).
  { unfold getSample, stopBlock. cbn [Z.eqb negb]. now rewrite Hstop. }
  rewrite G. unfold playSample. rewrite Hprog, Hfin.
  split; [|split].
  - intros Hloop. rewrite Hloop, Hstop. cbn [program hollaback internalTime
                                               stopPlaying looping].
    destruct (Req_dec_T (-1.0) (-1.0)) as [_|N]; [|now contradiction N].
    replace 0.0 with 0 by lra.
    destruct (Maestro_play std_hash (Maestro_loop front) 0)
      as [sample front'].
    reflexivity.
  - intros next later Hloop ->. rewrite Hloop, Hstop.
    cbn [program hollaback internalTime stopPlaying looping].
    destruct (Req_dec_T (-1.0) (-1.0)) as [_|N]; [|now contradiction N].
    replace 0.0 with 0 by lra.
    destruct (Maestro_play std_hash next 0) as [sample front'].
    reflexivity.
  - intros Hloop -> Hnone. rewrite Hloop, Hstop, Hnone.
    cbn [program hollaback]. f_equal; [lra|]. f_equal. lra.
Qed.

Lemma getSample_keeps_looping (v : Venue Hollaback)
      (globalTime timeDelta : R) :
  stopPlaying v = false -> looping v = true ->
  let v' := snd (getSample std_hash call 0 globalTime timeDelta v) in
  map score (program v') = map score (program v)
  /\ tl (program v') = tl (program v)
  /\ stopPlaying v' = false /\ looping v' = true
  /\ hollaback v' = hollaback v.
Proof.
  intros Hstop Hloop. unfold getSample, stopBlock. cbn [Z.eqb negb].
  rewrite Hstop. unfold playSample.
  destruct (program v) as [|front rest] eqn:Hprog.
  - cbn [snd]. rewrite Hprog. repeat split; assumption.
  - rewrite Hloop.
    destruct (Maestro_finished front).
    + cbn [program hollaback internalTime stopPlaying looping].
      lazymatch goal with
      | |- context [Maestro_play std_hash ?m ?t] =>
          destruct (Maestro_play std_hash m t) as [sample front'] eqn:E
      end.
      cbn [snd program stopPlaying looping hollaback tl map].
      repeat split; try reflexivity; try assumption.
      f_equal.
      change front' with (snd (sample, front')). rewrite <- E.
      now rewrite Maestro_play_score, Maestro_loop_score.
    + repeat rewrite Hprog.
      lazymatch goal with
      | |- context [Maestro_play std_hash ?m ?t] =>
          destruct (Maestro_play std_hash m t) as [sample front'] eqn:E
      end.
      cbn [snd program stopPlaying looping hollaback tl map].
      repeat split; try reflexivity; try assumption.
      f_equal.
      change front' with (snd (sample, front')). rewrite <- E.
      now rewrite Maestro_play_score.
Qed.

(** X19: a looping Venue never moves on.  With looping on and no stop
    requested, after any number of calls of [getSample] on channel 0 the
    queue holds the same songs with the same notes, everything behind the
    front song is exactly as it was, and the flags and the callback are
    unchanged: a song queued behind a looping one is never reached. *)
Theorem looping_Venue_never_moves_on
        (count k : nat) (globalTimeOf : nat -> R) (timeDelta : R)
        (v : Venue Hollaback) :
  stopPlaying v = false -> looping v = true ->
  let v' := snd (getSamples std_hash call count k globalTimeOf timeDelta v) in
  map score (program v') = map score (program v)
  /\ tl (program v') = tl (program v)
  /\ stopPlaying v' = false /\ looping v' = true
  /\ hollaback v' = hollaback v.
Proof.
  revert k v. induction count as [|count IH]; intros k v Hstop Hloop;
    cbn [getSamples].
  - cbn [snd]. repeat split; assumption.
  - pose proof (getSample_keeps_looping v (globalTimeOf k) timeDelta
                  Hstop Hloop) as H.
    destruct (getSample std_hash call 0 (globalTimeOf k) timeDelta v)
      as [sample v1].
    cbn [snd] in H. destruct H as (H1 & H2 & H3 & H4 & H5).
    specialize (IH (S k) v1 H3 H4).
    destruct (getSamples std_hash call count (S k) globalTimeOf timeDelta v1)
      as [samples v2].
    cbn [snd] in *. destruct IH as (I1 & I2 & I3 & I4 & I5).
    repeat split; congruence.
Qed.

End VenueSongs.

Lemma getSample_at_the_end_of_a_song_witness :
  getSample (fun _ => 0%Z) queueSong 0 7 (1 / 44100)
            (mkVenue [mkMaestro []; oneNoteSong] false false 3 None)
  = (fst (Maestro_play (fun _ => 0%Z) oneNoteSong 0),
     mkVenue [snd (Maestro_play (fun _ => 0%Z) oneNoteSong 0)]
             false false 0 None).
Proof.
  apply (getSample_at_the_end_of_a_song (fun _ => 0%Z) Maestro queueSong
           (mkVenue [mkMaestro []; oneNoteSong] false false 3 None)
           7 (1 / 44100) (mkMaestro []) [oneNoteSong]
           eq_refl eq_refl eq_refl);
    reflexivity.
Defined.

Lemma looping_Venue_never_moves_on_witness :
  tl (program
        (snd (getSamples (fun _ => 0%Z) queueSong 3 0 (fun _ => 0)
                (1 / 44100)
                (mkVenue [mkMaestro []; oneNoteSong] false true (-1) None))))
  = [oneNoteSong].
Proof.
  apply (looping_Venue_never_moves_on (fun _ => 0%Z) Maestro queueSong
           3 0 (fun _ => 0) (1 / 44100)
           (mkVenue [mkMaestro []; oneNoteSong] false true (-1) None)
           eq_refl eq_refl).
Defined.

(** ** The parser: the instruments of the notes *)

(** Close the goal left when a command returns: the instrument is the one
    it was, one found in the map or a built-in one, and a new note has the
    current instrument. *)
Ltac known :=
  ztests;
  match goal with
  | H : InstrumentsKnown _ _ |- _ => destruct H as [? ?]
  end;
  unfold InstrumentsKnown;
  cbn [currentInstrument emitted setOctave setTempo setBeatNote
       setArticulation setVolume setInstrument advanceTime emplaceNote];
  split;
  [ first
      [ assumption
      | left; eexists; eassumption
      | right; unfold builtIn;
        first
          [ left; reflexivity
          | right; left; reflexivity
          | right; right; left; reflexivity
          | right; right; right; left; reflexivity
          | right; right; right; right; left; reflexivity
          | right; right; right; right; right;
            eexists; split; [|reflexivity]; lia ] ]
  | first
      [ assumption
      | apply Forall_app; split;
        [assumption | constructor; [assumption|constructor]] ] ].

Lemma instrumentCommand_known (instruments : InstrumentMap) (ps : PState) sp :
  InstrumentsKnown instruments ps ->
  post (instrumentCommand instruments ps) sp
       (fun ps' _ => InstrumentsKnown instruments ps').
Proof.
  intros Hk. unfold instrumentCommand.
  repeat (pstep || (apply post_getNumber; intros ? ? ? ?)); known.
Qed.

Lemma volumeCommand_known (instruments : InstrumentMap) (ps : PState) sp :
  InstrumentsKnown instruments ps ->
  post (volumeCommand ps) sp (fun ps' _ => InstrumentsKnown instruments ps').
Proof.
  intros Hk. unfold volumeCommand, optionalSemicolon.
  repeat (pstep || (apply post_getNumber; intros ? ? ? ?)); known.
Qed.

Lemma musicCommand_known (instruments : InstrumentMap) (ps : PState) sp :
  InstrumentsKnown instruments ps ->
  post (musicCommand ps) sp (fun ps' _ => InstrumentsKnown instruments ps').
Proof.
  intros Hk. unfold musicCommand. repeat pstep; known.
Qed.

Lemma rawNoteCommand_known (instruments : InstrumentMap) (pitches : list R)
      (ps : PState) sp :
  InstrumentsKnown instruments ps ->
  post (rawNoteCommand pitches ps) sp
       (fun ps' _ => InstrumentsKnown instruments ps').
Proof.
  intros Hk. unfold rawNoteCommand.
  repeat (pstep || (apply post_getNumber; intros ? ? ? ?)
          || (apply post_pitchAt; intros ? ?)); known.
Qed.

Lemma restCommand_known (instruments : InstrumentMap) (ps : PState) sp :
  PStateOk ps -> InstrumentsKnown instruments ps ->
  post (restCommand ps) sp (fun ps' _ => InstrumentsKnown instruments ps').
Proof.
  intros Hok Hk. pose proof (PStateOk_noteLength ps Hok) as Hlen.
  pose proof Hok as (Ho & Hb & Ht & Hn & _).
  unfold restCommand. do 5 pstep.
  assert (Hdots : forall tempLength spd,
             0 < tempLength ->
             post (fuel <~ loopFuel ;;
                   total <~ dotsLoop fuel tempLength (tempLength * 0.5) ;;
                   ret (advanceTime ps total))%parser spd
                  (fun ps' _ => InstrumentsKnown instruments ps')).
  { intros tempLength spd Hl. do 3 pstep.
    apply dotsLoop_post;
      [apply fuelOf_enough, ahead_refl | assumption | lra |].
    intros total spn _ Htot. pstep. known. }
  pstep.
  - pstep. apply post_getNumber. intros length spn _ Hlen'. pstep; [pstep|].
    ztests. pstep. apply Hdots. apply seconds_positive. nia.
  - pstep. apply Hdots. assumption.
Qed.

Lemma noteCommand_known (instruments : InstrumentMap) (pitches : list R)
      (ps : PState) sp :
  PStateOk ps -> InstrumentsKnown instruments ps ->
  post (noteCommand pitches ps) sp
       (fun ps' _ => InstrumentsKnown instruments ps').
Proof.
  intros Hok Hk. pose proof (PStateOk_noteLength ps Hok) as Hlen.
  pose proof Hok as (Ho & Hb & Ht & Hn & _).
  unfold noteCommand. do 5 pstep.
  apply modifiersLoop_post; [lia | apply fuelOf_enough, ahead_refl | |].
  { pose proof (semitone_range (peeked sp)).
    unfold NoteTempOk, totalNotes, notesPerOctave, octavesImplemented in *.
    cbn [tempLength nextDot note]. repeat split; try lra; lia. }
  intros nt spn _ _.
  pstep. apply post_pitchAt. intros f Hf. pstep.
  destruct (advance nt); known.
Qed.

Lemma command_known (instruments : InstrumentMap) (pitches : list R)
      (ps : PState) sp :
  PStateOk ps -> InstrumentsKnown instruments ps ->
  post (command instruments pitches ps) sp
       (fun ps' _ => InstrumentsKnown instruments ps').
Proof.
  intros Hok Hk. unfold command. do 2 pstep.
  pstep; [now apply noteCommand_known|].
  pstep; [solve [repeat pstep; known]|].
  pstep; [solve [repeat pstep; known]|].
  pstep; [solve [repeat (pstep || (apply post_getNumber; intros ? ? ? ?));
                 known]|].
  pstep; [solve [repeat (pstep || (apply post_getNumber; intros ? ? ? ?));
                 known]|].
  pstep; [solve [repeat (pstep || (apply post_getNumber; intros ? ? ? ?));
                 known]|].
  pstep; [now apply rawNoteCommand_known|].
  pstep; [now apply restCommand_known|].
  pstep; [now apply musicCommand_known|].
  pstep; [now apply instrumentCommand_known|].
  pstep; [now apply volumeCommand_known|].
  pstep.
Qed.

Lemma commandLoop_known (instruments : InstrumentMap) (pitches : list R)
      (fuel : nat) :
  forall (ps : PState) sp,
    (remaining sp < fuel)%nat -> PStateOk ps ->
    InstrumentsKnown instruments ps ->
    post (commandLoop fuel instruments pitches ps) sp
         (fun ps' _ => InstrumentsKnown instruments ps').
Proof.
  induction fuel as [|fuel IH]; intros ps sp Hf Hok Hk; [lia|].
  cbn [commandLoop]. do 3 pstep.
  - pstep. assumption.
  - pstep.
    eapply post_weaken;
      [|apply post_conj;
        [apply command_post; assumption
        |apply (command_known instruments pitches); assumption]].
    cbv beta. intros ps' sp' [(Hok' & Ha & _) Hk'].
    apply IH; [positions|assumption|assumption].
Qed.

Lemma buildVoiceFromString_known (text : string)
      (instruments : InstrumentMap) (pitches : list R) (voice : Voice) :
  buildVoiceFromString text instruments pitches = Ok voice ->
  Forall (fun n => knownInstrument instruments (instrument n)) (notes voice).
Proof.
  unfold buildVoiceFromString. intros H.
  destruct (runParser text instruments pitches) as [[ps sp]| | |] eqn:Hrun;
    cbn [bind] in H; try discriminate.
  injection H as <-. cbn [notes newVoice].
  unfold runParser in Hrun.
  destruct (negb _); [discriminate|].
  destruct (instruments_find instruments NUL) as [i|] eqn:Ei; [|discriminate].
  destruct (newStringProcessor text) as [sp0| | |]; cbn [bind] in Hrun;
    try discriminate.
  assert (Hk0 : InstrumentsKnown instruments (initialPState i)).
  { split; [left; exists NUL; exact Ei|constructor]. }
  exact (proj2 (post_ok _ _ _ _ _
                  (commandLoop_known instruments pitches (fuelOf sp0)
                     (initialPState i) sp0
                     (fuelOf_enough sp0 sp0 (ahead_refl sp0))
                     (PStateOk_initial i) Hk0) Hrun)).
Qed.

Lemma builtIn_sound (i : Instrument) :
  builtIn i ->
  inst_envelope i = defaultAREnvelope /\ amplitude (inst_oscillator i) = 1.
Proof.
  intros [-> | [-> | [-> | [-> | [-> | (d & _ & ->)]]]]];
    split; reflexivity.
Qed.

(** X20: the instruments and the loudness of parsed notes.  When
    [buildVoiceFromString] succeeds, the instrument of every note is one
    found in the instrument map or one the parser makes itself (square,
    triangle, sine, saw, noise, or rectangular with a duty cycle of 1 to 99
    hundredths).  A note with one of the latter is long enough for its
    attack to be over when it is released, and from its start to the end of
    its release the magnitude of [Note::play] is at most the note's volume,
    itself at most 1. *)
Theorem parsed_notes_play_within_volume (text : string)
        (instruments : InstrumentMap) (pitches : list R) (voice : Voice) :
  buildVoiceFromString text instruments pitches = Ok voice ->
  forall n, In n (notes voice) ->
    knownInstrument instruments (instrument n)
    /\ (builtIn (instrument n) ->
        sustainStart (inst_envelope (instrument n)) <= duration n
        /\ forall (std_hash : R -> Z) (time : R),
             startTime n <= time
             <= startTime n + duration n
                + release (inst_envelope (instrument n)) ->
             Rabs (Note_play std_hash n time) <= volume n <= 1).
Proof.
  intros H n Hn.
  pose proof (buildVoiceFromString_known _ _ _ _ H) as Hk.
  pose proof (buildVoiceFromString_sane _ _ _ _ H) as Hs.
  rewrite Forall_forall in Hk, Hs.
  split; [exact (Hk n Hn)|].
  intros Hb. destruct (builtIn_sound _ Hb) as [He Ha].
  destruct (Hs n Hn) as (_ & _ & [Hd _] & Hv).
  assert (Hsus : sustainStart (inst_envelope (instrument n)) <= duration n).
  { rewrite He. unfold shortestLength in Hd. cbn [sustainStart defaultAREnvelope].
    lra. }
  split; [exact Hsus|].
  intros std_hash time Ht. split; [|lra].
  pose proof (Note_play_bound std_hash n time) as B. cbv zeta in B.
  rewrite Ha, He in B. rewrite He in Ht.
  cbn [peakOf defaultAREnvelope levelsOrdered release sustainStart] in B, Ht.
  assert (E : volume n * 1.0 * 1 = volume n) by lra. rewrite <- E.
  apply B; try lra. rewrite He in Hsus. exact Hsus.
Qed.

Lemma parsed_notes_play_within_volume_witness :
  exists voice,
    buildVoiceFromString "IP25 C" getDefaultInstrument
                         getStandardTwelveToneEqualNotes = Ok voice
    /\ forall n, In n (notes voice) ->
         knownInstrument getDefaultInstrument (instrument n)
         /\ (builtIn (instrument n) ->
             sustainStart (inst_envelope (instrument n)) <= duration n
             /\ forall (std_hash : R -> Z) (time : R),
                  startTime n <= time
                  <= startTime n + duration n
                     + release (inst_envelope (instrument n)) ->
                  Rabs (Note_play std_hash n time) <= volume n <= 1).
Proof.
  eexists. split; [run; reflexivity|].
  apply (parsed_notes_play_within_volume
           "IP25 C" getDefaultInstrument getStandardTwelveToneEqualNotes).
  run; reflexivity.
Defined.

(** ** The string processor: numbers *)

Lemma decimalFrom_grows (digits : list ascii) :
  forall number,
    (0 <= number)%Z -> Forall (fun d => isdigit d = true) digits ->
    (number <= decimalFrom number digits)%Z.
Proof.
  induction digits as [|d r IH]; intros number Hn Hall;
    unfold decimalFrom; cbn [fold_left]; [lia|].
  inversion Hall as [|? ? Hd Hr]; subst.
  pose proof (isdigit_value d Hd).
  specialize (IH (number * 10 + (charValue d - charValue "0"))%Z
                 ltac:(lia) Hr).
  unfold decimalFrom in IH. lia.
Qed.

Lemma digitRun_digits (l : list ascii) :
  Forall (fun d => isdigit d = true) (digitRun l).
Proof.
  induction l as [|c r IH]; cbn [digitRun]; [constructor|].
  destruct (isdigit c) eqn:E; constructor; assumption.
Qed.

Lemma pending_viewOf (sp : StringProcessor) (l : list ascii) :
  view sp = viewOf l -> pending sp = l.
Proof.
  unfold view, pending. destruct l as [|c r]; cbn [viewOf]; intros E;
    injection E as -> E2 E3; [reflexivity|]. now rewrite E2, E3.
Qed.

Lemma atChar_digit (sp : StringProcessor) :
  atChar sp -> isdigit (peeked sp) = true -> done sp = false.
Proof.
  unfold done. intros [[_ E] | (c & Hc & _)] Hd.
  - rewrite E in Hd. discriminate.
  - apply get_Some_lt in Hc. apply Nat.eqb_neq. lia.
Qed.

Lemma getNumberLoop_decimal (fuel : nat) :
  forall (number : Z) (firstChar : bool) (sp : StringProcessor),
    (remaining sp < fuel)%nat -> inBounds sp -> atChar sp ->
    (0 <= number <= INT_MAX)%Z ->
    match getNumberLoop fuel number firstChar sp with
    | Ok (n, sp') =>
        n = decimalFrom number (digitRun (pending sp))
        /\ (0 <= n <= INT_MAX)%Z
        /\ (firstChar = true -> digitRun (pending sp) <> [])
        /\ pending sp' = afterDigits (pending sp)
        /\ input sp' = input sp /\ inBounds sp' /\ atChar sp'
    | Throw what =>
        firstChar = true /\ digitRun (pending sp) = []
        /\ what = "Command requires value, none given."%string
    | Undefined =>
        (INT_MAX < decimalFrom number (digitRun (pending sp)))%Z
    | OutOfFuel => False
    end.
Proof.
  induction fuel as [|fuel IH]; intros number firstChar sp Hf Hb Hat Hn;
    [lia|].
  cbn [getNumberLoop]. unfold mbind at 1, peek.
  destruct (isdigit (peeked sp)) eqn:Ed.
  - pose proof (atChar_digit sp Hat Ed) as Hdone.
    destruct (consume_before_end sp Hb Hdone)
      as (sp1 & Ec & Hb1 & Hat1 & Hs & Hv).
    apply pending_viewOf in Hv.
    unfold mbind at 1. rewrite Ec.
    assert (Hpend : pending sp = peeked sp :: upcoming sp)
      by (unfold pending; now rewrite Hdone).
    rewrite Hpend. cbn [digitRun afterDigits]. rewrite Ed.
    change (decimalFrom number (peeked sp :: digitRun (upcoming sp)))
      with (decimalFrom
              (number * 10 + (charValue (peeked sp) - charValue "0"))
              (digitRun (upcoming sp))).
    pose proof (isdigit_value _ Ed) as Hval.
    unfold mbind at 1, int.
    destruct ((- INT_MAX - 1 <=? _) && (_ <=? INT_MAX))%Z eqn:Erange.
    + apply andb_true_iff in Erange as [_ Hhi]. apply Z.leb_le in Hhi.
      unfold ret at 1.
      specialize (IH (number * 10
                      + (charValue (peeked sp) - charValue "0"))%Z
                     false sp1 ltac:(positions) Hb1 Hat1 ltac:(lia)).
      rewrite Hv in IH.
      destruct (getNumberLoop fuel _ false sp1) as [[n sp']| | |];
        try assumption.
      * destruct IH as (E & Hr & _ & Hp & Hi & Hb' & Hat').
        split; [exact E|]. split; [exact Hr|].
        split; [discriminate|]. split; [exact Hp|].
        split; [|split; assumption].
        destruct Hs as [Hin _]. congruence.
      * destruct IH as [IH _]. discriminate.
    + unfold undefined.
      pose proof (decimalFrom_grows (digitRun (upcoming sp))
                    (number * 10
                     + (charValue (peeked sp) - charValue "0"))%Z
                    ltac:(lia) (digitRun_digits _)) as Hg.
      apply andb_false_iff in Erange as [E|E];
        [apply Z.leb_gt in E|apply Z.leb_gt in E]; unfold INT_MAX in *; lia.
  - assert (Hrun : digitRun (pending sp) = []
                   /\ afterDigits (pending sp) = pending sp).
    { unfold pending. destruct (done sp); [split; reflexivity|].
      cbn [digitRun afterDigits]. rewrite Ed. split; reflexivity. }
    destruct Hrun as [Hr Ha]. rewrite Hr, Ha.
    destruct firstChar.
    + unfold throw. repeat split; reflexivity.
    + unfold ret. unfold decimalFrom. cbn [fold_left].
      repeat split; try lia; try assumption; discriminate.
Qed.

(** X21: [getNumber] reads a number in base ten.  From a processor at a
    character of its line, [getNumber] throws when the character is not a
    digit; otherwise it takes all the digits up to the next character that
    is not one (white space between them does not count) and returns the
    number they write in base ten, leaving the processor at what follows;
    when that number is above [INT_MAX] the [int] arithmetic overflows, which
    is undefined behaviour. *)
Theorem getNumber_reads_decimal (sp : StringProcessor) :
  inBounds sp -> atChar sp ->
  match getNumber sp with
  | Ok (n, sp') =>
      digitRun (pending sp) <> []
      /\ n = decimal (digitRun (pending sp))
      /\ (0 <= n <= INT_MAX)%Z
      /\ pending sp' = afterDigits (pending sp)
      /\ input sp' = input sp
  | Throw what =>
      digitRun (pending sp) = []
      /\ what = "Command requires value, none given."%string
  | Undefined => (INT_MAX < decimal (digitRun (pending sp)))%Z
  | OutOfFuel => False
  end.
Proof.
  intros Hb Hat. unfold getNumber, mbind, loopFuel.
  pose proof (getNumberLoop_decimal (fuelOf sp) 0 true sp
                (fuelOf_enough sp sp (ahead_refl sp)) Hb Hat
                ltac:(unfold INT_MAX; lia)) as H.
  unfold decimal.
  destruct (getNumberLoop (fuelOf sp) 0 true sp) as [[n sp']| | |];
    try assumption.
  - destruct H as (E & Hr & Hne & Hp & Hi & _).
    repeat split; try assumption; try lia. now apply Hne.
  - destruct H as (_ & Hr & Hw). split; assumption.
Qed.

(** The processor at the start of "1 20 C": the number read is 120. *)
Lemma getNumber_reads_decimal_witness :
  let sp := mkStringProcessor "1 20 C" 0 "1" in
  match getNumber sp with
  | Ok (n, sp') =>
      digitRun (pending sp) <> []
      /\ n = decimal (digitRun (pending sp))
      /\ (0 <= n <= INT_MAX)%Z
      /\ pending sp' = afterDigits (pending sp)
      /\ input sp' = input sp
  | Throw what =>
      digitRun (pending sp) = []
      /\ what = "Command requires value, none given."%string
  | Undefined => (INT_MAX < decimal (digitRun (pending sp)))%Z
  | OutOfFuel => False
  end.
Proof.
  apply (getNumber_reads_decimal (mkStringProcessor "1 20 C" 0 "1")).
  - unfold inBounds. cbn. lia.
  - right. exists "1"%char. repeat split; reflexivity.
Defined.

(** ** Note names and note letters *)

(** X22: the parser's note letters agree with the note names.  In every
    octave 0 to 8, the index the parser computes for a letter A to G
    ([octave * 12] plus the letter's entry in its semitone map) is the
    index at which [getNoteNames] holds that letter followed by the
    octave. *)
Theorem note_letters_match_note_names (octave : Z) (letter : ascii) :
  (0 <= octave < octavesImplemented)%Z -> isLetterAG letter = true ->
  nth_error getNoteNames
            (Z.to_nat (octave * notesPerOctave + semitone letter))
  = Some (noteName (String letter EmptyString) (Z.to_nat octave)).
Proof.
  unfold octavesImplemented. intros Ho Hl.
  assert (Hcases : In (Z.to_nat octave) (seq 0 9)).
  { apply in_seq. lia. }
  assert (E : octave = Z.of_nat (Z.to_nat octave)) by lia.
  rewrite E. clear E. generalize dependent (Z.to_nat octave). clear Ho.
  intros o Hcases.
  destruct letter as [b0 b1 b2 b3 b4 b5 b6 b7].
  destruct b0, b1, b2, b3, b4, b5, b6, b7; try discriminate Hl;
    cbn [seq In] in Hcases;
    repeat (destruct Hcases as [<- | Hcases]; [reflexivity|]);
    contradiction.
Qed.

Lemma note_letters_match_note_names_witness :
  nth_error getNoteNames 57 = Some "A4"%string.
Proof.
  apply (note_letters_match_note_names 4 "A"); [unfold octavesImplemented; lia|].
  reflexivity.
Defined.

(** ** The sample display *)

Lemma nth_assign_same {A : Type} (l : list A) (i : nat) (v d : A) :
  (i < List.length l)%nat -> nth i (assign l i v) d = v.
Proof.
  revert i. induction l as [|h t IH]; intros [|i] H; cbn in *;
    try lia; [reflexivity|]. apply IH. lia.
Qed.

Lemma nth_assign_other {A : Type} (l : list A) (i j : nat) (v d : A) :
  i <> j -> nth j (assign l i v) d = nth j l d.
Proof.
  revert i j. induction l as [|h t IH]; intros [|i] [|j] H; cbn;
    try reflexivity; try congruence. apply IH. congruence.
Qed.

Lemma land_511 (z : Z) : Z.land z 511 = (z mod 512)%Z.
Proof. change 511%Z with (Z.ones 9). now rewrite Z.land_ones by lia. Qed.

Lemma recordSample_ok (result : R) (d : Display) :
  DisplayOk d -> DisplayOk (recordSample result d).
Proof.
  intros [Hl Hs]. unfold DisplayOk, recordSample. cbn [samples sample].
  rewrite assign_length, land_511. split; [exact Hl|].
  apply Z.mod_pos_bound. lia.
Qed.

(** X23: the display holds the latest 512 samples, newest last.  The index
    of [MyCustomSynthFunction] stays within the array, and after any
    number of samples have been recorded the value drawn at position
    [511 - j] is the sample recorded [j] calls before the latest one, for
    every [j] below 512 and below the number of samples. *)
Theorem display_shows_latest_samples (results : list R) (d : Display)
        (j : nat) :
  DisplayOk d -> (j < List.length results)%nat -> (j < 512)%nat ->
  let d' := fold_left (fun d0 r => recordSample r d0) results d in
  DisplayOk d'
  /\ shownSample d' (511 - Z.of_nat j) = nth j (rev results) 0.
Proof.
  intros Hok. revert j.
  induction results as [|r results IH] using rev_ind; intros j Hj Hlt;
    [cbn in Hj; lia|].
  cbv zeta. rewrite fold_left_app. cbn [fold_left].
  set (d1 := fold_left (fun d0 r0 => recordSample r0 d0) results d) in *.
  assert (Hok1 : DisplayOk d1).
  { clear IH Hj. unfold d1. clear d1.
    induction results as [|x l IHl] using rev_ind; [exact Hok|].
    rewrite fold_left_app. cbn [fold_left]. now apply recordSample_ok. }
  split; [now apply recordSample_ok|].
  destruct Hok1 as [Hlen Hs].
  rewrite rev_app_distr. cbn [rev app].
  unfold shownSample, recordSample. cbn [samples sample].
  rewrite !land_511.
  destruct j as [|j].
  - cbn [nth].
    replace (((sample d1 + 1) mod 512 + (511 - Z.of_nat 0)) mod 512)%Z
      with (sample d1).
    + apply nth_assign_same. lia.
    + rewrite Zplus_mod_idemp_l.
      replace (sample d1 + 1 + (511 - Z.of_nat 0))%Z
        with (sample d1 + 1 * 512)%Z by lia.
      rewrite Z_mod_plus_full. symmetry. apply Z.mod_small. lia.
  - cbn [nth]. rewrite length_app in Hj. cbn [List.length] in Hj.
    destruct (IH j ltac:(lia) ltac:(lia)) as [_ Hshown].
    unfold shownSample in Hshown. rewrite land_511 in Hshown.
    rewrite <- Hshown.
    assert (E : (((sample d1 + 1) mod 512 + (511 - Z.of_nat (S j))) mod 512
                 = (sample d1 + (511 - Z.of_nat j)) mod 512)%Z).
    { rewrite Zplus_mod_idemp_l. f_equal. lia. }
    rewrite E.
    apply nth_assign_other.
    assert (Hne : ((sample d1 + (511 - Z.of_nat j)) mod 512 <> sample d1)%Z).
    { intros Heq.
      assert (Hq : (sample d1 + (511 - Z.of_nat j)
                    = 512 * ((sample d1 + (511 - Z.of_nat j)) / 512)
                      + sample d1)%Z).
      { rewrite <- Heq at 3. apply Z.div_mod. lia. }
      lia. }
    pose proof (Z.mod_pos_bound (sample d1 + (511 - Z.of_nat j)) 512
                  ltac:(lia)).
    lia.
Qed.

Lemma display_shows_latest_samples_witness :
  shownSample
    (fold_left (fun d0 r => recordSample r d0) [1; 2; 3]
               (mkDisplay (repeat 0 512) 510))
    (511 - Z.of_nat 1)
  = 2.
Proof.
  apply (display_shows_latest_samples
           [1; 2; 3] (mkDisplay (repeat 0 512) 510) 1).
  - split; [reflexivity|cbn; lia].
  - cbn. lia.
  - lia.
Defined.

(** ** MakeWave: the 16 bit samples *)

(** X24: the conversion to 16 bits is always defined.  For every sample
    the Venue can return, MakeWave's clamp and cast give a [short] between
    -32767 and 32767 without undefined behaviour: 32767 from 1 up, -32767
    from -1 down, and in between the sample times 32767 with its fractional
    part dropped. *)
Theorem curSample_is_defined (raw : R) :
  exists z,
    curSample raw = Ok z
    /\ (- SHRT_MAX <= z <= SHRT_MAX)%Z
    /\ (1 <= raw -> z = SHRT_MAX)
    /\ (raw <= -1 -> z = (- SHRT_MAX)%Z)
    /\ (-1 <= raw <= 1 ->
        Rabs (IZR z) <= Rabs (raw * IZR SHRT_MAX)
        /\ Rabs (raw * IZR SHRT_MAX - IZR z) < 1).
Proof.
  unfold curSample, toShort. cbv zeta.
  set (x := std_clamp raw (-1.0) 1.0 * IZR SHRT_MAX).
  assert (Hx : - IZR SHRT_MAX <= x <= IZR SHRT_MAX
               /\ (1 <= raw -> x = IZR SHRT_MAX)
               /\ (raw <= -1 -> x = - IZR SHRT_MAX)
               /\ (-1 <= raw <= 1 -> x = raw * IZR SHRT_MAX)).
  { unfold x, std_clamp, SHRT_MAX.
    destruct (Rlt_dec raw (-1.0)); [|destruct (Rlt_dec 1.0 raw)];
      repeat split; intros; lra. }
  destruct Hx as ([Hlo Hhi] & H1 & H2 & H3).
  assert (Ht : (- SHRT_MAX <= truncate x <= SHRT_MAX)%Z
               /\ Rabs (IZR (truncate x)) <= Rabs x
               /\ Rabs (x - IZR (truncate x)) < 1
               /\ (x = IZR SHRT_MAX -> truncate x = SHRT_MAX)
               /\ (x = - IZR SHRT_MAX -> truncate x = (- SHRT_MAX)%Z)).
  { unfold truncate. destruct (Rle_dec 0 x) as [Hpos|Hneg].
    - pose proof (Zfloor_bound x) as [B1 B2].
      assert (0 <= Zfloor x)%Z.
      { apply Z.lt_succ_r. apply lt_IZR. rewrite succ_IZR. lra. }
      assert (Zfloor x <= SHRT_MAX)%Z by (apply le_IZR; lra).
      assert (0 <= IZR (Zfloor x)) by now apply IZR_le.
      split; [unfold SHRT_MAX in *; lia|].
      split; [rewrite !Rabs_pos_eq by lra; lra|].
      split; [rewrite Rabs_pos_eq by lra; lra|].
      split.
      + intros ->. apply ZfloorZ.
      + intros E. unfold SHRT_MAX in *. exfalso. lra.
    - pose proof (Zfloor_bound (- x)) as [B1 B2].
      assert (0 <= Zfloor (- x))%Z.
      { apply Z.lt_succ_r. apply lt_IZR. rewrite succ_IZR. lra. }
      assert (Zfloor (- x) <= SHRT_MAX)%Z by (apply le_IZR; lra).
      assert (0 <= IZR (Zfloor (- x))) by now apply IZR_le.
      rewrite opp_IZR.
      split; [unfold SHRT_MAX in *; lia|].
      split; [rewrite Rabs_Ropp, Rabs_pos_eq, Rabs_left by lra; lra|].
      split; [rewrite Rabs_left1 by lra; lra|].
      split.
      + intros E. unfold SHRT_MAX in *. exfalso. lra.
      + intros ->. rewrite Ropp_involutive, ZfloorZ. reflexivity. }
  destruct Ht as (Hr & Ha & Hd & E1 & E2).
  exists (truncate x).
  assert (Hin : ((SHRT_MIN <=? truncate x) && (truncate x <=? SHRT_MAX))%Z
                = true).
  { apply andb_true_iff. split; apply Z.leb_le;
      unfold SHRT_MIN, SHRT_MAX in *; lia. }
  rewrite Hin. split; [reflexivity|]. split; [exact Hr|].
  split; [intros H; apply E1, H1, H|].
  split; [intros H; apply E2, H2, H|].
  intros H. rewrite <- (H3 H). split; assumption.
Qed.
